(** * VaniJS PWA: navigation engine, plugin dispatch, state store, reconciler

    A shallow embedding of the core of the VaniJS runtime:
    - [Router]  : [VaniRouter] of router.js (route table, matcher, [navigate], [back]);
    - [Plugins] : [VaniPluginSystem] of plugins.js (registry, load order, hooks);
    - [Store]   : [VaniJS.useState] of vanijs.js;
    - [VDom]    : [VaniJS.createDOM], [patch], [updateProperties], [render] of vanijs.js.

    JavaScript strings are modelled by [string] (the model is exact on ASCII
    text), asynchronous functions by their sequential execution (the engine is
    single threaded and every call studied here is run to completion). *)

From Stdlib Require Import ZArith NArith Lia List Ascii String Sorting.Sorted.
From stdpp Require Import base option list gmap sets strings pretty.
Import ListNotations.
Local Open Scope string_scope.
Local Open Scope list_scope.
Set Warnings "-clear-no-such-hyp,-register-all".

(** ** JavaScript conventions shared by the modules *)
Module Js.

(** Names every object literal inherits from [Object.prototype]; a property
    read [o[k]] with one of these keys is never [undefined]. *)
Definition object_prototype_names : list string :=
  [ "constructor"; "hasOwnProperty"; "isPrototypeOf"; "propertyIsEnumerable";
    "toLocaleString"; "toString"; "valueOf"; "__proto__";
    "__defineGetter__"; "__defineSetter__"; "__lookupGetter__"; "__lookupSetter__" ].

Definition mem (k : string) (l : list string) : bool :=
  existsb (String.eqb k) l.

Definition digit_val (c : ascii) : option N :=
  let n := N_of_ascii c in
  if ((48 <=? n) && (n <=? 57))%N then Some (n - 48)%N else None.

Fixpoint parse_digits (s : string) (acc : N) : option N :=
  match s with
  | EmptyString => Some acc
  | String c s' =>
      match digit_val c with
      | Some d => parse_digits s' (10 * acc + d)%N
      | None => None
      end
  end.

(** An "array index" key: the canonical decimal form of an integer below
    [2^32 - 1].  Such keys are enumerated first, in numeric order, by
    [Object.keys] / [Object.entries]. *)
Definition array_index (s : string) : option N :=
  match s with
  | EmptyString => None
  | String c s' =>
      if Ascii.eqb c "0"
      then (if String.eqb s' "" then Some 0%N else None)
      else match parse_digits s 0 with
           | Some n => if (n <? 4294967295)%N then Some n else None
           | None => None
           end
  end.

Section Entries.
Context {V : Type}.

Fixpoint insert_index (x : N * (string * V)) (l : list (N * (string * V)))
  : list (N * (string * V)) :=
  match l with
  | [] => [x]
  | y :: l' => if (fst x <=? fst y)%N then x :: y :: l' else y :: insert_index x l'
  end.

Fixpoint index_entries (l : list (string * V)) : list (N * (string * V)) :=
  match l with
  | [] => []
  | (k, v) :: l' =>
      match array_index k with
      | Some n => insert_index (n, (k, v)) (index_entries l')
      | None => index_entries l'
      end
  end.

Fixpoint string_entries (l : list (string * V)) : list (string * V) :=
  match l with
  | [] => []
  | (k, v) :: l' =>
      match array_index k with
      | Some _ => string_entries l'
      | None => (k, v) :: string_entries l'
      end
  end.

(** [Object.entries(o)] for an object whose own properties were created in
    the order of [l]: array-index keys ascending, then the other keys in
    creation order. *)
Definition entries (l : list (string * V)) : list (string * V) :=
  map snd (index_entries l) ++ string_entries l.

Fixpoint assoc (k : string) (l : list (string * V)) : option V :=
  match l with
  | [] => None
  | (k', v) :: l' => if String.eqb k k' then Some v else assoc k l'
  end.

(** [o[k] = v] on own properties: an existing key keeps its place. *)
Fixpoint assoc_set (k : string) (v : V) (l : list (string * V)) : list (string * V) :=
  match l with
  | [] => [(k, v)]
  | (k', v') :: l' =>
      if String.eqb k k' then (k, v) :: l' else (k', v') :: assoc_set k v l'
  end.
End Entries.

(** *** Facts about tables *)

Lemma assoc_In_none {V : Type} (k : string) (v : V) (l : list (string * V)) :
  assoc k l = None -> In (k, v) l -> False.
Proof.
  induction l as [|[k' v'] l IH]; simpl; [tauto|].
  destruct (String.eqb k k') eqn:E; [discriminate|].
  intros H [H1|H1]; [|exact (IH H H1)].
  injection H1 as -> _. rewrite String.eqb_refl in E. discriminate.
Qed.

Lemma In_insert_index {V : Type} (x y : N * (string * V)) (l : list (N * (string * V))) :
  In x (insert_index y l) -> x = y \/ In x l.
Proof.
  induction l as [|z l IH]; simpl.
  - intros [H|[]]; auto.
  - destruct (fst y <=? fst z)%N; simpl.
    + intros [H|[H|H]]; auto.
    + intros [H|H]; auto. destruct (IH H); auto.
Qed.

Lemma In_index_entries {V : Type} (n : N) (k : string) (v : V) (l : list (string * V)) :
  In (n, (k, v)) (index_entries l) -> In (k, v) l /\ array_index k = Some n.
Proof.
  induction l as [|[k' v'] l IH]; simpl; [tauto|].
  destruct (array_index k') as [m|] eqn:E.
  - intros H. apply In_insert_index in H. destruct H as [H|H].
    + injection H as -> -> ->. auto.
    + destruct (IH H). auto.
  - intros H. destruct (IH H). auto.
Qed.

Lemma assoc_set_In {V : Type} (k k0 : string) (v v0 : V) (l : list (string * V)) :
  In (k0, v0) (assoc_set k v l) -> (k0 = k /\ v0 = v) \/ In (k0, v0) l.
Proof.
  induction l as [|[k' v'] l IH]; simpl.
  - intros [H|[]]. injection H as <- <-. auto.
  - destruct (String.eqb k k') eqn:E; simpl.
    + intros [H|H]; [injection H as <- <-|]; auto.
    + intros [H|H]; auto. destruct (IH H); auto.
Qed.

Lemma assoc_app_fresh {V : Type} (k : string) (l1 l2 : list (string * V)) :
  ~ In k (map fst l1) -> assoc k (l1 ++ l2) = assoc k l2.
Proof.
  induction l1 as [|[k' v'] l1 IH]; simpl; intros H; [reflexivity|].
  destruct (String.eqb_spec k k') as [->|Hne]; [tauto|]. apply IH. tauto.
Qed.

Lemma assoc_set_fresh {V : Type} (k : string) (v : V) (l : list (string * V)) :
  ~ In k (map fst l) -> assoc_set k v l = l ++ [(k, v)].
Proof.
  induction l as [|[k' v'] l IH]; simpl; intros H; [reflexivity|].
  destruct (String.eqb_spec k k') as [->|Hne]; [tauto|]. rewrite IH by tauto. reflexivity.
Qed.

Lemma assoc_In {V : Type} (k : string) (v : V) (l : list (string * V)) :
  assoc k l = Some v -> In (k, v) l.
Proof.
  induction l as [|[k' v'] l IH]; simpl; [discriminate|].
  destruct (String.eqb_spec k k') as [->|Hne].
  - intros [= ->]. left. reflexivity.
  - intros H. right. apply IH. exact H.
Qed.

Lemma keys_assoc {V : Type} (k : string) (l : list (string * V)) :
  In k (map fst l) -> exists v, assoc k l = Some v.
Proof.
  induction l as [|[k' v'] l IH]; simpl; [tauto|].
  destruct (String.eqb_spec k k') as [->|Hne]; [eauto|].
  intros [H|H]; [congruence | exact (IH H)].
Qed.

Lemma entries_In {V : Type} (x : string * V) (l : list (string * V)) :
  In x (entries l) -> In x l.
Proof.
  unfold entries. rewrite in_app_iff. intros [H|H].
  - apply in_map_iff in H. destruct H as ([n [k v]] & <- & H).
    apply In_index_entries in H. tauto.
  - induction l as [|[k v] l IH]; simpl in *; [tauto|].
    destruct (array_index k); [right; exact (IH H)|].
    destruct H as [H|H]; [left; exact H | right; exact (IH H)].
Qed.

Lemma assoc_keys {V : Type} (k : string) (l : list (string * V)) :
  assoc k l <> None <-> In k (map fst l).
Proof.
  induction l as [|[k' v] l IH]; simpl; [tauto|].
  destruct (String.eqb_spec k k') as [->|Hne].
  - split; [auto | discriminate].
  - rewrite IH. split; [auto | intros [H|H]; [congruence | exact H]].
Qed.

End Js.

(** ** The navigation engine (router.js, class [VaniRouter]) *)
Module Router.
Import Js.

(** *** Path patterns

    [defineRoute] rewrites every [:name] of the path into the named group
    [(?<name>[^/]+)] and anchors the result with [^] and [$].  The compiled
    expression is kept as a list of tokens. *)
Inductive token :=
| Lit (c : ascii)
| Param (name : string).

(** The class [\w]. *)
Definition is_word (c : ascii) : bool :=
  let n := N_of_ascii c in
  (((48 <=? n) && (n <=? 57)) || ((65 <=? n) && (n <=? 90))
   || ((97 <=? n) && (n <=? 122)) || (n =? 95))%N.

Definition is_digit (c : ascii) : bool :=
  let n := N_of_ascii c in ((48 <=? n) && (n <=? 57))%N.

(** Characters with a meaning of their own in a regular expression. *)
Definition is_regex_special (c : ascii) : bool :=
  existsb (Ascii.eqb c)
    [ "\"; "^"; "$"; "."; "|"; "?"; "*"; "+"; "("; ")"; "["; "]"; "{"; "}" ]%char.

(** A finished [:name]; a colon followed by no word character stays a colon. *)
Definition flush (name : string) : list token :=
  if String.eqb name "" then [Lit ":"%char] else [Param name].

(** [path.replace(/:(\w+)/g, ...)], scanning left to right; [cur] is the
    parameter name being read, if any. *)
Fixpoint scan (s : string) (cur : option string) : list token :=
  match s with
  | EmptyString => match cur with Some n => flush n | None => [] end
  | String c s' =>
      match cur with
      | Some n =>
          if is_word c then scan s' (Some (n ++ String c "")%string)
          else flush n ++
               (if Ascii.eqb c ":" then scan s' (Some "") else Lit c :: scan s' None)
      | None =>
          if Ascii.eqb c ":" then scan s' (Some "") else Lit c :: scan s' None
      end
  end.

Definition tokenize (path : string) : list token := scan path None.

Fixpoint param_names (ts : list token) : list string :=
  match ts with
  | [] => []
  | Lit _ :: ts' => param_names ts'
  | Param n :: ts' => n :: param_names ts'
  end.

Fixpoint has_special (ts : list token) : bool :=
  match ts with
  | [] => false
  | Lit c :: ts' => is_regex_special c || has_special ts'
  | Param _ :: ts' => has_special ts'
  end.

Definition bad_group_name (n : string) : bool :=
  match n with
  | EmptyString => true
  | String c _ => is_digit c
  end.

Fixpoint has_dup (l : list string) : bool :=
  match l with
  | [] => false
  | x :: l' => mem x l' || has_dup l'
  end.

Inductive compiled :=
| Compiled (ts : list token)
| RegexSyntaxError            (* [new RegExp] throws: bad or repeated group name *)
| RegexNotModelled.           (* the path holds regular-expression syntax *)

(** [new RegExp(`^${pattern}$`)].  Paths that contain regular-expression
    syntax of their own are outside this model. *)
Definition compile (path : string) : compiled :=
  let ts := tokenize path in
  if has_special ts then RegexNotModelled
  else if existsb bad_group_name (param_names ts) || has_dup (param_names ts)
       then RegexSyntaxError
       else Compiled ts.

Definition groups := list (string * string).

(** The group [[^/]+]: greedy, giving characters back one at a time until
    the rest of the expression [k] matches. *)
Fixpoint capture (k : string -> option groups) (s : string) : option (string * groups) :=
  match s with
  | EmptyString => None
  | String c s' =>
      if Ascii.eqb c "/" then None
      else match capture k s' with
           | Some (v, g) => Some (String c v, g)
           | None =>
               match k s' with
               | Some g => Some (String c "", g)
               | None => None
               end
           end
  end.

(** [path.match(route.pattern)]: the anchored match and its named groups. *)
Fixpoint match_tokens (ts : list token) (s : string) : option groups :=
  match ts with
  | [] => if String.eqb s "" then Some [] else None
  | Lit c :: ts' =>
      match s with
      | String c' s' => if Ascii.eqb c c' then match_tokens ts' s' else None
      | EmptyString => None
      end
  | Param n :: ts' =>
      match capture (match_tokens ts') s with
      | Some (v, g) => Some ((n, v) :: g)
      | None => None
      end
  end.

(** *** Guards

    A guard is the sequence of things it does with the navigation context
    before it returns or throws. *)
Inductive guard_action :=
| GRedirect (url : string)      (* context.redirect(url) *)
| GCancel                       (* context.cancel() *)
| GThrow (message : string).    (* throw new Error(message) *)

Definition guard := list guard_action.

Record route := {
  originalPath : string;
  pattern : list token;
  component : string;
  props : list (string * string);
  middlewares : list guard;
  r_params : list string
}.

(** The [routes] object: its own properties in creation order, and the
    route installed as its prototype by [routes['__proto__'] = ...], if any. *)
Record route_table := {
  own : list (string * route);
  proto : option route
}.

Definition no_routes : route_table := {| own := []; proto := None |}.

Record router := {
  routes : route_table;
  history : list string;
  currentRoute : option string;
  previousRoute : option string;
  routerMiddlewares : list guard;
  params : groups;
  navigationLock : bool
}.

Definition new_router : router :=
  {| routes := no_routes; history := []; currentRoute := None; previousRoute := None;
     routerMiddlewares := []; params := []; navigationLock := false |}.

Inductive define_result :=
| RouteDefined (r : router)
| DefineThrows                (* SyntaxError out of [new RegExp] *)
| DefineNotModelled.

Definition set_routes (t : route_table) (r : router) : router :=
  {| routes := t; history := history r; currentRoute := currentRoute r;
     previousRoute := previousRoute r; routerMiddlewares := routerMiddlewares r;
     params := params r; navigationLock := navigationLock r |}.

Definition defineRoute (path comp : string) (ps : list (string * string))
    (mws : list guard) (r : router) : define_result :=
  match compile path with
  | RegexNotModelled => DefineNotModelled
  | RegexSyntaxError => DefineThrows
  | Compiled ts =>
      let rt := {| originalPath := path; pattern := ts; component := comp;
                   props := ps; middlewares := mws; r_params := param_names ts |} in
      let t := routes r in
      RouteDefined (set_routes
                 (if String.eqb path "__proto__"
                  then {| own := own t; proto := Some rt |}
                  else {| own := assoc_set path rt (own t); proto := proto t |}) r)
  end.

Definition useRouterMiddleware (g : guard) (r : router) : router :=
  {| routes := routes r; history := history r; currentRoute := currentRoute r;
     previousRoute := previousRoute r;
     routerMiddlewares := routerMiddlewares r ++ [g];
     params := params r; navigationLock := navigationLock r |}.

(** What [this.routes[path]] evaluates to. *)
Inductive lookup :=
| IsRoute (rt : route)
| Inherited (truthy : bool)   (* a value found on the prototype chain *)
| Absent.

Definition route_field_names : list string :=
  [ "originalPath"; "pattern"; "component"; "props"; "middlewares"; "params" ].

Definition routes_get (t : route_table) (path : string) : lookup :=
  if String.eqb path "__proto__" then
    match proto t with
    | Some rt => IsRoute rt
    | None => Inherited true
    end
  else
    match assoc path (own t) with
    | Some rt => IsRoute rt
    | None =>
        match proto t with
        | Some rt =>
            if String.eqb path "component"
            then Inherited (negb (String.eqb (component rt) ""))
            else if mem path route_field_names then Inherited true
            else if mem path object_prototype_names then Inherited true
            else Absent
        | None =>
            if mem path object_prototype_names then Inherited true else Absent
        end
    end.

Inductive match_result :=
| Matched (rt : route) (ps : groups)
| MatchedForeign              (* a truthy value that is not a route definition *)
| NoMatch.

(** [route.params.forEach(param => params[param] = match.groups[param])] on
    a fresh object literal.  Assigning a string to the key [__proto__]
    stores nothing; every other name has its group, the names and the
    groups coming from the same path. *)
Definition populate (names : list string) (g : groups) : groups :=
  fold_left
    (fun acc n =>
       if String.eqb n "__proto__" then acc
       else match assoc n g with
            | Some v => assoc_set n v acc
            | None => acc
            end)
    names [].

Fixpoint first_match (l : list (string * route)) (path : string) : match_result :=
  match l with
  | [] => NoMatch
  | (_, rt) :: l' =>
      match match_tokens (pattern rt) path with
      | Some g => Matched rt (populate (r_params rt) g)
      | None => first_match l' path
      end
  end.

Definition findMatchingRoute (r : router) (path : string) : match_result :=
  match routes_get (routes r) path with
  | IsRoute rt => Matched rt []
  | Inherited true => MatchedForeign
  | _ => first_match (entries (own (routes r))) path
  end.

(** *** Navigation *)

(** What a navigation attempt leaves behind outside the router object: the
    console, the hooks it asks the plugin system to run, the location. *)
Inductive event :=
| ConsoleWarn (msg : string)
| ConsoleError (msg : string)
| HashListenerRemoved
| HashListenerAdded
| HookCompleted (from : option string) (to : string) (ps : groups) (hist : list string)
| HookError (message : string) (path : string) (from : option string).

(** The router, the part of the [vani] object and of [window] it uses, and
    the events so far (latest last). *)
Record world := {
  rt : router;
  hash : string;                 (* window.location.hash, without the [#] *)
  pluginSystem : bool;           (* is vani.pluginSystem set *)
  routerHandlers : bool;         (* is vani.routerHandlers set *)
  trace : list event
}.

Definition with_rt (f : router -> router) (w : world) : world :=
  {| rt := f (rt w); hash := hash w; pluginSystem := pluginSystem w;
     routerHandlers := routerHandlers w; trace := trace w |}.

Definition emit (e : event) (w : world) : world :=
  {| rt := rt w; hash := hash w; pluginSystem := pluginSystem w;
     routerHandlers := routerHandlers w; trace := trace w ++ [e] |}.

Definition set_hash (p : string) (w : world) : world :=
  {| rt := rt w; hash := p; pluginSystem := pluginSystem w;
     routerHandlers := routerHandlers w; trace := trace w |}.

Definition set_lock (b : bool) (r : router) : router :=
  {| routes := routes r; history := history r; currentRoute := currentRoute r;
     previousRoute := previousRoute r; routerMiddlewares := routerMiddlewares r;
     params := params r; navigationLock := b |}.

Definition set_history (h : list string) (r : router) : router :=
  {| routes := routes r; history := h; currentRoute := currentRoute r;
     previousRoute := previousRoute r; routerMiddlewares := routerMiddlewares r;
     params := params r; navigationLock := navigationLock r |}.

Definition set_current (p : string) (ps : groups) (r : router) : router :=
  {| routes := routes r; history := history r; currentRoute := Some p;
     previousRoute := previousRoute r; routerMiddlewares := routerMiddlewares r;
     params := ps; navigationLock := navigationLock r |}.

(** The body of the [try] block either runs to its end or throws. *)
Inductive outcome :=
| Finished (w : world)
| Thrown (message : string) (w : world)
| Exhausted.

Definition cancelled : string := "Navigation cancelled".

Section Guards.
(** [redirect]: [url => this.navigate(url, false, { force: true })]. *)
Variable redirect : string -> world -> option world.

Fixpoint run_guard (g : guard) (w : world) : outcome :=
  match g with
  | [] => Finished w
  | GRedirect url :: g' =>
      match redirect url w with
      | Some w' => run_guard g' w'
      | None => Exhausted
      end
  | GCancel :: _ => Thrown cancelled w
  | GThrow m :: _ => Thrown m w
  end.

(** [for (const middleware of this.routerMiddlewares) await middleware(...)]. *)
Fixpoint run_guards (gs : list guard) (w : world) : outcome :=
  match gs with
  | [] => Finished w
  | g :: gs' =>
      match run_guard g w with
      | Finished w' => run_guards gs' w'
      | o => o
      end
  end.
End Guards.

(** [this.history[this.history.length - 1] = path] or [this.history.push(path)]. *)
Definition commit_history (replace : bool) (path : string) (h : list string) : list string :=
  if replace && (0 <? length h)%nat then removelast h ++ [path] else h ++ [path].

(** The steps of [navigate] after the guards. *)
Definition commit (path : string) (replace : bool) (ps : groups) (w : world) : world :=
  let w1 := with_rt (set_history (commit_history replace path (history (rt w)))) w in
  let w2 := with_rt (set_current path ps) w1 in
  let w3 := if routerHandlers w2
            then emit HashListenerAdded (set_hash path (emit HashListenerRemoved w2))
            else set_hash path w2 in
  if pluginSystem w3
  then emit (HookCompleted (previousRoute (rt w3)) path ps (history (rt w3))) w3
  else w3.

Definition same_route (cur : option string) (path : string) : bool :=
  match cur with
  | Some c => String.eqb c path
  | None => false
  end.

(** The [catch] block. *)
Definition handle (message path : string) (w : world) : world :=
  if String.eqb message cancelled then w
  else
    let w1 := emit (ConsoleError message) w in
    if pluginSystem w1
    then emit (HookError message path (currentRoute (rt w1))) w1
    else w1.

(** The [try] block of [navigate]; [nav] stands for [this.navigate]. *)
Definition attempt (nav : string -> bool -> bool -> world -> option world)
    (path : string) (replace : bool) (w1 : world) : outcome :=
  match findMatchingRoute (rt w1) path with
  | NoMatch =>
      match nav "/404" false true w1 with
      | Some w2 => Finished w2
      | None => Exhausted
      end
  | Matched _ ps =>
      match run_guards (fun url => nav url false true) (routerMiddlewares (rt w1)) w1 with
      | Finished w2 => Finished (commit path replace ps w2)
      | o => o
      end
  | MatchedForeign =>
      match run_guards (fun url => nav url false true) (routerMiddlewares (rt w1)) w1 with
      | Finished w2 => Finished (commit path replace [] w2)
      | o => o
      end
  end.

(** The [catch] and [finally] blocks. *)
Definition settle (path : string) (o : outcome) : option world :=
  match o with
  | Finished w2 => Some (with_rt (set_lock false) w2)
  | Thrown m w2 => Some (with_rt (set_lock false) (handle m path w2))
  | Exhausted => None
  end.

(** [navigate(path, replace, options)], [force] being [options.force].
    [fuel] bounds the depth of the calls [navigate] makes to itself, through
    the not-found branch and through [redirect]. *)
Fixpoint navigate (fuel : nat) (path : string) (replace force : bool) (w : world)
  : option world :=
  if navigationLock (rt w) then
    Some (emit (ConsoleWarn "Navigation locked, skipping") w)
  else if same_route (currentRoute (rt w)) path && negb force then
    Some w
  else
    match fuel with
    | O => None
    | S fuel' =>
        settle path (attempt (navigate fuel') path replace (with_rt (set_lock true) w))
    end.

Definition or_root (p : string) : string := if String.eqb p "" then "/" else p.

(** [back()]: with two entries or more, [pop] twice and navigate to the
    second value popped; otherwise navigate to the root. *)
Definition back (fuel : nat) (w : world) : option world :=
  if (1 <? length (history (rt w)))%nat then
    let h1 := removelast (history (rt w)) in
    let previous := List.last h1 "" in
    let h2 := removelast h1 in
    navigate fuel (or_root previous) false false (with_rt (set_history h2) w)
  else
    navigate fuel "/" false false w.

(** *** Facts about [navigate] *)

Lemma set_lock_round (r : router) :
  navigationLock r = false -> set_lock false (set_lock true r) = r.
Proof. destruct r; simpl; intros ->; reflexivity. Qed.

Lemma with_rt_round (w : world) :
  navigationLock (rt w) = false ->
  with_rt (set_lock false) (with_rt (set_lock true) w) = w.
Proof.
  intros H. destruct w as [r h p rh t]; unfold with_rt; simpl in *.
  rewrite set_lock_round by assumption. reflexivity.
Qed.

Lemma navigate_locked (fuel : nat) (path : string) (replace force : bool) (w : world) :
  navigationLock (rt w) = true ->
  navigate fuel path replace force w
  = Some (emit (ConsoleWarn "Navigation locked, skipping") w).
Proof. intros H. destruct fuel; cbn [navigate]; rewrite H; reflexivity. Qed.

(** Under the lock a guard can only be turned away by [redirect]: the router
    and the location stay as they are. *)
Lemma run_guard_locked (fuel : nat) (g : guard) (w : world) :
  navigationLock (rt w) = true ->
  exists w',
    (run_guard (fun url => navigate fuel url false true) g w = Finished w'
     \/ exists m, run_guard (fun url => navigate fuel url false true) g w = Thrown m w')
    /\ rt w' = rt w /\ hash w' = hash w
    /\ pluginSystem w' = pluginSystem w /\ routerHandlers w' = routerHandlers w.
Proof.
  revert w. induction g as [|a g IH]; intros w Hl; simpl.
  - exists w. auto.
  - destruct a as [url| |m].
    + rewrite navigate_locked by assumption.
      destruct (IH (emit (ConsoleWarn "Navigation locked, skipping") w) Hl)
        as (w' & Hr & H1 & H2 & H3 & H4).
      exists w'. simpl in *. repeat split; assumption.
    + exists w. split; [right; eexists; reflexivity | auto].
    + exists w. split; [right; eexists; reflexivity | auto].
Qed.

Lemma run_guards_locked (fuel : nat) (gs : list guard) (w : world) :
  navigationLock (rt w) = true ->
  exists w',
    (run_guards (fun url => navigate fuel url false true) gs w = Finished w'
     \/ exists m, run_guards (fun url => navigate fuel url false true) gs w = Thrown m w')
    /\ rt w' = rt w /\ hash w' = hash w
    /\ pluginSystem w' = pluginSystem w /\ routerHandlers w' = routerHandlers w.
Proof.
  revert w. induction gs as [|g gs IH]; intros w Hl; simpl.
  - exists w. auto.
  - destruct (run_guard_locked fuel g w Hl) as (w1 & [Hr | [m Hr]] & H1 & H2 & H3 & H4);
      rewrite Hr.
    + assert (Hl1 : navigationLock (rt w1) = true) by (rewrite H1; exact Hl).
      destruct (IH w1 Hl1) as (w2 & Hr2 & K1 & K2 & K3 & K4).
      exists w2. split; [exact Hr2 | repeat split; congruence].
    + exists w1. split; [right; eexists; reflexivity | auto].
Qed.

(** One level of nesting is all [navigate] ever uses.  A guard here is one
    that settles: a finite sequence of [redirect] calls ended by a return, a
    cancellation or a throw.  With such guards [navigate] returns, because
    the calls it makes to itself, through [redirect] and through the
    not-found branch, find the lock taken and return at once. *)
Lemma navigate_returns (fuel : nat) (path : string) (replace force : bool) (w : world) :
  exists w', navigate (S fuel) path replace force w = Some w'.
Proof.
  cbn [navigate]. destruct (navigationLock (rt w)) eqn:Hl; [eauto|].
  destruct (same_route (currentRoute (rt w)) path && negb force); [eauto|].
  set (w1 := with_rt (set_lock true) w).
  assert (Hl1 : navigationLock (rt w1) = true) by reflexivity.
  unfold attempt.
  destruct (findMatchingRoute (rt w1) path) as [r ps| |].
  - destruct (run_guards_locked fuel (routerMiddlewares (rt w1)) w1 Hl1)
      as (w' & [Hr | [m Hr]] & _); rewrite Hr; simpl; eauto.
  - destruct (run_guards_locked fuel (routerMiddlewares (rt w1)) w1 Hl1)
      as (w' & [Hr | [m Hr]] & _); rewrite Hr; simpl; eauto.
  - rewrite navigate_locked by assumption. simpl. eauto.
Qed.

(** A guard that redirects and then cancels: the redirect is turned away by
    the lock of the attempt it belongs to, and the attempt leaves the router
    and the location exactly as they were. *)
Lemma navigate_redirect_cancel (fuel : nat) (path url : string) (replace force : bool)
    (w : world) (g : guard) (gs : list guard) :
  navigationLock (rt w) = false ->
  same_route (currentRoute (rt w)) path && negb force = false ->
  findMatchingRoute (rt w) path <> NoMatch ->
  routerMiddlewares (rt w) = (GRedirect url :: GCancel :: g) :: gs ->
  navigate (S fuel) path replace force w
  = Some (emit (ConsoleWarn "Navigation locked, skipping") w).
Proof.
  intros Hl Hs Hm Hg. cbn [navigate]. rewrite Hl, Hs.
  set (w1 := with_rt (set_lock true) w).
  assert (Hf : findMatchingRoute (rt w1) path = findMatchingRoute (rt w) path)
    by (destruct w as [[]]; reflexivity).
  assert (Hg' : routerMiddlewares (rt w1) = (GRedirect url :: GCancel :: g) :: gs)
    by (destruct w as [[]]; exact Hg).
  unfold attempt. rewrite Hf, Hg'.
  assert (Hgo : run_guards (fun u => navigate fuel u false true)
                  ((GRedirect url :: GCancel :: g) :: gs) w1
                = Thrown cancelled (emit (ConsoleWarn "Navigation locked, skipping") w1)).
  { cbn [run_guards run_guard]. rewrite navigate_locked by reflexivity. reflexivity. }
  assert (Hend : settle path
                   (Thrown cancelled (emit (ConsoleWarn "Navigation locked, skipping") w1))
                 = Some (emit (ConsoleWarn "Navigation locked, skipping") w)).
  { unfold settle, handle, w1. rewrite String.eqb_refl.
    destruct w as [r0 h p rh t]; unfold with_rt, emit; simpl in *.
    rewrite set_lock_round by assumption. reflexivity. }
  destruct (findMatchingRoute (rt w) path) as [r ps| |]; try congruence;
    rewrite Hgo; exact Hend.
Qed.

(** C4: while the mutual-exclusion flag is set, [navigate] returns at once and
    leaves history, current route, parameters and the flag itself untouched;
    the call is dropped with a console warning, whatever the path and the
    options. *)
Theorem navigate_dropped_while_locked (fuel : nat) (path : string)
    (replace force : bool) (w : world) :
  navigationLock (rt w) = true ->
  exists w',
    navigate fuel path replace force w = Some w'
    /\ rt w' = rt w
    /\ history (rt w') = history (rt w)
    /\ currentRoute (rt w') = currentRoute (rt w)
    /\ params (rt w') = params (rt w)
    /\ navigationLock (rt w') = true
    /\ hash w' = hash w
    /\ trace w' = (trace w ++ [ConsoleWarn "Navigation locked, skipping"])%list.
Proof.
  intros H. eexists. split; [apply navigate_locked; exact H|].
  simpl. rewrite H. repeat split; reflexivity.
Qed.

(** C3: from the history [/, /a, /b], [back] pops twice and calls [navigate]
    once, with [/a], on the history [/]; with one entry or none it pops
    nothing and navigates to the root. *)
Theorem back_pops_twice (fuel : nat) (w : world) :
  (history (rt w) = ["/"; "/a"; "/b"] ->
   back fuel w = navigate fuel "/a" false false (with_rt (set_history ["/"]) w)
   /\ history (rt (with_rt (set_history ["/"]) w)) = ["/"])
  /\ ((length (history (rt w)) <= 1)%nat ->
      back fuel w = navigate fuel "/" false false w).
Proof.
  split.
  - intros H. unfold back. rewrite H. simpl. split; reflexivity.
  - intros H. unfold back.
    destruct (1 <? length (history (rt w)))%nat eqn:E; [|reflexivity].
    apply Nat.ltb_lt in E. lia.
Qed.

(** [back] in general: the last two entries go, the second to last is the
    target. *)
Lemma back_two_or_more (fuel : nat) (w : world) (h : list string) (a b : string) :
  history (rt w) = h ++ [a; b] ->
  back fuel w = navigate fuel (or_root a) false false (with_rt (set_history h) w).
Proof.
  intros H. unfold back. rewrite H.
  assert (E : (1 <? length (h ++ [a; b]))%nat = true).
  { apply Nat.ltb_lt. rewrite length_app. simpl. lia. }
  rewrite E.
  replace (h ++ [a; b]) with ((h ++ [a]) ++ [b]) by (rewrite <- app_assoc; reflexivity).
  rewrite removelast_last, last_last, removelast_last. reflexivity.
Qed.

(** A router with three screens, whose history is [/, /a, /b]. *)
Definition three_screens : world :=
  let r0 := {| originalPath := "/"; pattern := tokenize "/"; component := "Home";
               props := []; middlewares := []; r_params := [] |} in
  let ra := {| originalPath := "/a"; pattern := tokenize "/a"; component := "A";
               props := []; middlewares := []; r_params := [] |} in
  let rb := {| originalPath := "/b"; pattern := tokenize "/b"; component := "B";
               props := []; middlewares := []; r_params := [] |} in
  {| rt := {| routes := {| own := [("/", r0); ("/a", ra); ("/b", rb)]; proto := None |};
              history := ["/"; "/a"; "/b"]; currentRoute := Some "/b";
              previousRoute := None; routerMiddlewares := []; params := [];
              navigationLock := false |};
     hash := "/b"; pluginSystem := false; routerHandlers := false; trace := [] |}.

Lemma back_pops_twice_witness :
  back 1 three_screens
  = navigate 1 "/a" false false (with_rt (set_history ["/"]) three_screens)
  /\ option_map (fun w => (history (rt w), currentRoute (rt w))) (back 1 three_screens)
     = Some (["/"; "/a"], Some "/a")
  /\ back 1 (with_rt (set_history ["/b"]) three_screens)
     = navigate 1 "/" false false (with_rt (set_history ["/b"]) three_screens).
Proof.
  split; [|split].
  - apply (proj1 (back_pops_twice 1 three_screens)). reflexivity.
  - reflexivity.
  - apply (proj2 (back_pops_twice 1 (with_rt (set_history ["/b"]) three_screens))).
    simpl. lia.
Defined.

Lemma navigate_dropped_while_locked_witness :
  exists w',
    navigate 0 "/a" false true (with_rt (set_lock true) three_screens) = Some w'
    /\ rt w' = rt (with_rt (set_lock true) three_screens).
Proof.
  destruct (navigate_dropped_while_locked 0 "/a" false true
              (with_rt (set_lock true) three_screens))
    as (w' & H1 & H2 & _).
  - reflexivity.
  - exists w'. split; assumption.
Defined.

(** *** Facts about the matcher *)

(** Tables built by [defineRoute]: every route sits under the path it was
    compiled from. *)
Definition table_wf (l : list (string * route)) : Prop :=
  forall k r, In (k, r) l -> compile k = Compiled (pattern r).

Fixpoint chars (s : string) : list ascii :=
  match s with
  | EmptyString => []
  | String c s' => c :: chars s'
  end.

Lemma parse_digits_chars (s : string) (acc n : N) :
  parse_digits s acc = Some n -> Forall (fun c => is_digit c = true) (chars s).
Proof.
  revert acc. induction s as [|c s IH]; intros acc H; simpl in *; [constructor|].
  unfold digit_val in H. fold (is_digit c) in H.
  destruct (is_digit c) eqn:E; [|discriminate].
  constructor; [exact E | eapply IH; exact H].
Qed.

Lemma array_index_chars (s : string) (n : N) :
  array_index s = Some n -> Forall (fun c => is_digit c = true) (chars s).
Proof.
  destruct s as [|c s]; simpl; [discriminate|].
  destruct (Ascii.eqb c "0") eqn:E0.
  - apply Ascii.eqb_eq in E0. subst c.
    destruct (String.eqb s "") eqn:Es; [|discriminate].
    apply String.eqb_eq in Es. subst s. intros _. repeat constructor.
  - unfold digit_val. fold (is_digit c).
    destruct (is_digit c) eqn:E; [|discriminate].
    destruct (parse_digits s _) as [m|] eqn:P; [|discriminate].
    intros _. constructor; [exact E | eapply parse_digits_chars; exact P].
Qed.

Lemma digit_not_colon (c : ascii) : is_digit c = true -> Ascii.eqb c ":" = false.
Proof.
  intros H. destruct (Ascii.eqb c ":") eqn:E; [|reflexivity].
  apply Ascii.eqb_eq in E. subst c. discriminate H.
Qed.

Lemma scan_digits (s : string) :
  Forall (fun c => is_digit c = true) (chars s) -> scan s None = map Lit (chars s).
Proof.
  induction s as [|c s IH]; simpl; intros H; [reflexivity|].
  inversion H as [|? ? Hc Hs]; subst.
  rewrite (digit_not_colon c Hc), IH by assumption. reflexivity.
Qed.

Lemma match_literals (s path : string) (g : groups) :
  match_tokens (map Lit (chars s)) path = Some g -> path = s.
Proof.
  revert path. induction s as [|c s IH]; intros path; simpl.
  - destruct (String.eqb path "") eqn:E; [|discriminate].
    intros _. apply String.eqb_eq in E. exact E.
  - destruct path as [|c' path]; [discriminate|].
    destruct (Ascii.eqb c c') eqn:E; [|discriminate].
    apply Ascii.eqb_eq in E. subst c'. intros H. f_equal. apply IH. exact H.
Qed.

(** A route registered under an array-index key matches that key only. *)
Lemma index_route_matches_itself (k path : string) (r : route) (n : N) (g : groups) :
  compile k = Compiled (pattern r) ->
  array_index k = Some n ->
  match_tokens (pattern r) path = Some g -> path = k.
Proof.
  intros Hc Hi Hm. unfold compile in Hc.
  destruct (has_special (tokenize k)); [discriminate|].
  destruct (existsb bad_group_name _ || has_dup _); [discriminate|].
  injection Hc as Hc. rewrite <- Hc in Hm. unfold tokenize in Hm.
  rewrite scan_digits in Hm by (eapply array_index_chars; exact Hi).
  eapply match_literals. exact Hm.
Qed.

Lemma first_match_app (l1 l2 : list (string * route)) (path : string) :
  (forall k r, In (k, r) l1 -> match_tokens (pattern r) path = None) ->
  first_match (l1 ++ l2) path = first_match l2 path.
Proof.
  induction l1 as [|[k r] l1 IH]; simpl; intros H; [reflexivity|].
  rewrite (H k r) by auto. apply IH. intros k' r' Hin. apply (H k' r'). auto.
Qed.

Lemma first_match_string_entries (l : list (string * route)) (path : string) :
  (forall k r n, In (k, r) l -> array_index k = Some n ->
                 match_tokens (pattern r) path = None) ->
  first_match (string_entries l) path = first_match l path.
Proof.
  induction l as [|[k r] l IH]; simpl; intros H; [reflexivity|].
  destruct (array_index k) as [n|] eqn:E.
  - rewrite (H k r n) by auto. apply IH.
    intros k' r' n' Hin. apply (H k' r' n'). auto.
  - simpl. destruct (match_tokens (pattern r) path); [reflexivity|].
    apply IH. intros k' r' n' Hin. apply (H k' r' n'). auto.
Qed.

(** The scan of [findMatchingRoute] follows the order of registration: the
    array-index keys that [Object.entries] moves to the front cannot match a
    path that is not a key itself. *)
Lemma first_match_registration_order (l : list (string * route)) (path : string) :
  table_wf l -> assoc path l = None ->
  first_match (entries l) path = first_match l path.
Proof.
  intros Hwf Hno.
  assert (Hidx : forall k r n, In (k, r) l -> array_index k = Some n ->
                               match_tokens (pattern r) path = None).
  { intros k r n Hin Hi.
    destruct (match_tokens (pattern r) path) as [g|] eqn:Hm; [|reflexivity].
    exfalso. assert (path = k) by (eapply index_route_matches_itself; eauto).
    subst k. eapply assoc_In_none; eauto. }
  unfold entries. rewrite first_match_app.
  - apply first_match_string_entries. exact Hidx.
  - intros k r Hin. apply in_map_iff in Hin. destruct Hin as ([n [k' r']] & Heq & Hin).
    simpl in Heq. injection Heq as -> ->.
    apply In_index_entries in Hin. destruct Hin as [Hin Hi].
    eapply Hidx; eauto.
Qed.

Lemma defineRoute_wf (path comp : string) (ps : list (string * string))
    (mws : list guard) (r r' : router) :
  table_wf (own (routes r)) ->
  defineRoute path comp ps mws r = RouteDefined r' ->
  table_wf (own (routes r')).
Proof.
  intros Hwf. unfold defineRoute.
  destruct (compile path) as [ts| |] eqn:Hc; try discriminate.
  intros H. injection H as <-.
  destruct (String.eqb path "__proto__"); simpl; [exact Hwf|].
  intros k0 r0 Hin. apply assoc_set_In in Hin. destruct Hin as [[-> ->]|Hin].
  - exact Hc.
  - apply Hwf. exact Hin.
Qed.

(** An exact match wins, with no parameters, whatever the patterns are. *)
Lemma findMatchingRoute_exact (r : router) (path : string) (x : route) :
  path <> "__proto__" ->
  assoc path (own (routes r)) = Some x ->
  findMatchingRoute r path = Matched x [].
Proof.
  intros Hp Ha. unfold findMatchingRoute, routes_get.
  destruct (String.eqb_spec path "__proto__"); [contradiction|].
  rewrite Ha. reflexivity.
Qed.

(** Otherwise, unless the path names something the table inherits, the first
    pattern that matches in registration order is returned. *)
Lemma findMatchingRoute_first_pattern (r : router) (path : string) :
  table_wf (own (routes r)) ->
  routes_get (routes r) path = Absent ->
  findMatchingRoute r path = first_match (own (routes r)) path.
Proof.
  intros Hwf Hg. unfold findMatchingRoute. rewrite Hg.
  apply first_match_registration_order; [exact Hwf|].
  unfold routes_get in Hg.
  destruct (String.eqb path "__proto__"); [destruct (proto (routes r)); discriminate|].
  destruct (assoc path (own (routes r))); [discriminate|reflexivity].
Qed.

(** The parameters of a match are the groups of the pattern, name by name. *)
Lemma capture_inv (k : string -> option groups) (s v : string) (g : groups) :
  capture k s = Some (v, g) -> exists s', k s' = Some g /\ s = (v ++ s')%string /\ v <> "".
Proof.
  revert v g. induction s as [|c s IH]; intros v g; simpl; [discriminate|].
  destruct (Ascii.eqb c "/"); [discriminate|].
  destruct (capture k s) as [[v' g']|] eqn:E.
  - intros [= <- <-]. destruct (IH v' g' eq_refl) as (s' & Hk & -> & _).
    exists s'. repeat split; [exact Hk | discriminate].
  - destruct (k s) as [g'|] eqn:Ek; [|discriminate].
    intros [= <- <-]. exists s. repeat split; [exact Ek | discriminate].
Qed.

Lemma match_tokens_names (ts : list token) (s : string) (g : groups) :
  match_tokens ts s = Some g -> map fst g = param_names ts.
Proof.
  revert s g. induction ts as [|[c|n] ts IH]; intros s g; simpl.
  - destruct (String.eqb s ""); [intros [= <-]; reflexivity | discriminate].
  - destruct s as [|c' s]; [discriminate|].
    destruct (Ascii.eqb c c'); [apply IH | discriminate].
  - destruct (capture (match_tokens ts) s) as [[v g']|] eqn:E; [|discriminate].
    intros [= <-]. simpl. f_equal.
    destruct (capture_inv _ _ _ _ E) as (s' & Hk & _). exact (IH s' g' Hk).
Qed.

Lemma populate_groups (g : groups) :
  List.NoDup (map fst g) -> ~ In "__proto__" (map fst g) ->
  populate (map fst g) g = g.
Proof.
  intros Hnd Hp. unfold populate.
  assert (H : forall g2 g1, g = g1 ++ g2 ->
            fold_left
              (fun acc n =>
                 if String.eqb n "__proto__" then acc
                 else match assoc n g with
                      | Some v => assoc_set n v acc
                      | None => acc
                      end) (map fst g2) g1 = g).
  { induction g2 as [|[n v] g2 IH]; intros g1 Hg; simpl.
    - rewrite app_nil_r in Hg. congruence.
    - assert (Hn : ~ In n (map fst g1)).
      { rewrite Hg, map_app in Hnd. simpl in Hnd.
        apply List.NoDup_remove_2 in Hnd. rewrite in_app_iff in Hnd. tauto. }
      destruct (String.eqb_spec n "__proto__") as [->|Hne].
      + exfalso. apply Hp. rewrite Hg, map_app, in_app_iff. right. left. reflexivity.
      + rewrite Hg at 1. rewrite assoc_app_fresh by exact Hn. simpl.
        rewrite String.eqb_refl, assoc_set_fresh by exact Hn.
        apply IH. rewrite Hg, <- app_assoc. reflexivity. }
  exact (H g [] eq_refl).
Qed.

Lemma has_dup_NoDup (l : list string) : has_dup l = false -> List.NoDup l.
Proof.
  induction l as [|x l IH]; simpl; intros H; [constructor|].
  apply orb_false_elim in H. destruct H as [Hm Hd]. constructor; [|exact (IH Hd)].
  intros Hin. unfold mem in Hm.
  assert (existsb (String.eqb x) l = true)
    by (apply existsb_exists; exists x; split; [exact Hin | apply String.eqb_refl]).
  congruence.
Qed.

(** On a compiled route whose parameters are not called [__proto__], the
    parameters returned are the text matched by each [:name]. *)
Lemma first_match_params (l : list (string * route)) (path : string) (r : route)
    (ps : groups) :
  table_wf l ->
  (forall k x, In (k, x) l -> r_params x = param_names (pattern x)) ->
  first_match l path = Matched r ps ->
  ~ In "__proto__" (r_params r) ->
  match_tokens (pattern r) path = Some ps /\ map fst ps = r_params r.
Proof.
  intros Hwf Hpar. induction l as [|[k x] l IH]; simpl; [discriminate|].
  destruct (match_tokens (pattern x) path) as [g|] eqn:E.
  - intros [= <- <-] Hp.
    pose proof (match_tokens_names _ _ _ E) as Hn.
    assert (Hx : r_params x = param_names (pattern x)) by (eapply Hpar; left; reflexivity).
    assert (Hnd : List.NoDup (map fst g)).
    { rewrite Hn. apply has_dup_NoDup.
      specialize (Hwf k x (or_introl eq_refl)). unfold compile in Hwf.
      destruct (has_special (tokenize k)); [discriminate|].
      destruct (existsb bad_group_name (param_names (tokenize k))) eqn:Eb;
        [discriminate|].
      destruct (has_dup (param_names (tokenize k))) eqn:Ed; [discriminate|].
      injection Hwf as <-. exact Ed. }
    rewrite Hx, <- Hn. rewrite populate_groups; [auto | exact Hnd |].
    rewrite Hn, <- Hx. exact Hp.
  - intros H Hp. apply IH; try assumption.
    + intros k' r' Hin. apply (Hwf k' r'). right. exact Hin.
    + intros k' x' Hin. apply (Hpar k' x'). right. exact Hin.
Qed.

(** [findMatchingRoute] on every path that names nothing the table inherits:
    the route registered under that very path, with no parameters, or else
    the first route, in the order of registration, whose pattern matches. *)
Lemma findMatchingRoute_other_paths (r : router) (path : string) :
  table_wf (own (routes r)) ->
  proto (routes r) = None ->
  mem path object_prototype_names = false ->
  findMatchingRoute r path
  = match assoc path (own (routes r)) with
    | Some x => Matched x []
    | None => first_match (own (routes r)) path
    end.
Proof.
  intros Hwf Hp Hm.
  destruct (assoc path (own (routes r))) as [x|] eqn:E.
  - apply findMatchingRoute_exact; [|exact E].
    intros ->. discriminate Hm.
  - apply findMatchingRoute_first_pattern; [exact Hwf|].
    unfold routes_get. rewrite E, Hp, Hm.
    destruct (String.eqb_spec path "__proto__") as [->|]; [discriminate Hm | reflexivity].
Qed.

(** *** Two small applications *)

(** [r.defineRoute(path, component)], chained as the source does. *)
Definition define (path comp : string) (r : router) : router :=
  match defineRoute path comp [] [] r with
  | RouteDefined r' => r'
  | _ => r
  end.

(** A guard in the manner of [requireAuth] of middleware.js, for a visitor
    who is not logged in: [context.redirect('/login')], then the
    cancellation. *)
Definition requireAuth : guard := [GRedirect "/login"; GCancel].

(** Home, dashboard and login screens behind [requireAuth]; the visitor is
    on the home screen. *)
Definition guarded_app : world :=
  let r := useRouterMiddleware requireAuth
             (define "/login" "Login" (define "/dashboard" "Dashboard"
                (define "/" "Home" new_router))) in
  {| rt := set_current "/" [] (set_history ["/"] r);
     hash := "/"; pluginSystem := true; routerHandlers := true; trace := [] |}.

(** A catalogue: home, one item by identifier, and a catch-all page. *)
Definition catalogue : router :=
  define ":page" "Page" (define "/item/:id" "Item" (define "/" "Home" new_router)).

Definition item_route : route :=
  {| originalPath := "/item/:id"; pattern := tokenize "/item/:id"; component := "Item";
     props := []; middlewares := []; r_params := ["id"] |}.

Definition page_route : route :=
  {| originalPath := ":page"; pattern := [Param "page"]; component := "Page";
     props := []; middlewares := []; r_params := ["page"] |}.

Lemma catalogue_wf : table_wf (own (routes catalogue)).
Proof.
  unfold catalogue, define.
  destruct (defineRoute "/" "Home" [] [] new_router) as [r1| |] eqn:E1; try discriminate.
  destruct (defineRoute "/item/:id" "Item" [] [] r1) as [r2| |] eqn:E2;
    [|vm_compute in E1; injection E1 as <-; discriminate..].
  destruct (defineRoute ":page" "Page" [] [] r2) as [r3| |] eqn:E3;
    [|vm_compute in E1; injection E1 as <-; vm_compute in E2; injection E2 as <-;
      discriminate..].
  eapply defineRoute_wf; [|exact E3].
  eapply defineRoute_wf; [|exact E2].
  eapply defineRoute_wf; [|exact E1].
  intros k r [].
Qed.

(** The route [/item/:id]: [/item/42] matches with [id = "42"], [/item]
    matches nothing, and the literal route [/] wins by exact match. *)
Lemma catalogue_matches :
  findMatchingRoute (define "/item/:id" "Item" (define "/" "Home" new_router)) "/item/42"
  = Matched item_route [("id", "42")]
  /\ findMatchingRoute (define "/item/:id" "Item" (define "/" "Home" new_router)) "/item"
     = NoMatch
  /\ match_tokens (tokenize "/item/:id") "/item" = None
  /\ (exists r, findMatchingRoute catalogue "/" = Matched r [] /\ originalPath r = "/")
  /\ findMatchingRoute catalogue "about" = Matched page_route [("page", "about")].
Proof.
  repeat split; try reflexivity. eexists. split; reflexivity.
Qed.

(** C1: the attempt [navigate('/dashboard')], stopped by a guard that calls
    [redirect('/login')] and then cancels, ends without an error report and
    without showing the dashboard; but the location it ends at is the one it
    started from, [/], and not [/login]: the redirect was a [navigate] of its
    own, refused because the attempt still held the lock. *)
Theorem redirect_to_login_is_lost (fuel : nat) :
  exists w',
    navigate (S fuel) "/dashboard" false false guarded_app = Some w'
    /\ currentRoute (rt w') = Some "/"
    /\ currentRoute (rt w') <> Some "/login"
    /\ hash w' = "/"
    /\ history (rt w') = ["/"]
    /\ navigationLock (rt w') = false
    /\ trace w' = [ConsoleWarn "Navigation locked, skipping"].
Proof.
  eexists. split.
  - apply navigate_redirect_cancel with (url := "/login") (g := []) (gs := []);
      reflexivity || discriminate.
  - simpl. repeat split; try reflexivity. discriminate.
Qed.

(** C5: a path that is the name of a property every object inherits is taken
    for a registered path.  In the catalogue, [constructor] is no registered
    path and the pattern [:page] matches it, yet [findMatchingRoute] answers
    with the inherited value and no parameters; with no route at all it still
    reports a match, and [navigate] then commits the path instead of going to
    the not-found route. *)
Theorem findMatchingRoute_inherited_name :
  assoc "constructor" (own (routes catalogue)) = None
  /\ first_match (own (routes catalogue)) "constructor"
     = Matched page_route [("page", "constructor")]
  /\ findMatchingRoute catalogue "constructor" = MatchedForeign
  /\ findMatchingRoute new_router "constructor" = MatchedForeign
  /\ first_match (own (routes new_router)) "constructor" = NoMatch
  /\ option_map (fun w => (currentRoute (rt w), history (rt w)))
       (navigate 1 "constructor" false false
          {| rt := new_router; hash := ""; pluginSystem := false;
             routerHandlers := false; trace := [] |})
     = Some (Some "constructor", ["constructor"]).
Proof. repeat split; reflexivity. Qed.

(** The same confusion on the parameters: a segment named [:__proto__] is
    matched, but its value never arrives in the parameters. *)
Lemma proto_parameter_is_dropped :
  match_tokens (tokenize "/u/:__proto__") "/u/x" = Some [("__proto__", "x")]
  /\ exists r, findMatchingRoute (define "/u/:__proto__" "User" new_router) "/u/x"
               = Matched r []
               /\ r_params r = ["__proto__"].
Proof. split; [reflexivity|]. eexists. split; reflexivity. Qed.

(** *** The route table: registration and lookup *)

(** [getRoute(path)] is [this.routes[path]]; [hasRoute(path)] is its truth
    value. *)
Definition getRoute (r : router) (path : string) : lookup := routes_get (routes r) path.

Definition hasRoute (r : router) (path : string) : bool :=
  match routes_get (routes r) path with
  | IsRoute _ => true
  | Inherited b => b
  | Absent => false
  end.

(** [getHistory()] and [clearHistory()]. *)
Definition getHistory (r : router) : list string := history r.
Definition clearHistory (r : router) : router := set_history [] r.

(** [setNavigationLock(locked)]. *)
Definition setNavigationLock (b : bool) (r : router) : router := set_lock b r.

Lemma assoc_set_same {V : Type} (k : string) (v : V) (l : list (string * V)) :
  assoc k (assoc_set k v l) = Some v.
Proof.
  induction l as [|[k' v'] l IH]; simpl.
  - rewrite String.eqb_refl. reflexivity.
  - destruct (String.eqb k k') eqn:E; simpl.
    + rewrite String.eqb_refl. reflexivity.
    + rewrite E. exact IH.
Qed.

Lemma assoc_set_other {V : Type} (k k' : string) (v : V) (l : list (string * V)) :
  k' <> k -> assoc k' (assoc_set k v l) = assoc k' l.
Proof.
  intros Hne. induction l as [|[k0 v0] l IH]; simpl.
  - destruct (String.eqb_spec k' k); [contradiction | reflexivity].
  - destruct (String.eqb_spec k k0) as [->|Hk]; simpl.
    + destruct (String.eqb_spec k' k0); [contradiction | reflexivity].
    + rewrite IH. reflexivity.
Qed.

(** The paths of this model are those [compile] accepts: no character
    outside the [:name] segments is a regular-expression metacharacter, and
    the names make valid, distinct group names.  For such a path
    [defineRoute] returns, and the route it stored is found under its own
    path, as an exact match without parameters, whatever was registered
    before (also for the path [__proto__]). *)
Theorem defineRoute_then_lookup (path comp : string) (ps : list (string * string))
    (mws : list guard) (r : router) (ts : list token) :
  compile path = Compiled ts ->
  exists r' x,
    defineRoute path comp ps mws r = RouteDefined r'
    /\ findMatchingRoute r' path = Matched x []
    /\ getRoute r' path = IsRoute x
    /\ hasRoute r' path = true
    /\ originalPath x = path /\ component x = comp
    /\ props x = ps /\ middlewares x = mws /\ pattern x = ts.
Proof.
  intros Hc. unfold defineRoute. rewrite Hc. eexists. eexists.
  split; [reflexivity|].
  unfold findMatchingRoute, getRoute, hasRoute, routes_get.
  destruct (String.eqb path "__proto__") eqn:E; simpl; rewrite ?E; simpl;
    rewrite ?assoc_set_same; repeat split.
Qed.

Lemma defineRoute_then_lookup_witness :
  exists r' x,
    defineRoute "/item/:id" "Item" [] [] new_router = RouteDefined r'
    /\ findMatchingRoute r' "/item/:id" = Matched x []
    /\ component x = "Item".
Proof.
  destruct (defineRoute_then_lookup "/item/:id" "Item" [] [] new_router
              (tokenize "/item/:id"))
    as (r' & x & H0 & H1 & _ & _ & _ & H2 & _).
  - reflexivity.
  - exists r', x. split; [exact H0|]. split; assumption.
Defined.

(** Defining a route under another path (one that [compile] accepts) leaves
    every registered path with the route it had. *)
Theorem defineRoute_keeps_registered (path path' comp : string)
    (ps : list (string * string)) (mws : list guard) (r : router) (ts : list token)
    (x : route) :
  compile path = Compiled ts ->
  path' <> path ->
  getRoute r path' = IsRoute x ->
  exists r',
    defineRoute path comp ps mws r = RouteDefined r'
    /\ getRoute r' path' = IsRoute x
    /\ findMatchingRoute r' path' = Matched x [].
Proof.
  intros Hc Hne Hx. unfold defineRoute. rewrite Hc. eexists.
  split; [reflexivity|].
  match goal with
  | |- getRoute ?r1 path' = _ /\ _ => assert (H : getRoute r1 path' = IsRoute x)
  end.
  { unfold getRoute, routes_get in *. simpl.
    destruct (String.eqb_spec path "__proto__") as [->|Hp]; simpl.
    - destruct (String.eqb_spec path' "__proto__") as [->|Hp']; [contradiction|].
      destruct (assoc path' (own (routes r))); [exact Hx|].
      destruct (proto (routes r)).
      + destruct (String.eqb path' "component"); [discriminate|].
        destruct (mem path' route_field_names); [discriminate|].
        destruct (mem path' object_prototype_names); discriminate.
      + destruct (mem path' object_prototype_names); discriminate.
    - rewrite assoc_set_other by exact Hne. exact Hx. }
  split; [exact H|]. unfold findMatchingRoute. unfold getRoute in H. rewrite H. reflexivity.
Qed.

Lemma defineRoute_keeps_registered_witness :
  exists r' x,
    defineRoute ":page" "Page" [] [] (define "/" "Home" new_router) = RouteDefined r'
    /\ findMatchingRoute r' "/" = Matched x [] /\ component x = "Home".
Proof.
  destruct (defineRoute_keeps_registered ":page" "/" "Page" [] []
              (define "/" "Home" new_router) (tokenize ":page")
              {| originalPath := "/"; pattern := tokenize "/"; component := "Home";
                 props := []; middlewares := []; r_params := [] |})
    as (r' & H0 & _ & H).
  - reflexivity.
  - discriminate.
  - reflexivity.
  - exists r'. eexists. split; [exact H0|]. split; [exact H | reflexivity].
Defined.

(** *** What a match says about the path *)

Definition no_slash (s : string) : Prop := ~ In "/"%char (chars s).

(** The path a pattern stands for once each parameter has its text. *)
Fixpoint fill (ts : list token) (g : groups) : string :=
  match ts with
  | [] => ""
  | Lit c :: ts' => String c (fill ts' g)
  | Param _ :: ts' =>
      match g with
      | (_, v) :: g' => (v ++ fill ts' g')%string
      | [] => fill ts' []
      end
  end.

Lemma chars_app (a b : string) : chars (a ++ b)%string = chars a ++ chars b.
Proof. induction a as [|c a IH]; simpl; [reflexivity | rewrite IH; reflexivity]. Qed.

Lemma capture_sound (k : string -> option groups) (s v : string) (g : groups) :
  capture k s = Some (v, g) ->
  exists s', k s' = Some g /\ s = (v ++ s')%string /\ v <> "" /\ no_slash v.
Proof.
  revert v g. induction s as [|c s IH]; intros v g; simpl; [discriminate|].
  destruct (Ascii.eqb c "/") eqn:Ec; [discriminate|].
  assert (Hc : c <> "/"%char) by (intros ->; discriminate Ec).
  destruct (capture k s) as [[v' g']|] eqn:E.
  - intros [= <- <-]. destruct (IH v' g' eq_refl) as (s' & Hk & -> & _ & Hs).
    exists s'. repeat split; [exact Hk | discriminate |].
    unfold no_slash in *. simpl. intros [H|H]; [congruence | exact (Hs H)].
  - destruct (k s) as [g'|] eqn:Ek; [|discriminate].
    intros [= <- <-]. exists s. repeat split; [exact Ek | discriminate |].
    unfold no_slash. simpl. intros [H|[]]. congruence.
Qed.

Lemma capture_finds (k : string -> option groups) (v s' : string) (g : groups) :
  v <> "" -> no_slash v -> k s' = Some g ->
  exists v' g', capture k (v ++ s')%string = Some (v', g').
Proof.
  induction v as [|c v IH]; intros Hv Hs Hk; [congruence|]. simpl.
  assert (Hc : Ascii.eqb c "/" = false).
  { destruct (Ascii.eqb c "/") eqn:E; [|reflexivity].
    apply Ascii.eqb_eq in E. subst c. exfalso. apply Hs. left. reflexivity. }
  rewrite Hc.
  destruct (capture k (v ++ s')%string) as [[v' g']|] eqn:E; [eauto|].
  destruct v as [|c' v].
  - exists (String c ""), g. change (("" ++ s')%string) with s'. rewrite Hk. reflexivity.
  - exfalso. destruct IH as (v' & g' & H); [discriminate | | exact Hk | congruence].
    unfold no_slash in *. simpl in *. tauto.
Qed.

Lemma match_tokens_sound (ts : list token) (path : string) (g : groups) :
  match_tokens ts path = Some g ->
  fill ts g = path
  /\ map fst g = param_names ts
  /\ Forall (fun kv => snd kv <> "" /\ no_slash (snd kv)) g.
Proof.
  revert path g. induction ts as [|[c|n] ts IH]; intros path g; simpl.
  - destruct (String.eqb_spec path ""); [|discriminate].
    intros [= <-]. subst. repeat split. constructor.
  - destruct path as [|c' path]; [discriminate|].
    destruct (Ascii.eqb c c') eqn:E; [|discriminate].
    apply Ascii.eqb_eq in E. subst c'. intros H.
    destruct (IH path g H) as (H1 & H2 & H3). rewrite H1. auto.
  - destruct (capture (match_tokens ts) path) as [[v g']|] eqn:E; [|discriminate].
    intros [= <-].
    destruct (capture_sound _ _ _ _ E) as (s' & Hk & -> & Hv & Hs).
    destruct (IH s' g' Hk) as (H1 & H2 & H3). simpl. rewrite H1, H2.
    repeat split. constructor; [split; assumption | exact H3].
Qed.

(** A match takes the path apart exactly.  For a route path that [compile]
    accepts (no regular-expression metacharacter of its own), whenever its
    expression matches a path, the literals and the texts of the parameters,
    put back in order, are that path; every parameter has its name, a text
    that is not empty, and no [/] in it. *)
Theorem match_tokens_takes_apart (routePath : string) (ts : list token) (path : string)
    (g : groups) :
  compile routePath = Compiled ts ->
  match_tokens ts path = Some g ->
  fill ts g = path
  /\ map fst g = param_names ts
  /\ Forall (fun kv => snd kv <> "" /\ no_slash (snd kv)) g.
Proof. intros _. apply match_tokens_sound. Qed.

Lemma match_tokens_takes_apart_witness :
  fill (tokenize "/item/:id") [("id", "42")] = "/item/42".
Proof.
  apply (match_tokens_takes_apart "/item/:id" (tokenize "/item/:id") "/item/42"
           [("id", "42")]).
  - reflexivity.
  - reflexivity.
Defined.

Lemma match_tokens_complete (ts : list token) (g : groups) :
  map fst g = param_names ts ->
  Forall (fun kv => snd kv <> "" /\ no_slash (snd kv)) g ->
  exists g', match_tokens ts (fill ts g) = Some g'.
Proof.
  revert g. induction ts as [|[c|n] ts IH]; intros g Hn Hg; simpl.
  - eauto.
  - rewrite Ascii.eqb_refl. apply IH; assumption.
  - destruct g as [|[n' v] g]; [discriminate|]. simpl in Hn. injection Hn as _ Hn.
    inversion Hg as [|? ? [Hv Hs] Hg']; subst. simpl in *.
    destruct (IH g Hn Hg') as [g' Hm].
    destruct (capture_finds (match_tokens ts) v (fill ts g) g' Hv Hs Hm) as (v' & g'' & Hc).
    rewrite Hc. eauto.
Qed.

(** Conversely, for a route path that [compile] accepts, a path made from it
    by giving each parameter a text that is not empty and has no [/] in it is
    matched by its expression. *)
Theorem filled_pattern_matches (routePath : string) (ts : list token) (g : groups) :
  compile routePath = Compiled ts ->
  map fst g = param_names ts ->
  Forall (fun kv => snd kv <> "" /\ no_slash (snd kv)) g ->
  exists g', match_tokens ts (fill ts g) = Some g'.
Proof. intros _. apply match_tokens_complete. Qed.

Lemma filled_pattern_matches_witness :
  exists g', match_tokens (tokenize "/u/:name/post/:id")
               (fill (tokenize "/u/:name/post/:id") [("name", "ann"); ("id", "7")])
             = Some g'.
Proof.
  apply (filled_pattern_matches "/u/:name/post/:id" (tokenize "/u/:name/post/:id")
           [("name", "ann"); ("id", "7")]).
  - reflexivity.
  - reflexivity.
  - repeat constructor; try discriminate; unfold no_slash; simpl; intuition discriminate.
Defined.

(** *** What an attempt leaves behind *)

Definition locked_warning : event := ConsoleWarn "Navigation locked, skipping".

Definition is_redirect (a : guard_action) : bool :=
  match a with
  | GRedirect _ => true
  | _ => false
  end.

(** A guard that neither cancels nor throws. *)
Definition lets_through (g : guard) : bool := forallb is_redirect g.

Lemma run_guard_through (fuel : nat) (g : guard) (w : world) :
  navigationLock (rt w) = true ->
  lets_through g = true ->
  exists w',
    run_guard (fun url => navigate fuel url false true) g w = Finished w'
    /\ rt w' = rt w /\ hash w' = hash w
    /\ pluginSystem w' = pluginSystem w /\ routerHandlers w' = routerHandlers w.
Proof.
  revert w. induction g as [|a g IH]; intros w Hl Hg; simpl.
  - exists w. auto.
  - destruct a as [url| |m]; simpl in Hg; try discriminate.
    rewrite navigate_locked by assumption.
    destruct (IH (emit (ConsoleWarn "Navigation locked, skipping") w) Hl Hg)
      as (w' & Hr & H1 & H2 & H3 & H4).
    exists w'. simpl in *. repeat split; assumption.
Qed.

Lemma run_guards_through (fuel : nat) (gs : list guard) (w : world) :
  navigationLock (rt w) = true ->
  forallb lets_through gs = true ->
  exists w',
    run_guards (fun url => navigate fuel url false true) gs w = Finished w'
    /\ rt w' = rt w /\ hash w' = hash w
    /\ pluginSystem w' = pluginSystem w /\ routerHandlers w' = routerHandlers w.
Proof.
  revert w. induction gs as [|g gs IH]; intros w Hl Hg; simpl.
  - exists w. auto.
  - simpl in Hg. apply andb_prop in Hg. destruct Hg as [Hg Hgs].
    destruct (run_guard_through fuel g w Hl Hg) as (w1 & -> & H1 & H2 & H3 & H4).
    assert (Hl1 : navigationLock (rt w1) = true) by (rewrite H1; exact Hl).
    destruct (IH w1 Hl1 Hgs) as (w2 & Hr2 & K1 & K2 & K3 & K4).
    exists w2. split; [exact Hr2 | repeat split; congruence].
Qed.

Lemma commit_fields (path : string) (replace : bool) (ps : groups) (w : world) :
  currentRoute (rt (commit path replace ps w)) = Some path
  /\ params (rt (commit path replace ps w)) = ps
  /\ history (rt (commit path replace ps w)) = commit_history replace path (history (rt w))
  /\ hash (commit path replace ps w) = path
  /\ routes (rt (commit path replace ps w)) = routes (rt w)
  /\ routerMiddlewares (rt (commit path replace ps w)) = routerMiddlewares (rt w)
  /\ previousRoute (rt (commit path replace ps w)) = previousRoute (rt w)
  /\ navigationLock (rt (commit path replace ps w)) = navigationLock (rt w).
Proof.
  unfold commit. destruct w as [r h p rh t]. simpl.
  destruct rh, p; simpl; repeat split.
Qed.

Lemma navigate_commit (fuel : nat) (path : string) (replace force : bool) (w : world)
    (x : route) (ps : groups) :
  navigationLock (rt w) = false ->
  same_route (currentRoute (rt w)) path && negb force = false ->
  findMatchingRoute (rt w) path = Matched x ps ->
  forallb lets_through (routerMiddlewares (rt w)) = true ->
  exists w',
    navigate (S fuel) path replace force w = Some w'
    /\ currentRoute (rt w') = Some path
    /\ params (rt w') = ps
    /\ history (rt w') = commit_history replace path (history (rt w))
    /\ hash w' = path
    /\ navigationLock (rt w') = false.
Proof.
  intros Hl Hs Hm Hg. cbn [navigate]. rewrite Hl, Hs.
  set (w1 := with_rt (set_lock true) w).
  assert (Hf : findMatchingRoute (rt w1) path = Matched x ps)
    by (destruct w as [[]]; exact Hm).
  assert (Hg1 : forallb lets_through (routerMiddlewares (rt w1)) = true)
    by (destruct w as [[]]; exact Hg).
  unfold attempt. rewrite Hf.
  destruct (run_guards_through fuel (routerMiddlewares (rt w1)) w1 eq_refl Hg1)
    as (w2 & -> & H1 & H2 & H3 & H4).
  cbn [settle]. eexists. split; [reflexivity|].
  destruct (commit_fields path replace ps w2) as (C1 & C2 & C3 & C4 & _).
  destruct (commit path replace ps w2) as [r' h' p' rh' t']. simpl in *.
  destruct r'; simpl in *. rewrite C3, H1. unfold w1.
  destruct w as [[]]; simpl. auto.
Qed.

(** A navigation that is let through sets the current route and its
    parameters, writes the location, releases the lock, and adds the path to
    the history: at the end when [replace] is not set or the history is
    empty, in the place of the last entry otherwise. *)
Theorem navigate_commits (fuel : nat) (path : string) (replace force : bool) (w : world)
    (x : route) (ps : groups) :
  navigationLock (rt w) = false ->
  same_route (currentRoute (rt w)) path && negb force = false ->
  findMatchingRoute (rt w) path = Matched x ps ->
  forallb lets_through (routerMiddlewares (rt w)) = true ->
  exists w',
    navigate (S fuel) path replace force w = Some w'
    /\ currentRoute (rt w') = Some path
    /\ params (rt w') = ps
    /\ hash w' = path
    /\ navigationLock (rt w') = false
    /\ (replace = false -> history (rt w') = history (rt w) ++ [path])
    /\ (history (rt w) = [] -> history (rt w') = [path])
    /\ (forall h a, replace = true -> history (rt w) = h ++ [a] ->
          history (rt w') = h ++ [path]).
Proof.
  intros Hl Hs Hm Hg.
  destruct (navigate_commit fuel path replace force w x ps Hl Hs Hm Hg)
    as (w' & Hn & H1 & H2 & H3 & H4 & H5).
  exists w'. repeat split; try assumption.
  - intros ->. rewrite H3. reflexivity.
  - intros He. rewrite H3, He. unfold commit_history. simpl.
    rewrite andb_false_r. reflexivity.
  - intros h a -> He. rewrite H3, He. unfold commit_history.
    assert (E : (0 <? length (h ++ [a]))%nat = true)
      by (apply Nat.ltb_lt; rewrite length_app; simpl; lia).
    rewrite E. simpl. rewrite removelast_last. reflexivity.
Qed.

Lemma navigate_commits_witness :
  exists w',
    navigate 1 "/a" true false three_screens = Some w'
    /\ currentRoute (rt w') = Some "/a"
    /\ history (rt w') = ["/"; "/a"; "/a"].
Proof.
  destruct (navigate_commits 0 "/a" true false three_screens
              {| originalPath := "/a"; pattern := tokenize "/a"; component := "A";
                 props := []; middlewares := []; r_params := [] |} [])
    as (w' & H1 & H2 & _ & _ & _ & _ & _ & H3); try reflexivity.
  exists w'. split; [exact H1|]. split; [exact H2|].
  apply (H3 ["/"; "/a"] "/b"); reflexivity.
Defined.

Lemma handle_rt (message path : string) (w : world) :
  rt (handle message path w) = rt w.
Proof.
  unfold handle. destruct (String.eqb message cancelled); [reflexivity|].
  simpl. destruct (pluginSystem w); reflexivity.
Qed.

(** Whatever an attempt does, it gives the lock back as it found it and
    leaves the route table, the guards and the previous route alone. *)
Theorem navigate_keeps_lock_and_table (fuel : nat) (path : string)
    (replace force : bool) (w w' : world) :
  navigate fuel path replace force w = Some w' ->
  navigationLock (rt w') = navigationLock (rt w)
  /\ routes (rt w') = routes (rt w)
  /\ routerMiddlewares (rt w') = routerMiddlewares (rt w)
  /\ previousRoute (rt w') = previousRoute (rt w).
Proof.
  destruct fuel as [|fuel]; cbn [navigate];
    destruct (navigationLock (rt w)) eqn:Hl;
    try (intros [= <-]; simpl; rewrite ?Hl; auto; fail);
    destruct (same_route (currentRoute (rt w)) path && negb force);
    try (intros [= <-]; rewrite ?Hl; auto; fail); try discriminate.
  set (w1 := with_rt (set_lock true) w).
  assert (Hw1 : routes (rt w1) = routes (rt w)
                /\ routerMiddlewares (rt w1) = routerMiddlewares (rt w)
                /\ previousRoute (rt w1) = previousRoute (rt w))
    by (destruct w as [[]]; simpl; auto).
  destruct Hw1 as (A1 & A2 & A3).
  assert (Hdone : forall w2, rt w2 = rt w1 ->
            forall ps o, settle path (Finished (commit path replace ps w2)) = Some o ->
            navigationLock (rt o) = false /\ routes (rt o) = routes (rt w)
            /\ routerMiddlewares (rt o) = routerMiddlewares (rt w)
            /\ previousRoute (rt o) = previousRoute (rt w)).
  { intros w2 H2 ps o [= <-].
    destruct (commit_fields path replace ps w2) as (_ & _ & _ & _ & C5 & C6 & C7 & _).
    cbn [rt with_rt set_lock navigationLock routes routerMiddlewares previousRoute].
    rewrite C5, C6, C7, H2. auto. }
  assert (Hthrown : forall w2 m, rt w2 = rt w1 ->
            forall o, settle path (Thrown m w2) = Some o ->
            navigationLock (rt o) = false /\ routes (rt o) = routes (rt w)
            /\ routerMiddlewares (rt o) = routerMiddlewares (rt w)
            /\ previousRoute (rt o) = previousRoute (rt w)).
  { intros w2 m H2 o [= <-].
    cbn [rt with_rt set_lock navigationLock routes routerMiddlewares previousRoute].
    rewrite handle_rt, H2. auto. }
  unfold attempt.
  destruct (findMatchingRoute (rt w1) path) as [x ps| |].
  - destruct (run_guards_locked fuel (routerMiddlewares (rt w1)) w1 eq_refl)
      as (w2 & [Hr | [m Hr]] & H2 & _); rewrite Hr; eauto.
  - destruct (run_guards_locked fuel (routerMiddlewares (rt w1)) w1 eq_refl)
      as (w2 & [Hr | [m Hr]] & H2 & _); rewrite Hr; eauto.
  - rewrite navigate_locked by reflexivity. intros [= <-].
    destruct w as [[] h' p' rh' t']; simpl in *. auto.
Qed.

Lemma navigate_keeps_lock_and_table_witness :
  exists w',
    navigate 1 "/dashboard" false false guarded_app = Some w'
    /\ navigationLock (rt w') = false
    /\ routes (rt w') = routes (rt guarded_app).
Proof.
  eexists. split; [reflexivity|].
  destruct (navigate_keeps_lock_and_table 1 "/dashboard" false false guarded_app _ eq_refl)
    as (H1 & H2 & _).
  split; [exact H1 | exact H2].
Defined.

(** A path that no route matches: the attempt turns to [/404], is refused by
    its own lock, and nothing is changed but the console. *)
Theorem navigate_unmatched_is_dropped (fuel : nat) (path : string)
    (replace force : bool) (w : world) :
  navigationLock (rt w) = false ->
  same_route (currentRoute (rt w)) path && negb force = false ->
  findMatchingRoute (rt w) path = NoMatch ->
  navigate (S fuel) path replace force w = Some (emit locked_warning w).
Proof.
  intros Hl Hs Hm. cbn [navigate]. rewrite Hl, Hs.
  set (w1 := with_rt (set_lock true) w).
  assert (Hf : findMatchingRoute (rt w1) path = NoMatch)
    by (destruct w as [[]]; exact Hm).
  unfold attempt. rewrite Hf, navigate_locked by reflexivity. cbn [settle].
  unfold w1, locked_warning. destruct w as [r0 h p rh t]; unfold with_rt, emit; simpl in *.
  rewrite set_lock_round by assumption. reflexivity.
Qed.

Lemma navigate_unmatched_is_dropped_witness :
  navigate 1 "/nowhere" false false three_screens
  = Some (emit locked_warning three_screens).
Proof.
  apply (navigate_unmatched_is_dropped 0 "/nowhere" false false three_screens);
    reflexivity.
Defined.

(** A guard that throws anything but the cancellation: the error goes to the
    console and to the [router:navigation-error] hook, the history, the
    current route and the location stay, and the lock is released.  The
    guards after it are not run. *)
Theorem navigate_guard_failure (fuel : nat) (path message : string)
    (replace force : bool) (w : world) (g : guard) (gs : list guard) :
  navigationLock (rt w) = false ->
  same_route (currentRoute (rt w)) path && negb force = false ->
  findMatchingRoute (rt w) path <> NoMatch ->
  routerMiddlewares (rt w) = (GThrow message :: g) :: gs ->
  message <> cancelled ->
  navigate (S fuel) path replace force w
  = Some (if pluginSystem w
          then emit (HookError message path (currentRoute (rt w)))
                 (emit (ConsoleError message) w)
          else emit (ConsoleError message) w).
Proof.
  intros Hl Hs Hm Hg Hc. cbn [navigate]. rewrite Hl, Hs.
  set (w1 := with_rt (set_lock true) w).
  assert (Hf : findMatchingRoute (rt w1) path = findMatchingRoute (rt w) path)
    by (destruct w as [[]]; reflexivity).
  assert (Hg' : routerMiddlewares (rt w1) = (GThrow message :: g) :: gs)
    by (destruct w as [[]]; exact Hg).
  unfold attempt. rewrite Hf, Hg'.
  assert (Hend : settle path (Thrown message w1)
                 = Some (if pluginSystem w
                         then emit (HookError message path (currentRoute (rt w)))
                                (emit (ConsoleError message) w)
                         else emit (ConsoleError message) w)).
  { unfold settle, handle, w1.
    destruct (String.eqb_spec message cancelled); [contradiction|].
    destruct w as [r0 h p rh t]; unfold with_rt, emit; simpl in *.
    destruct p; simpl; rewrite set_lock_round by assumption;
      destruct r0; reflexivity. }
  destruct (findMatchingRoute (rt w) path) as [r ps| |]; try congruence; exact Hend.
Qed.

Lemma navigate_guard_failure_witness :
  option_map (fun w => (currentRoute (rt w), history (rt w), trace w))
    (navigate 1 "/a" false false
       (with_rt (useRouterMiddleware [GThrow "no session"]) three_screens))
  = Some (Some "/b", ["/"; "/a"; "/b"], [ConsoleError "no session"]).
Proof.
  rewrite (navigate_guard_failure 0 "/a" "no session" false false
             (with_rt (useRouterMiddleware [GThrow "no session"]) three_screens) [] []);
    try reflexivity; discriminate.
Defined.



(** [back()] pops before it navigates: under the lock the two entries are
    gone and nothing is shown. *)
Theorem back_while_locked_forgets (fuel : nat) (w : world) (h : list string) (a b : string) :
  history (rt w) = h ++ [a; b] ->
  navigationLock (rt w) = true ->
  back fuel w = Some (emit locked_warning (with_rt (set_history h) w)).
Proof.
  intros Hh Hl. rewrite (back_two_or_more fuel w h a b Hh).
  apply navigate_locked. destruct w as [[]]; exact Hl.
Qed.

Lemma back_while_locked_forgets_witness :
  option_map (fun w => (history (rt w), currentRoute (rt w), hash w))
    (back 0 (with_rt (setNavigationLock true) three_screens))
  = Some (["/"], Some "/b", "/b").
Proof.
  rewrite (back_while_locked_forgets 0 (with_rt (setNavigationLock true) three_screens)
             ["/"] "/a" "/b"); reflexivity.
Defined.

(** *** The text of the fallback error page

    [esc] of [_handleRoute]: [String(s).replace(re, c => map[c])], where [re]
    is the global class of the ampersand, the angle brackets, both quotes,
    the backtick, the equals sign and the slash, and [map] gives each its
    entity. *)
Definition quot : ascii := "034"%char.
Definition apos : ascii := "039"%char.
Definition backtick : ascii := "096"%char.

Definition escaped : list ascii :=
  ["&"%char; "<"%char; ">"%char; quot; apos; "/"%char; backtick; "="%char].

Definition entity (c : ascii) : string :=
  if Ascii.eqb c "&" then "&amp;"
  else if Ascii.eqb c "<" then "&lt;"
  else if Ascii.eqb c ">" then "&gt;"
  else if Ascii.eqb c quot then "&quot;"
  else if Ascii.eqb c apos then "&#39;"
  else if Ascii.eqb c "/" then "&#x2F;"
  else if Ascii.eqb c backtick then "&#x60;"
  else if Ascii.eqb c "=" then "&#x3D;"
  else String c "".

Fixpoint esc (s : string) : string :=
  match s with
  | EmptyString => ""
  | String c s' => (entity c ++ esc s')%string
  end.

(** The characters that open or close markup, an attribute or a tag name. *)
Definition markup : list ascii :=
  ["<"%char; ">"%char; quot; apos; "/"%char; backtick; "="%char].

Lemma entity_cases (c : ascii) :
  (In c escaped /\ In (entity c) ["&amp;"; "&lt;"; "&gt;"; "&quot;"; "&#39;"; "&#x2F;";
                                  "&#x60;"; "&#x3D;"])
  \/ (~ In c escaped /\ entity c = String c "").
Proof.
  unfold entity, escaped.
  repeat match goal with
         | |- context [Ascii.eqb c ?k] =>
             destruct (Ascii.eqb_spec c k);
             [subst; left; split; simpl; tauto|]
         end.
  right. split; [|reflexivity]. simpl. intuition congruence.
Qed.

Lemma entity_clean (c d : ascii) : In d (chars (entity c)) -> ~ In d markup.
Proof.
  destruct (entity_cases c) as [[_ H] | [Hc ->]].
  - simpl in H.
    repeat (destruct H as [<- | H];
            [simpl; unfold markup, quot, apos, backtick; intros Hd;
             intuition (subst; simpl in *; intuition congruence)|]).
    contradiction.
  - simpl. intros [<- | []] Hm. apply Hc. unfold escaped, markup in *.
    simpl in *. tauto.
Qed.

(** No character that could open a tag, close one, or leave an attribute
    survives [esc], whatever the message is. *)
Theorem esc_leaves_no_markup (s : string) :
  List.Forall (fun d => ~ In d markup) (chars (esc s)).
Proof.
  induction s as [|c s IH]; simpl; [constructor|].
  rewrite chars_app. apply List.Forall_app. split; [|exact IH].
  apply List.Forall_forall. intros d. exact (entity_clean c d).
Qed.

(** A message without any of the eight characters is shown as it is. *)
Theorem esc_keeps_plain_text (s : string) :
  (forall c, In c (chars s) -> ~ In c escaped) -> esc s = s.
Proof.
  induction s as [|c s IH]; simpl; intros H; [reflexivity|].
  destruct (entity_cases c) as [[Hc _] | [_ ->]].
  - exfalso. exact (H c (or_introl eq_refl) Hc).
  - simpl. rewrite IH; [reflexivity|]. intros c' Hc'. apply H. right. exact Hc'.
Qed.

Lemma esc_keeps_plain_text_witness : esc "Unexpected error" = "Unexpected error".
Proof.
  apply (esc_keeps_plain_text "Unexpected error").
  intros c H. simpl in H. unfold escaped, quot, apos, backtick.
  repeat (destruct H as [<- | H]; [simpl; intuition discriminate|]).
  contradiction.
Defined.

Lemma entity_apart (c1 c2 : ascii) (r1 r2 : string) :
  (entity c1 ++ r1)%string = (entity c2 ++ r2)%string -> c1 = c2 /\ r1 = r2.
Proof.
  unfold entity.
  repeat match goal with
         | |- context [Ascii.eqb c1 ?k] => destruct (Ascii.eqb_spec c1 k)
         end;
  repeat match goal with
         | |- context [Ascii.eqb c2 ?k] => destruct (Ascii.eqb_spec c2 k)
         end;
  subst; cbv [String.append]; intros H; try discriminate H;
  try (injection H as H; subst; split; congruence);
  try (injection H as H1 H2; subst; congruence).
Qed.

(** Nothing is lost: two messages with the same escaped text are the same. *)
Theorem esc_is_injective (s1 s2 : string) : esc s1 = esc s2 -> s1 = s2.
Proof.
  revert s2. induction s1 as [|c1 s1 IH]; intros [|c2 s2]; simpl; intros H.
  - reflexivity.
  - exfalso. destruct (entity_cases c2) as [[_ Hc] | [_ Hc]].
    + simpl in Hc. repeat (destruct Hc as [Hc | Hc]; [rewrite <- Hc in H; discriminate|]).
      contradiction.
    + rewrite Hc in H. discriminate.
  - exfalso. destruct (entity_cases c1) as [[_ Hc] | [_ Hc]].
    + simpl in Hc. repeat (destruct Hc as [Hc | Hc]; [rewrite <- Hc in H; discriminate|]).
      contradiction.
    + rewrite Hc in H. discriminate.
  - destruct (entity_apart c1 c2 _ _ H) as [-> Hr]. f_equal. exact (IH s2 Hr).
Qed.

Lemma esc_is_injective_witness : "a<b" = "a<b".
Proof. apply (esc_is_injective "a<b" "a<b"). reflexivity. Defined.

End Router.

(** ** The plugin system (plugins.js, class [VaniPluginSystem]) *)
Module Plugins.

(** *** Hooks *)

Inductive outcome :=
| Returns
| Throws (message : string).

(** A hook function: an identity, the [priority] property it may carry (a
    number, taken here as an integer), and what a call does with its
    arguments.  What the body does to the rest of the program is not
    modelled; in particular it registers nothing. *)
Record hook_fn := {
  fn_id : nat;
  fn_priority : option Z;
  fn_run : list string -> outcome
}.

Record hook_entry := {
  plugin : string;
  function : hook_fn;
  priority : Z
}.

(** [hookFunction.priority || 50]: a missing priority and the priority [0]
    both give [50]. *)
Definition stored_priority (f : hook_fn) : Z :=
  match fn_priority f with
  | Some z => if (z =? 0)%Z then 50%Z else z
  | None => 50%Z
  end.

(** [sort((a, b) => a.priority - b.priority)]: ascending and stable. *)
Fixpoint insert_hook (x : hook_entry) (l : list hook_entry) : list hook_entry :=
  match l with
  | [] => [x]
  | y :: l' =>
      if (priority x <=? priority y)%Z then x :: y :: l' else y :: insert_hook x l'
  end.

Definition sort_hooks (l : list hook_entry) : list hook_entry :=
  fold_right insert_hook [] l.

(** *** Plugins *)

(** What a plugin's [init] does, as far as the plugin system is concerned:
    it subscribes to hooks or it fails. *)
Inductive init_step :=
| InitRegisterHooks (owner : string) (hs : list (string * hook_fn))
| InitThrow (message : string).

Record plugin_instance := {
  p_init : option (list init_step);
  p_hooks : option (list (string * hook_fn));
  p_commands : option (list (string * nat));
  p_cleanup : option outcome
}.

Record plugin_options := {
  o_dependencies : option (list string);
  o_autoInit : option bool;
  o_version : option string
}.

Record plugin_info := {
  instance : plugin_instance;
  options : plugin_options;
  enabled : bool;
  version : string
}.

Inductive status := Registered | Initialized | Failed.

(** The entries of [pluginStates], without their time stamps. *)
Record plugin_state := {
  st_status : status;
  st_error : option string
}.

(** [plugins] is a [Map] whose order of insertion is observed by
    [determineLoadOrder]; the other tables are only read by key. *)
Record system := {
  plugins : list (string * plugin_info);
  hooks : gmap string (list hook_entry);
  pluginStates : gmap string plugin_state;
  dependencies : gmap string (list string);
  pluginLoadOrder : list string;
  initialized : bool;
  commands : option (gmap string nat)        (* vani.commands *)
}.

Definition new_system : system :=
  {| plugins := []; hooks := ∅; pluginStates := ∅; dependencies := ∅;
     pluginLoadOrder := []; initialized := false; commands := None |}.

(** [Map.prototype.set]: a key that is present keeps its place. *)
Definition map_set {V : Type} (k : string) (v : V) (l : list (string * V))
  : list (string * V) := Js.assoc_set k v l.

Definition map_delete {V : Type} (k : string) (l : list (string * V))
  : list (string * V) :=
  List.filter (fun kv => negb (String.eqb k (fst kv))) l.

Definition has_plugin (s : system) (name : string) : bool :=
  match Js.assoc name (plugins s) with Some _ => true | None => false end.

Definition isPluginEnabled (s : system) (name : string) : bool :=
  match Js.assoc name (plugins s) with
  | Some info => enabled info
  | None => false
  end.

(** *** Emissions

    One call of [executeHook]: nothing to run, or one result per subscriber
    that was run, a failed one together with the [hook:error] emission it
    set off. *)
Inductive emission :=
| NoSubscribers
| Ran (results : list result)
| TooDeep
with result :=
| Result (owner : string) (fn : nat) (o : outcome) (secondary : option emission).

(** The body of the loop for one subscriber: the call, and in the [catch]
    block the [hook:error] emission. *)
Definition call (emit_error : list string -> emission) (hookName : string)
    (args : list string) (h : hook_entry) : result :=
  match fn_run (function h) args with
  | Returns => Result (plugin h) (fn_id (function h)) Returns None
  | Throws m =>
      Result (plugin h) (fn_id (function h)) (Throws m)
        (Some (emit_error [hookName; plugin h; m]))
  end.

Definition run_hook (emit_error : list string -> emission) (s : system)
    (hookName : string) (args : list string) (h : hook_entry) : option result :=
  if isPluginEnabled s (plugin h) then Some (call emit_error hookName args h) else None.

(** [executeHook(hookName, ...args)].  [fuel] is the depth to which the
    [hook:error] emissions of failing subscribers are followed. *)
Fixpoint executeHook (fuel : nat) (s : system) (hookName : string) (args : list string)
  : emission :=
  match fuel with
  | O => TooDeep
  | S fuel' =>
      match hooks s !! hookName with
      | None => NoSubscribers
      | Some hs =>
          Ran (omap (run_hook (executeHook fuel' s "hook:error") s hookName args) hs)
      end
  end.

Inductive event :=
| WarnAlreadyRegistered (name : string)
| ErrorMissingDependencies (name : string) (missing : list string)
| LogRegistered (name : string)
| LogInitialized (name : string)
| ErrorInitFailed (name : string) (message : string)
| WarnAlreadyInitialized
| LogAllInitialized
| ErrorCleanupFailed (name : string) (message : string)
| LogUnregistered (name : string)
| Emitted (hookName : string) (args : list string) (e : emission).

Definition set_hooks (h : gmap string (list hook_entry)) (s : system) : system :=
  {| plugins := plugins s; hooks := h; pluginStates := pluginStates s;
     dependencies := dependencies s; pluginLoadOrder := pluginLoadOrder s;
     initialized := initialized s; commands := commands s |}.

Definition set_states (st : gmap string plugin_state) (s : system) : system :=
  {| plugins := plugins s; hooks := hooks s; pluginStates := st;
     dependencies := dependencies s; pluginLoadOrder := pluginLoadOrder s;
     initialized := initialized s; commands := commands s |}.

Definition set_commands (c : option (gmap string nat)) (s : system) : system :=
  {| plugins := plugins s; hooks := hooks s; pluginStates := pluginStates s;
     dependencies := dependencies s; pluginLoadOrder := pluginLoadOrder s;
     initialized := initialized s; commands := c |}.

(** One entry of [registerHooks]: create the list if need be, [push], [sort]. *)
Definition registerHook (pluginName : string) (h : gmap string (list hook_entry))
    (hk : string * hook_fn) : gmap string (list hook_entry) :=
  let l := default [] (h !! fst hk) in
  <[fst hk := sort_hooks (l ++ [{| plugin := pluginName; function := snd hk;
                                   priority := stored_priority (snd hk) |}])]> h.

Definition registerHooks (pluginName : string) (hs : list (string * hook_fn))
    (s : system) : system :=
  set_hooks (fold_left (registerHook pluginName) hs (hooks s)) s.

Fixpoint registerCommands (fuel : nat) (pluginName : string) (cs : list (string * nat))
    (s : system) : system * list event :=
  match cs with
  | [] => (set_commands (Some (default ∅ (commands s))) s, [])
  | (commandName, f) :: cs' =>
      let full := (pluginName ++ ":" ++ commandName)%string in
      let s1 := set_commands (Some (<[full := f]> (default ∅ (commands s)))) s in
      let e := Emitted "command:registered" [pluginName; commandName; full]
                 (executeHook fuel s1 "command:registered" [pluginName; commandName; full]) in
      let '(s2, ev) := registerCommands fuel pluginName cs' s1 in
      (s2, e :: ev)
  end.

(** The body of a plugin's [init]: the system it leaves, or the message of
    the error it throws together with the system at that point. *)
Fixpoint run_init (steps : list init_step) (s : system) : system + (string * system) :=
  match steps with
  | [] => inl s
  | InitRegisterHooks owner hs :: steps' => run_init steps' (registerHooks owner hs s)
  | InitThrow m :: _ => inr (m, s)
  end.

Definition set_status (name : string) (st : status) (err : option string) (s : system)
  : system :=
  let old := pluginStates s !! name in
  set_states
    (<[name := {| st_status := st;
                  st_error := match err with
                              | Some m => Some m
                              | None => old ≫= st_error
                              end |}]> (pluginStates s)) s.

(** [initializePlugin(name)]. *)
Definition initializePlugin (fuel : nat) (name : string) (s : system)
  : bool * system * list event :=
  match Js.assoc name (plugins s) with
  | None => (false, s, [])
  | Some info =>
      if negb (enabled info) then (false, s, [])
      else
        match run_init (default [] (p_init (instance info))) s with
        | inl s1 =>
            let s2 := match p_hooks (instance info) with
                      | Some hs => registerHooks name hs s1
                      | None => s1
                      end in
            let '(s3, ev) := match p_commands (instance info) with
                             | Some cs => registerCommands fuel name cs s2
                             | None => (s2, [])
                             end in
            let s4 := set_status name Initialized None s3 in
            (true, s4,
             ev ++ [LogInitialized name;
                    Emitted "plugin:initialized" [name]
                      (executeHook fuel s4 "plugin:initialized" [name])])
        | inr (m, s1) =>
            let s2 := set_status name Failed (Some m) s1 in
            (false, s2,
             [ErrorInitFailed name m;
              Emitted "plugin:init-failed" [name; m]
                (executeHook fuel s2 "plugin:init-failed" [name; m])])
        end
  end.

Definition or_default_version (v : option string) : string :=
  match v with
  | Some x => if String.eqb x "" then "1.0.0" else x
  | None => "1.0.0"
  end.

(** [register(name, plugin, options)].  Nothing in the [try] block of the
    source can throw, so its [catch] block has no counterpart here. *)
Definition register (fuel : nat) (name : string) (p : plugin_instance)
    (opts : plugin_options) (s : system) : bool * system * list event :=
  if has_plugin s name then (false, s, [WarnAlreadyRegistered name])
  else
    let missing := match o_dependencies opts with
                   | Some deps => List.filter (fun d => negb (has_plugin s d)) deps
                   | None => []
                   end in
    if (0 <? length missing)%nat then (false, s, [ErrorMissingDependencies name missing])
    else
      let s1 := {| plugins :=
                     map_set name {| instance := p; options := opts; enabled := true;
                                     version := or_default_version (o_version opts) |}
                       (plugins s);
                   hooks := hooks s;
                   pluginStates :=
                     <[name := {| st_status := Registered; st_error := None |}]>
                       (pluginStates s);
                   dependencies :=
                     match o_dependencies opts with
                     | Some deps => <[name := deps]> (dependencies s)
                     | None => dependencies s
                     end;
                   pluginLoadOrder := pluginLoadOrder s;
                   initialized := initialized s;
                   commands := commands s |} in
      if initialized s1 && negb (bool_decide (o_autoInit opts = Some false)) then
        let '(_, s2, ev) := initializePlugin fuel name s1 in
        (true, s2, LogRegistered name :: ev)
      else (true, s1, [LogRegistered name]).

(** [unregister(name)]. *)
Definition unregister (fuel : nat) (name : string) (s : system)
  : bool * system * list event :=
  match Js.assoc name (plugins s) with
  | None => (false, s, [])
  | Some info =>
      let ev0 := match p_cleanup (instance info) with
                 | Some (Throws m) => [ErrorCleanupFailed name m]
                 | _ => []
                 end in
      let s1 := {| plugins := map_delete name (plugins s);
                   hooks :=
                     List.filter (fun h => negb (String.eqb (plugin h) name)) <$> hooks s;
                   pluginStates := delete name (pluginStates s);
                   dependencies := delete name (dependencies s);
                   pluginLoadOrder := pluginLoadOrder s;
                   initialized := initialized s;
                   commands :=
                     filter (fun kv : string * nat =>
                               String.prefix (name ++ ":") (fst kv) = false)
                       <$> commands s |} in
      (true, s1,
       ev0 ++ [LogUnregistered name;
               Emitted "plugin:unregistered" [name]
                 (executeHook fuel s1 "plugin:unregistered" [name])])
  end.

Fixpoint set_enabled (name : string) (b : bool) (l : list (string * plugin_info))
  : list (string * plugin_info) :=
  match l with
  | [] => []
  | (k, info) :: l' =>
      if String.eqb name k
      then (k, {| instance := instance info; options := options info; enabled := b;
                  version := version info |}) :: l'
      else (k, info) :: set_enabled name b l'
  end.

(** [setPluginEnabled(name, enabled)]. *)
Definition setPluginEnabled (fuel : nat) (name : string) (b : bool) (s : system)
  : bool * system * list event :=
  match Js.assoc name (plugins s) with
  | None => (false, s, [])
  | Some _ =>
      let s1 := {| plugins := set_enabled name b (plugins s); hooks := hooks s;
                   pluginStates := pluginStates s; dependencies := dependencies s;
                   pluginLoadOrder := pluginLoadOrder s; initialized := initialized s;
                   commands := commands s |} in
      (true, s1,
       [Emitted "plugin:status-changed" [name]
          (executeHook fuel s1 "plugin:status-changed" [name])])
  end.

(** *** Load order *)

(** The three variables of [determineLoadOrder]. *)
Record dfs := {
  visited : gset string;
  temp : gset string;
  order : list string
}.

Inductive visit_result :=
| Visited (d : dfs)
| Circular (name : string)       (* the error thrown by [visit] *)
| OutOfFuel.

(** [for (const dep of deps) visit(dep)]. *)
Fixpoint visit_each (v : string -> dfs -> visit_result) (ds : list string) (d : dfs)
  : visit_result :=
  match ds with
  | [] => Visited d
  | x :: ds' =>
      match v x d with
      | Visited d' => visit_each v ds' d'
      | r => r
      end
  end.

(** The closure [visit]; [fuel] bounds the depth of the recursion. *)
Fixpoint visit (deps : gmap string (list string)) (fuel : nat) (name : string) (d : dfs)
  : visit_result :=
  match fuel with
  | O => OutOfFuel
  | S fuel' =>
      if bool_decide (name ∈ temp d) then Circular name
      else if bool_decide (name ∈ visited d) then Visited d
      else
        let d1 := {| visited := visited d; temp := {[name]} ∪ temp d; order := order d |} in
        match visit_each (visit deps fuel') (default [] (deps !! name)) d1 with
        | Visited d2 =>
            Visited {| visited := {[name]} ∪ visited d2;
                       temp := temp d2 ∖ {[name]};
                       order := order d2 ++ [name] |}
        | r => r
        end
  end.

(** The loop over [this.plugins.keys()]. *)
Definition visit_root (deps : gmap string (list string)) (fuel : nat) (name : string)
    (d : dfs) : visit_result :=
  if bool_decide (name ∈ visited d) then Visited d else visit deps fuel name d.

Inductive load_order :=
| Order (l : list string)
| CircularDependency (name : string)
| DfsOutOfFuel.

Definition determineLoadOrder (fuel : nat) (s : system) : load_order :=
  match visit_each (visit_root (dependencies s) fuel) (map fst (plugins s))
          {| visited := ∅; temp := ∅; order := [] |} with
  | Visited d => Order (order d)
  | Circular n => CircularDependency n
  | OutOfFuel => DfsOutOfFuel
  end.

(** The message of the error [determineLoadOrder] throws. *)
Definition circular_message (name : string) : string :=
  ("Circular dependency detected involving plugin: " ++ name)%string.

Inductive completion :=
| Returned
| Threw (message : string)
| Unfinished.

Fixpoint initialize_each (fuel : nat) (names : list string) (s : system)
  : system * list event :=
  match names with
  | [] => (s, [])
  | n :: names' =>
      let '(_, s1, ev1) := initializePlugin fuel n s in
      let '(s2, ev2) := initialize_each fuel names' s1 in
      (s2, ev1 ++ ev2)
  end.

Definition set_load_order (l : list string) (s : system) : system :=
  {| plugins := plugins s; hooks := hooks s; pluginStates := pluginStates s;
     dependencies := dependencies s; pluginLoadOrder := l;
     initialized := initialized s; commands := commands s |}.

Definition set_initialized (s : system) : system :=
  {| plugins := plugins s; hooks := hooks s; pluginStates := pluginStates s;
     dependencies := dependencies s; pluginLoadOrder := pluginLoadOrder s;
     initialized := true; commands := commands s |}.

(** [initializeAll()]. *)
Definition initializeAll (fuel : nat) (s : system) : completion * system * list event :=
  if initialized s then (Returned, s, [WarnAlreadyInitialized])
  else
    match determineLoadOrder fuel s with
    | DfsOutOfFuel => (Unfinished, s, [])
    | CircularDependency n => (Threw (circular_message n), s, [])
    | Order l =>
        let '(s1, ev) := initialize_each fuel l (set_load_order l s) in
        let s2 := set_initialized s1 in
        (Returned, s2,
         ev ++ [LogAllInitialized;
                Emitted "plugin-system:initialized" []
                  (executeHook fuel s2 "plugin-system:initialized" [])])
    end.

(** *** Facts about hooks *)

Definition ascending (l : list hook_entry) : Prop :=
  StronglySorted (fun a b => (priority a <= priority b)%Z) l.

Definition hooks_sorted (s : system) : Prop :=
  forall name hs, hooks s !! name = Some hs -> ascending hs.

Definition sys_of (x : bool * system * list event) : system := snd (fst x).

(** The systems the operations of the class can produce. *)
Inductive reachable : system -> Prop :=
| reach_new : reachable new_system
| reach_register fuel name p opts s :
    reachable s -> reachable (sys_of (register fuel name p opts s))
| reach_unregister fuel name s :
    reachable s -> reachable (sys_of (unregister fuel name s))
| reach_initializePlugin fuel name s :
    reachable s -> reachable (sys_of (initializePlugin fuel name s))
| reach_setPluginEnabled fuel name b s :
    reachable s -> reachable (sys_of (setPluginEnabled fuel name b s))
| reach_registerHooks owner hs s :
    reachable s -> reachable (registerHooks owner hs s)
| reach_initializeAll fuel s :
    reachable s -> reachable (snd (fst (initializeAll fuel s))).

Lemma insert_hook_In (x y : hook_entry) (l : list hook_entry) :
  In y (insert_hook x l) -> y = x \/ In y l.
Proof.
  induction l as [|z l IH]; simpl.
  - intros [H|[]]; auto.
  - destruct (priority x <=? priority z)%Z; simpl.
    + intros [H|[H|H]]; auto.
    + intros [H|H]; auto. destruct (IH H); auto.
Qed.

Lemma insert_hook_ascending (x : hook_entry) (l : list hook_entry) :
  ascending l -> ascending (insert_hook x l).
Proof.
  unfold ascending. induction l as [|z l IH]; simpl; intros H.
  - repeat constructor.
  - destruct (priority x <=? priority z)%Z eqn:E.
    + apply Z.leb_le in E. constructor; [exact H|].
      constructor; [exact E|].
      apply StronglySorted_inv in H. destruct H as [_ H].
      rewrite List.Forall_forall in H |- *. intros y Hy. specialize (H y Hy). lia.
    + apply Z.leb_gt in E. apply StronglySorted_inv in H. destruct H as [H1 H2].
      constructor; [apply IH; exact H1|].
      rewrite List.Forall_forall in H2 |- *. intros y Hy.
      apply insert_hook_In in Hy. destruct Hy as [->|Hy]; [lia | apply H2; exact Hy].
Qed.

Lemma sort_hooks_ascending (l : list hook_entry) : ascending (sort_hooks l).
Proof.
  induction l as [|x l IH]; simpl.
  - constructor.
  - apply insert_hook_ascending. exact IH.
Qed.

Lemma insert_hook_length (x : hook_entry) (l : list hook_entry) :
  length (insert_hook x l) = S (length l).
Proof.
  induction l as [|z l IH]; simpl; [reflexivity|].
  destruct (priority x <=? priority z)%Z; simpl; [reflexivity | rewrite IH; reflexivity].
Qed.

Lemma sort_hooks_length (l : list hook_entry) : length (sort_hooks l) = length l.
Proof.
  induction l as [|x l IH]; simpl; [reflexivity|].
  rewrite insert_hook_length, IH. reflexivity.
Qed.

Lemma filter_ascending (f : hook_entry -> bool) (l : list hook_entry) :
  ascending l -> ascending (List.filter f l).
Proof.
  unfold ascending. induction l as [|x l IH]; simpl; intros H; [constructor|].
  apply StronglySorted_inv in H. destruct H as [H1 H2].
  destruct (f x); [|apply IH; exact H1].
  constructor; [apply IH; exact H1|].
  rewrite List.Forall_forall in H2 |- *. intros y Hy.
  apply List.filter_In in Hy. apply H2. tauto.
Qed.

Definition sorted_table (h : gmap string (list hook_entry)) : Prop :=
  forall name hs, h !! name = Some hs -> ascending hs.

Lemma registerHook_sorted (owner : string) (h : gmap string (list hook_entry))
    (hk : string * hook_fn) :
  sorted_table h -> sorted_table (registerHook owner h hk).
Proof.
  intros H name hs. unfold registerHook.
  destruct (decide (fst hk = name)) as [->|Hne].
  - rewrite lookup_insert_eq. intros [= <-]. apply sort_hooks_ascending.
  - rewrite lookup_insert_ne by exact Hne. apply H.
Qed.

Lemma registerHooks_sorted (owner : string) (hs : list (string * hook_fn)) (s : system) :
  hooks_sorted s -> hooks_sorted (registerHooks owner hs s).
Proof.
  unfold hooks_sorted, registerHooks. simpl.
  fold (sorted_table (hooks s)).
  fold (sorted_table (fold_left (registerHook owner) hs (hooks s))).
  generalize (hooks s). induction hs as [|hk hs IH]; intros h H; simpl; [exact H|].
  apply IH. apply registerHook_sorted. exact H.
Qed.

Lemma run_init_sorted (steps : list init_step) (s : system) :
  hooks_sorted s ->
  match run_init steps s with
  | inl s' => hooks_sorted s'
  | inr (_, s') => hooks_sorted s'
  end.
Proof.
  revert s. induction steps as [|st steps IH]; intros s H; simpl; [exact H|].
  destruct st as [owner hs|m]; [|exact H].
  apply IH. apply registerHooks_sorted. exact H.
Qed.

Lemma registerCommands_hooks (fuel : nat) (owner : string) (cs : list (string * nat))
    (s : system) :
  hooks (fst (registerCommands fuel owner cs s)) = hooks s.
Proof.
  revert s. induction cs as [|[c f] cs IH]; intros s; simpl; [reflexivity|].
  specialize (IH (set_commands
                    (Some (<[(owner ++ ":" ++ c)%string := f]> (default ∅ (commands s)))) s)).
  destruct (registerCommands fuel owner cs _) as [s2 ev]. simpl in *. exact IH.
Qed.

Lemma initializePlugin_sorted (fuel : nat) (name : string) (s : system) :
  hooks_sorted s -> hooks_sorted (sys_of (initializePlugin fuel name s)).
Proof.
  intros H. unfold initializePlugin, sys_of.
  destruct (Js.assoc name (plugins s)) as [info|]; [|exact H].
  destruct (negb (enabled info)); [exact H|].
  pose proof (run_init_sorted (default [] (p_init (instance info))) s H) as Hi.
  destruct (run_init _ s) as [s1|[m s1]]; [|exact Hi].
  assert (H2 : hooks_sorted (match p_hooks (instance info) with
                             | Some hs => registerHooks name hs s1
                             | None => s1
                             end)).
  { destruct (p_hooks (instance info)); [apply registerHooks_sorted|]; exact Hi. }
  set (s2 := match p_hooks (instance info) with
             | Some hs => registerHooks name hs s1
             | None => s1
             end) in *.
  destruct (p_commands (instance info)) as [cs|]; [|exact H2].
  pose proof (registerCommands_hooks fuel name cs s2) as Hc.
  destruct (registerCommands fuel name cs s2) as [s3 ev]. simpl in *.
  unfold hooks_sorted in *. simpl. rewrite Hc. exact H2.
Qed.

Lemma register_sorted (fuel : nat) (name : string) (p : plugin_instance)
    (opts : plugin_options) (s : system) :
  hooks_sorted s -> hooks_sorted (sys_of (register fuel name p opts s)).
Proof.
  intros H. unfold register.
  destruct (has_plugin s name); [exact H|].
  destruct (0 <? length _)%nat; [exact H|].
  match goal with
  | |- context [initializePlugin fuel name ?s1] =>
      assert (H1 : hooks_sorted s1) by exact H;
      pose proof (initializePlugin_sorted fuel name s1 H1) as Hi;
      destruct (initializePlugin fuel name s1) as [[b s2] ev]
  end.
  destruct (_ && _); [exact Hi | exact H].
Qed.

Lemma unregister_sorted (fuel : nat) (name : string) (s : system) :
  hooks_sorted s -> hooks_sorted (sys_of (unregister fuel name s)).
Proof.
  intros H. unfold unregister, sys_of.
  destruct (Js.assoc name (plugins s)); [|exact H].
  intros k hs. simpl. rewrite lookup_fmap.
  destruct (hooks s !! k) as [l|] eqn:E; simpl; [|discriminate].
  intros [= <-]. apply filter_ascending. eapply H. exact E.
Qed.

Lemma initialize_each_sorted (fuel : nat) (names : list string) (s : system) :
  hooks_sorted s -> hooks_sorted (fst (initialize_each fuel names s)).
Proof.
  revert s. induction names as [|n names IH]; intros s H; simpl; [exact H|].
  pose proof (initializePlugin_sorted fuel n s H) as Hi.
  destruct (initializePlugin fuel n s) as [[b s1] ev1].
  specialize (IH s1 Hi). destruct (initialize_each fuel names s1) as [s2 ev2].
  exact IH.
Qed.

Lemma reachable_sorted (s : system) : reachable s -> hooks_sorted s.
Proof.
  induction 1.
  - intros name hs. simpl. rewrite lookup_empty. discriminate.
  - apply register_sorted. assumption.
  - apply unregister_sorted. assumption.
  - apply initializePlugin_sorted. assumption.
  - unfold setPluginEnabled, sys_of.
    destruct (Js.assoc name (plugins s)); assumption.
  - apply registerHooks_sorted. assumption.
  - unfold initializeAll.
    destruct (initialized s); [assumption|].
    destruct (determineLoadOrder fuel s) as [l| |]; try assumption.
    pose proof (initialize_each_sorted fuel l (set_load_order l s) IHreachable) as Hi.
    destruct (initialize_each fuel l (set_load_order l s)) as [s1 ev]. exact Hi.
Qed.

Lemma omap_run_hook (emit_error : list string -> emission) (s : system)
    (hookName : string) (args : list string) (hs : list hook_entry) :
  omap (run_hook emit_error s hookName args) hs
  = map (call emit_error hookName args)
      (List.filter (fun h => isPluginEnabled s (plugin h)) hs).
Proof.
  induction hs as [|h hs IH]; [reflexivity|].
  change (omap (run_hook emit_error s hookName args) (h :: hs))
    with (match run_hook emit_error s hookName args h with
          | Some r => r :: omap (run_hook emit_error s hookName args) hs
          | None => omap (run_hook emit_error s hookName args) hs
          end).
  rewrite IH. unfold run_hook. simpl.
  destruct (isPluginEnabled s (plugin h)); reflexivity.
Qed.

Lemma registerHook_length (owner hookName : string) (f : hook_fn)
    (h : gmap string (list hook_entry)) :
  length (default [] (registerHook owner h (hookName, f) !! hookName))
  = S (length (default [] (h !! hookName))).
Proof.
  unfold registerHook. simpl. rewrite lookup_insert_eq. simpl.
  rewrite sort_hooks_length, length_app. simpl. lia.
Qed.

(** A plugin with no behaviour of its own, and the two shapes of options. *)
Definition plain : plugin_instance :=
  {| p_init := None; p_hooks := None; p_commands := None; p_cleanup := None |}.

Definition no_options : plugin_options :=
  {| o_dependencies := None; o_autoInit := None; o_version := None |}.

Definition depends_on (l : list string) : plugin_options :=
  {| o_dependencies := Some l; o_autoInit := None; o_version := None |}.

(** Four subscribers of the hook [save], given in this order: priority 70
    and failing, no priority, priority 10 and failing, priority 0. *)
Definition late_failing : hook_fn :=
  {| fn_id := 4; fn_priority := Some 70%Z; fn_run := fun _ => Throws "disk full" |}.
Definition unranked : hook_fn :=
  {| fn_id := 2; fn_priority := None; fn_run := fun _ => Returns |}.
Definition early_failing : hook_fn :=
  {| fn_id := 1; fn_priority := Some 10%Z; fn_run := fun _ => Throws "no session" |}.
Definition zero_ranked : hook_fn :=
  {| fn_id := 3; fn_priority := Some 0%Z; fn_run := fun _ => Returns |}.
Definition reporter : hook_fn :=
  {| fn_id := 5; fn_priority := None; fn_run := fun _ => Returns |}.

Definition persistence_system : system :=
  registerHooks "error-tracking" [("hook:error", reporter)]
    (registerHooks "persistence"
       [("save", late_failing); ("save", unranked); ("save", early_failing);
        ("save", zero_ranked)]
       (sys_of (register 1 "error-tracking" plain no_options
          (sys_of (register 1 "persistence" plain no_options new_system))))).

Lemma persistence_system_reachable : reachable persistence_system.
Proof. repeat constructor. Qed.

(** What holds of an emission on a system built by the operations of the
    class: every subscriber whose plugin is enabled is run, once, one after
    the other in ascending order of the priority stored with it; a
    subscriber that throws is recorded as failed together with the
    [hook:error] emission its fault sets off, and the subscribers after it
    are run all the same. *)
Theorem executeHook_runs_every_subscriber (fuel : nat) (s : system) (hookName : string)
    (args : list string) (hs : list hook_entry) :
  reachable s ->
  hooks s !! hookName = Some hs ->
  let subscribers := List.filter (fun h => isPluginEnabled s (plugin h)) hs in
  executeHook (S fuel) s hookName args
  = Ran (map (call (executeHook fuel s "hook:error") hookName args) subscribers)
  /\ ascending subscribers
  /\ (forall h m, In h subscribers -> fn_run (function h) args = Throws m ->
        call (executeHook fuel s "hook:error") hookName args h
        = Result (plugin h) (fn_id (function h)) (Throws m)
            (Some (executeHook fuel s "hook:error" [hookName; plugin h; m])))
  /\ (forall h, In h subscribers -> fn_run (function h) args = Returns ->
        call (executeHook fuel s "hook:error") hookName args h
        = Result (plugin h) (fn_id (function h)) Returns None).
Proof.
  intros Hr Hh subscribers. repeat split.
  - cbn [executeHook]. rewrite Hh, omap_run_hook. reflexivity.
  - apply filter_ascending. eapply reachable_sorted; eassumption.
  - intros h m _ Hm. unfold call. rewrite Hm. reflexivity.
  - intros h _ Hm. unfold call. rewrite Hm. reflexivity.
Qed.

Lemma executeHook_runs_every_subscriber_witness :
  executeHook 2 persistence_system "save" []
  = Ran [ Result "persistence" 1 (Throws "no session")
            (Some (Ran [Result "error-tracking" 5 Returns None]));
          Result "persistence" 2 Returns None;
          Result "persistence" 3 Returns None;
          Result "persistence" 4 (Throws "disk full")
            (Some (Ran [Result "error-tracking" 5 Returns None])) ].
Proof.
  destruct (executeHook_runs_every_subscriber 1 persistence_system "save" []
              (default [] (hooks persistence_system !! "save"))
              persistence_system_reachable) as [H _].
  - reflexivity.
  - rewrite H. reflexivity.
Defined.

(** *** The priority a subscriber declares and the priority it is run by *)

(** Every entry carries the priority [registerHooks] computed for its
    function. *)
Definition stamped (h : hook_entry) : Prop := priority h = stored_priority (function h).

Definition hooks_stamped (s : system) : Prop :=
  forall name hs, hooks s !! name = Some hs -> List.Forall stamped hs.

Definition stamped_table (h : gmap string (list hook_entry)) : Prop :=
  forall name hs, h !! name = Some hs -> List.Forall stamped hs.

Lemma sort_hooks_In (y : hook_entry) (l : list hook_entry) :
  In y (sort_hooks l) -> In y l.
Proof.
  induction l as [|x l IH]; simpl; [tauto|].
  intros H. apply insert_hook_In in H. destruct H as [->|H]; auto.
Qed.

Lemma registerHook_stamped (owner : string) (h : gmap string (list hook_entry))
    (hk : string * hook_fn) :
  stamped_table h -> stamped_table (registerHook owner h hk).
Proof.
  intros H name hs. unfold registerHook.
  destruct (decide (fst hk = name)) as [->|Hne].
  - rewrite lookup_insert_eq. intros [= <-]. apply List.Forall_forall. intros y Hy.
    apply sort_hooks_In in Hy. apply in_app_iff in Hy. destruct Hy as [Hy|Hy].
    + destruct (h !! name) as [l|] eqn:E; simpl in Hy; [|contradiction].
      specialize (H _ _ E). rewrite List.Forall_forall in H. exact (H y Hy).
    + simpl in Hy. destruct Hy as [Hy|Hy]; [|contradiction]. subst y. reflexivity.
  - rewrite lookup_insert_ne by exact Hne. apply H.
Qed.

Lemma registerHooks_stamped (owner : string) (hs : list (string * hook_fn)) (s : system) :
  hooks_stamped s -> hooks_stamped (registerHooks owner hs s).
Proof.
  unfold hooks_stamped, registerHooks. simpl.
  fold (stamped_table (hooks s)).
  fold (stamped_table (fold_left (registerHook owner) hs (hooks s))).
  generalize (hooks s). induction hs as [|hk hs IH]; intros h H; simpl; [exact H|].
  apply IH. apply registerHook_stamped. exact H.
Qed.

Lemma run_init_stamped (steps : list init_step) (s : system) :
  hooks_stamped s ->
  match run_init steps s with
  | inl s' => hooks_stamped s'
  | inr (_, s') => hooks_stamped s'
  end.
Proof.
  revert s. induction steps as [|st steps IH]; intros s H; simpl; [exact H|].
  destruct st as [owner hs|m]; [|exact H].
  apply IH. apply registerHooks_stamped. exact H.
Qed.

Lemma initializePlugin_stamped (fuel : nat) (name : string) (s : system) :
  hooks_stamped s -> hooks_stamped (sys_of (initializePlugin fuel name s)).
Proof.
  intros H. unfold initializePlugin, sys_of.
  destruct (Js.assoc name (plugins s)) as [info|]; [|exact H].
  destruct (negb (enabled info)); [exact H|].
  pose proof (run_init_stamped (default [] (p_init (instance info))) s H) as Hi.
  destruct (run_init _ s) as [s1|[m s1]]; [|exact Hi].
  assert (H2 : hooks_stamped (match p_hooks (instance info) with
                              | Some hs => registerHooks name hs s1
                              | None => s1
                              end)).
  { destruct (p_hooks (instance info)); [apply registerHooks_stamped|]; exact Hi. }
  set (s2 := match p_hooks (instance info) with
             | Some hs => registerHooks name hs s1
             | None => s1
             end) in *.
  destruct (p_commands (instance info)) as [cs|]; [|exact H2].
  pose proof (registerCommands_hooks fuel name cs s2) as Hc.
  destruct (registerCommands fuel name cs s2) as [s3 ev]. simpl in *.
  unfold hooks_stamped in *. simpl. rewrite Hc. exact H2.
Qed.

Lemma initialize_each_stamped (fuel : nat) (names : list string) (s : system) :
  hooks_stamped s -> hooks_stamped (fst (initialize_each fuel names s)).
Proof.
  revert s. induction names as [|n names IH]; intros s H; simpl; [exact H|].
  pose proof (initializePlugin_stamped fuel n s H) as Hi.
  destruct (initializePlugin fuel n s) as [[b s1] ev1].
  specialize (IH s1 Hi). destruct (initialize_each fuel names s1) as [s2 ev2].
  exact IH.
Qed.

Lemma reachable_stamped (s : system) : reachable s -> hooks_stamped s.
Proof.
  induction 1 as [|fuel name p opts s Hr IH|fuel name s Hr IH|fuel name s Hr IH
                  |fuel name b s Hr IH|owner hs s Hr IH|fuel s Hr IH].
  - intros name hs. simpl. rewrite lookup_empty. discriminate.
  - unfold register.
    destruct (has_plugin s name); [exact IH|].
    destruct (0 <? length _)%nat; [exact IH|].
    match goal with
    | |- context [initializePlugin fuel name ?s1] =>
        assert (H1 : hooks_stamped s1) by exact IH;
        pose proof (initializePlugin_stamped fuel name s1 H1) as Hi;
        destruct (initializePlugin fuel name s1) as [[b s2] ev]
    end.
    destruct (_ && _); [exact Hi | exact IH].
  - unfold unregister, sys_of.
    destruct (Js.assoc name (plugins s)); [|exact IH].
    intros k hs. simpl. rewrite lookup_fmap.
    destruct (hooks s !! k) as [l|] eqn:E; simpl; [|discriminate].
    intros [= <-]. specialize (IH k l E). rewrite List.Forall_forall in IH |- *.
    intros y Hy. apply List.filter_In in Hy. apply IH. tauto.
  - apply initializePlugin_stamped. exact IH.
  - unfold setPluginEnabled, sys_of.
    destruct (Js.assoc name (plugins s)); exact IH.
  - apply registerHooks_stamped. exact IH.
  - unfold initializeAll.
    destruct (initialized s); [exact IH|].
    destruct (determineLoadOrder fuel s) as [l| |]; try exact IH.
    pose proof (initialize_each_stamped fuel l (set_load_order l s) IH) as Hi.
    destruct (initialize_each fuel l (set_load_order l s)) as [s1 ev]. exact Hi.
Qed.

(** The priority the specification gives a subscriber: the one it declares,
    or [50] when it declares none. *)
Definition declared_priority (f : hook_fn) : Z := default 50%Z (fn_priority f).

Lemma stored_is_declared (f : hook_fn) :
  fn_priority f <> Some 0%Z -> stored_priority f = declared_priority f.
Proof.
  unfold stored_priority, declared_priority. destruct (fn_priority f) as [z|]; simpl.
  - intros H. destruct (Z.eqb_spec z 0) as [->|]; [congruence | reflexivity].
  - reflexivity.
Qed.

(** Where the order is the declared one: as long as no subscriber of the
    hook declares the priority [0], the enabled subscribers are run in
    ascending order of the priority they declare. *)
Lemma executeHook_declared_order (s : system) (hookName : string) (hs : list hook_entry) :
  reachable s ->
  hooks s !! hookName = Some hs ->
  List.Forall (fun h => fn_priority (function h) <> Some 0%Z) hs ->
  StronglySorted
    (fun a b => (declared_priority (function a) <= declared_priority (function b))%Z)
    (List.filter (fun h => isPluginEnabled s (plugin h)) hs).
Proof.
  intros Hr Hh Hz.
  pose proof (filter_ascending (fun h => isPluginEnabled s (plugin h)) hs
                (reachable_sorted s Hr hookName hs Hh)) as Hs.
  pose proof (reachable_stamped s Hr hookName hs Hh) as Hst.
  assert (Hall : List.Forall (fun h => priority h = declared_priority (function h))
                   (List.filter (fun h => isPluginEnabled s (plugin h)) hs)).
  { rewrite List.Forall_forall in *. intros h Hin. apply List.filter_In in Hin.
    destruct Hin as [Hin _]. rewrite (Hst h Hin). apply stored_is_declared.
    exact (Hz h Hin). }
  unfold ascending in Hs.
  induction Hs as [|a l Hs IH Ha]; [constructor|].
  pose proof (List.Forall_inv Hall) as Ea. apply List.Forall_inv_tail in Hall.
  constructor; [exact (IH Hall)|].
  rewrite List.Forall_forall in *. intros b Hb.
  rewrite <- Ea, <- (Hall b Hb). exact (Ha b Hb).
Qed.

(** C6: the subscribers are not run in ascending order of priority when one
    of them declares the priority [0].  [registerHooks] stores
    [hookFunction.priority || 50], which takes the declared [0] for a missing
    priority: a subscriber [f] that declares [0], registered first, is run
    after a subscriber [g] that declares any priority from [1] to [49].
    Both are run, [g] first, each with its own result, so the rest of the
    claim (every enabled subscriber, one after the other, a failure not
    stopping the others) holds on this input. *)
Theorem executeHook_priority_zero_runs_late (fuel : nat) (owner hookName : string)
    (f g : hook_fn) (p : Z) (args : list string) (s : system) :
  fn_priority f = Some 0%Z ->
  fn_priority g = Some p ->
  (0 < p < 50)%Z ->
  isPluginEnabled s owner = true ->
  hooks s !! hookName = None ->
  let s' := registerHooks owner [(hookName, g)] (registerHooks owner [(hookName, f)] s) in
  (declared_priority f < declared_priority g)%Z
  /\ hooks s' !! hookName
     = Some [ {| plugin := owner; function := g; priority := p |};
              {| plugin := owner; function := f; priority := 50 |} ]
  /\ executeHook (S fuel) s' hookName args
     = Ran [ call (executeHook fuel s' "hook:error") hookName args
               {| plugin := owner; function := g; priority := p |};
             call (executeHook fuel s' "hook:error") hookName args
               {| plugin := owner; function := f; priority := 50 |} ].
Proof.
  intros Hf Hg Hp He Hh s'.
  assert (Sf : stored_priority f = 50%Z) by (unfold stored_priority; rewrite Hf; reflexivity).
  assert (Sg : stored_priority g = p).
  { unfold stored_priority. rewrite Hg. destruct (Z.eqb_spec p 0); [lia | reflexivity]. }
  assert (Hs' : hooks s' !! hookName
                = Some [ {| plugin := owner; function := g; priority := p |};
                         {| plugin := owner; function := f; priority := 50 |} ]).
  { unfold s', registerHooks, registerHook. simpl.
    rewrite lookup_insert_eq. f_equal. rewrite lookup_insert_eq, Hh. simpl.
    rewrite Sf, Sg. simpl.
    assert (E : (50 <=? p)%Z = false) by (apply Z.leb_gt; lia).
    rewrite E. reflexivity. }
  split; [unfold declared_priority; rewrite Hf, Hg; simpl; lia|].
  split; [exact Hs'|].
  cbn [executeHook]. rewrite Hs', omap_run_hook. f_equal.
  assert (Hen : isPluginEnabled s' owner = true) by exact He.
  simpl. rewrite Hen. reflexivity.
Qed.

Lemma executeHook_priority_zero_runs_late_witness :
  executeHook 2
    (registerHooks "persistence" [("load", early_failing)]
       (registerHooks "persistence" [("load", zero_ranked)] persistence_system))
    "load" []
  = Ran [ Result "persistence" 1 (Throws "no session")
            (Some (Ran [Result "error-tracking" 5 Returns None]));
          Result "persistence" 3 Returns None ].
Proof.
  destruct (executeHook_priority_zero_runs_late 1 "persistence" "load" zero_ranked
              early_failing 10 [] persistence_system) as (_ & _ & H).
  - reflexivity.
  - reflexivity.
  - split; reflexivity.
  - reflexivity.
  - reflexivity.
  - rewrite H. reflexivity.
Defined.


(** C10: registering a name that is already in the registry returns [false]
    and changes nothing in the plugin system (plugins, dependencies, states,
    load order and all the rest), a warning apart; registering the same hook
    function a second time, by contrast, adds a second entry. *)
Theorem register_rejects_duplicate (fuel : nat) (name : string) (p : plugin_instance)
    (opts : plugin_options) (s : system) :
  has_plugin s name = true ->
  register fuel name p opts s = (false, s, [WarnAlreadyRegistered name])
  /\ forall owner hookName f,
       length (default [] (hooks (registerHooks owner [(hookName, f)]
                                    (registerHooks owner [(hookName, f)] s)) !! hookName))
       = S (S (length (default [] (hooks s !! hookName)))).
Proof.
  intros H. split.
  - unfold register. rewrite H. reflexivity.
  - intros owner hookName f. unfold registerHooks. simpl.
    rewrite !registerHook_length. reflexivity.
Qed.

Lemma register_rejects_duplicate_witness :
  register 1 "persistence" plain (depends_on ["error-tracking"]) persistence_system
  = (false, persistence_system, [WarnAlreadyRegistered "persistence"]).
Proof.
  apply (register_rejects_duplicate 1 "persistence" plain (depends_on ["error-tracking"])
           persistence_system).
  reflexivity.
Defined.

(** *** Facts about the load order *)

Section LoadOrder.
Variable deps : gmap string (list string).

(** [n] declares the dependency [x]. *)
Definition edge (n x : string) : Prop :=
  exists ds, deps !! n = Some ds /\ In x ds.

(** What a successful [visit] does to the three variables. *)
Definition advances (x : string) (d d' : dfs) : Prop :=
  temp d' = temp d /\ visited d ⊆ visited d' /\ x ∈ visited d'.

Lemma visit_each_advances (v : string -> dfs -> visit_result) (ds : list string) :
  (forall x d d', In x ds -> v x d = Visited d' -> advances x d d') ->
  forall d d', visit_each v ds d = Visited d' ->
    temp d' = temp d /\ visited d ⊆ visited d' /\ (forall x, In x ds -> x ∈ visited d').
Proof.
  induction ds as [|x ds IH]; intros Hv d d' H; simpl in H.
  - injection H as <-. repeat split; [set_solver | intros x []].
  - destruct (v x d) as [d1| |] eqn:E; try discriminate.
    destruct (Hv x d d1 (or_introl eq_refl) E) as (T1 & S1 & M1).
    destruct (IH (fun y a b Hy => Hv y a b (or_intror Hy)) d1 d' H) as (T2 & S2 & M2).
    repeat split; [congruence | set_solver |].
    intros y [<-|Hy]; [set_solver | auto].
Qed.

Lemma visit_advances (fuel : nat) (name : string) (d d' : dfs) :
  visit deps fuel name d = Visited d' -> advances name d d'.
Proof.
  revert name d d'. induction fuel as [|fuel IH]; intros name d d' H; [discriminate|].
  cbn [visit] in H.
  destruct (bool_decide (name ∈ temp d)) eqn:Et; [discriminate|].
  apply bool_decide_eq_false in Et.
  destruct (bool_decide (name ∈ visited d)) eqn:Ev.
  - apply bool_decide_eq_true in Ev. injection H as <-. repeat split; [set_solver | exact Ev].
  - match type of H with
    | match visit_each ?v ?ds ?d1 with _ => _ end = _ =>
        destruct (visit_each v ds d1) as [d2| |] eqn:E; try discriminate;
        destruct (visit_each_advances v ds (fun x a b _ Hx => IH x a b Hx) d1 d2 E)
          as (T & S & _)
    end.
    injection H as <-. simpl in *. unfold advances. simpl.
    repeat split; [rewrite T; set_solver | set_solver | set_solver].
Qed.

Lemma visit_root_advances (fuel : nat) (name : string) (d d' : dfs) :
  visit_root deps fuel name d = Visited d' -> advances name d d'.
Proof.
  unfold visit_root. destruct (bool_decide (name ∈ visited d)) eqn:Ev.
  - apply bool_decide_eq_true in Ev. intros [= <-]. repeat split; [set_solver | exact Ev].
  - apply visit_advances.
Qed.

(** **** The recursion is as deep as the traversal stack *)

Variable universe : gset string.
Hypothesis universe_closed : forall n x, edge n x -> x ∈ universe.

Lemma visit_each_fuel (v : string -> dfs -> visit_result) (ds : list string) (d : dfs) :
  (forall x a b, v x a = Visited b -> advances x a b) ->
  (forall x a, In x ds -> temp a = temp d -> v x a <> OutOfFuel) ->
  visit_each v ds d <> OutOfFuel.
Proof.
  intros Hadv. revert d. induction ds as [|x ds IH]; intros d Hv; simpl; [discriminate|].
  destruct (v x d) as [d1| |] eqn:E; [|discriminate|].
  - destruct (Hadv x d d1 E) as (T & _). apply IH.
    intros y a Hy Ha. apply Hv; [right; exact Hy | congruence].
  - exfalso. exact (Hv x d (or_introl eq_refl) eq_refl E).
Qed.

Lemma visit_fuel (fuel : nat) (name : string) (d : dfs) :
  name ∈ universe ->
  size (universe ∖ temp d) < fuel ->
  visit deps fuel name d <> OutOfFuel.
Proof.
  revert name d. induction fuel as [|fuel IH]; intros name d Hn Hf; [lia|].
  cbn [visit].
  destruct (bool_decide (name ∈ temp d)) eqn:Et; [discriminate|].
  apply bool_decide_eq_false in Et.
  destruct (bool_decide (name ∈ visited d)); [discriminate|].
  set (d1 := {| visited := visited d; temp := {[name]} ∪ temp d; order := order d |}).
  assert (Hsz : size (universe ∖ temp d1) < fuel).
  { assert (Hsplit : universe ∖ temp d = {[name]} ∪ universe ∖ temp d1)
      by (unfold d1; simpl; apply set_eq; intros y;
          destruct (decide (y = name)); set_solver).
    rewrite Hsplit, size_union, size_singleton in Hf by (unfold d1; simpl; set_solver).
    lia. }
  assert (Hne : visit_each (visit deps fuel) (default [] (deps !! name)) d1 <> OutOfFuel).
  { apply visit_each_fuel.
    - intros x a b. apply visit_advances.
    - intros x a Hx Ha. apply IH.
      + apply (universe_closed name x). unfold edge.
        destruct (deps !! name) as [ds|]; [eauto | destruct Hx].
      + rewrite Ha. exact Hsz. }
  destruct (visit_each _ _ d1); congruence.
Qed.

(** **** What has been visited holds no cycle *)

Definition settled (d : dfs) : Prop :=
  (forall n x, n ∈ visited d -> edge n x -> x ∈ visited d)
  /\ (forall n, n ∈ visited d -> ~ tc edge n n)
  /\ visited d ## temp d.

Lemma closed_reach (V : gset string) (n x : string) :
  (forall a b, a ∈ V -> edge a b -> b ∈ V) -> n ∈ V -> tc edge n x -> x ∈ V.
Proof.
  intros Hc Hn Ht. induction Ht as [a b Hab|a b c Hab _ IH]; eauto.
Qed.

Lemma visit_each_settled (v : string -> dfs -> visit_result) (ds : list string) :
  (forall x d d', v x d = Visited d' -> settled d -> settled d') ->
  forall d d', visit_each v ds d = Visited d' -> settled d -> settled d'.
Proof.
  intros Hv. induction ds as [|x ds IH]; intros d d' H Hs; simpl in H.
  - injection H as <-. exact Hs.
  - destruct (v x d) as [d1| |] eqn:E; try discriminate. eauto.
Qed.

Lemma visit_settled (fuel : nat) (name : string) (d d' : dfs) :
  visit deps fuel name d = Visited d' -> settled d -> settled d'.
Proof.
  revert name d d'. induction fuel as [|fuel IH]; intros name d d' H Hs; [discriminate|].
  cbn [visit] in H.
  destruct (bool_decide (name ∈ temp d)) eqn:Et; [discriminate|].
  apply bool_decide_eq_false in Et.
  destruct (bool_decide (name ∈ visited d)) eqn:Ev; [injection H as <-; exact Hs|].
  apply bool_decide_eq_false in Ev.
  set (d1 := {| visited := visited d; temp := {[name]} ∪ temp d; order := order d |}) in *.
  assert (Hs1 : settled d1).
  { destruct Hs as (C & A & D). repeat split; [exact C | exact A |].
    unfold d1; simpl. set_solver. }
  destruct (visit_each (visit deps fuel) (default [] (deps !! name)) d1) as [d2| |] eqn:E;
    try discriminate.
  destruct (visit_each_advances _ _ (fun x a b _ Hx => visit_advances fuel x a b Hx) d1 d2 E)
    as (T & S & M).
  pose proof (visit_each_settled _ _ (fun x a b => IH x a b) d1 d2 E Hs1) as (C & A & D).
  assert (Hin : name ∈ temp d2) by (rewrite T; unfold d1; simpl; set_solver).
  assert (Hnv : name ∉ visited d2) by set_solver.
  assert (Hdeps : forall x, edge name x -> x ∈ visited d2).
  { intros x (ds & Hds & Hx). apply M. rewrite Hds. exact Hx. }
  injection H as <-. unfold settled. simpl. repeat split.
  - intros n x Hn He. apply elem_of_union in Hn. destruct Hn as [Hn|Hn].
    + apply elem_of_singleton in Hn. subst n. set_solver.
    + specialize (C n x Hn He). set_solver.
  - intros n Hn Hc. apply elem_of_union in Hn. destruct Hn as [Hn|Hn]; [|exact (A n Hn Hc)].
    apply elem_of_singleton in Hn. subst n.
    inversion Hc as [a b Hab|a b c Hab Hbc]; subst.
    + apply Hnv. apply Hdeps. exact Hab.
    + apply Hnv. exact (closed_reach (visited d2) b name C (Hdeps b Hab) Hbc).
  - set_solver.
Qed.

(** **** A reported name is on a cycle *)

Lemma visit_each_circular (v : string -> dfs -> visit_result) (ds : list string)
    (P : string -> Prop) :
  (forall x a b, v x a = Visited b -> advances x a b) ->
  forall d n, visit_each v ds d = Circular n ->
    (forall x a, In x ds -> temp a = temp d -> v x a = Circular n -> P n) -> P n.
Proof.
  intros Hadv. induction ds as [|x ds IH]; intros d n H Hv; simpl in H; [discriminate|].
  destruct (v x d) as [d1|m|] eqn:E; try discriminate.
  - destruct (Hadv x d d1 E) as (T & _). apply (IH d1 n H).
    intros y a Hy Ha. apply Hv; [right; exact Hy | congruence].
  - injection H as ->. exact (Hv x d (or_introl eq_refl) eq_refl E).
Qed.

Lemma visit_circular (fuel : nat) (name n : string) (d : dfs) :
  visit deps fuel name d = Circular n ->
  (forall t, t ∈ temp d -> tc edge t name) ->
  tc edge n n.
Proof.
  revert name d. induction fuel as [|fuel IH]; intros name d H Ht; [discriminate|].
  cbn [visit] in H.
  destruct (bool_decide (name ∈ temp d)) eqn:Et.
  - apply bool_decide_eq_true in Et. injection H as <-. apply Ht. exact Et.
  - destruct (bool_decide (name ∈ visited d)); [discriminate|].
    set (d1 := {| visited := visited d; temp := {[name]} ∪ temp d; order := order d |}) in *.
    destruct (visit_each (visit deps fuel) (default [] (deps !! name)) d1) as [d2|m|] eqn:E;
      try discriminate.
    injection H as ->.
    apply (visit_each_circular _ _ (fun k => tc edge k k)
             (fun x a b => visit_advances fuel x a b) d1 n E).
    intros x a Hx Ha Hc. apply (IH x a Hc).
    intros t Hin. rewrite Ha in Hin. unfold d1 in Hin. simpl in Hin.
    assert (He : edge name x).
    { unfold edge. destruct (deps !! name) as [ds|]; [eauto | destruct Hx]. }
    apply elem_of_union in Hin. destruct Hin as [Hin|Hin].
    + apply elem_of_singleton in Hin. subst t. apply tc_once. exact He.
    + eapply tc_r; [apply Ht; exact Hin | exact He].
Qed.

(** **** The loop over the registered names *)

Definition dfs_start : dfs := {| visited := ∅; temp := ∅; order := [] |}.

Lemma roots_result (fuel : nat) (roots : list string) :
  (forall n, In n roots -> n ∈ universe) ->
  size universe < fuel ->
  match visit_each (visit_root deps fuel) roots dfs_start with
  | Visited d => forall n, In n roots -> ~ tc edge n n
  | Circular n => tc edge n n
  | OutOfFuel => False
  end.
Proof.
  intros Hroots Hf.
  destruct (visit_each (visit_root deps fuel) roots dfs_start) as [d|n|] eqn:E.
  - assert (Hs : settled d).
    { apply (visit_each_settled (visit_root deps fuel) roots) with (d := dfs_start);
        [|exact E|].
      - intros x a b. unfold visit_root. destruct (bool_decide (x ∈ visited a)).
        + intros [= <-]. auto.
        + apply visit_settled.
      - repeat split; simpl; set_solver. }
    destruct (visit_each_advances _ _
                (fun x a b _ Hx => visit_root_advances fuel x a b Hx) dfs_start d E)
      as (_ & _ & M).
    intros n Hn. destruct Hs as (_ & A & _). apply A. apply M. exact Hn.
  - apply (visit_each_circular _ _ (fun k => tc edge k k)
             (fun x a b => visit_root_advances fuel x a b) dfs_start n E).
    intros x a _ Ha. unfold visit_root. destruct (bool_decide (x ∈ visited a)); [discriminate|].
    intros Hc. apply (visit_circular fuel x n a Hc).
    intros t Hin. rewrite Ha in Hin. simpl in Hin. set_solver.
  - revert E. apply visit_each_fuel.
    + intros x a b. apply visit_root_advances.
    + intros x a Hx Ha. unfold visit_root. destruct (bool_decide (x ∈ visited a));
        [discriminate|].
      apply visit_fuel; [apply Hroots; exact Hx|].
      rewrite Ha. simpl. replace (universe ∖ ∅) with universe by set_solver. exact Hf.
Qed.

End LoadOrder.

(** *** [initializeAll] on a registry with a cycle *)

(** Every name the traversal can meet: the registered names and the declared
    dependencies. *)
Definition names_of (s : system) : gset string :=
  list_to_set (map fst (plugins s))
  ∪ ⋃ (map (fun kv : string * list string => list_to_set (snd kv))
         (map_to_list (dependencies s))).

(** Dependencies are recorded for registered plugins only. *)
Definition deps_wf (s : system) : Prop :=
  forall n ds, dependencies s !! n = Some ds -> has_plugin s n = true.

Lemma edge_names (s : system) (n x : string) :
  edge (dependencies s) n x -> x ∈ names_of s.
Proof.
  intros (ds & Hds & Hx). unfold names_of. apply elem_of_union_r.
  apply elem_of_union_list. exists (list_to_set ds). split.
  - apply list_elem_of_In. apply in_map_iff. exists (n, ds). split; [reflexivity|].
    apply list_elem_of_In. apply elem_of_map_to_list. exact Hds.
  - apply elem_of_list_to_set. apply list_elem_of_In. exact Hx.
Qed.

Lemma has_plugin_keys (s : system) (n : string) :
  has_plugin s n = true <-> In n (map fst (plugins s)).
Proof.
  unfold has_plugin. rewrite <- Js.assoc_keys.
  destruct (Js.assoc n (plugins s)); split; congruence.
Qed.

Lemma determineLoadOrder_cycle (fuel : nat) (s : system) :
  deps_wf s ->
  (exists n, tc (edge (dependencies s)) n n) ->
  size (names_of s) < fuel ->
  exists n, determineLoadOrder fuel s = CircularDependency n
            /\ tc (edge (dependencies s)) n n.
Proof.
  intros Hwf [c Hc] Hf. unfold determineLoadOrder.
  pose proof (roots_result (dependencies s) (names_of s) (edge_names s) fuel
                (map fst (plugins s))) as H.
  fold dfs_start.
  destruct (visit_each (visit_root (dependencies s) fuel) (map fst (plugins s)) dfs_start)
    as [d|n|].
  - exfalso. apply (H ltac:(intros n Hn; unfold names_of; apply elem_of_union_l;
                            apply elem_of_list_to_set, list_elem_of_In; exact Hn) Hf c);
      [|exact Hc].
    apply has_plugin_keys.
    assert (He : exists x, edge (dependencies s) c x)
      by (inversion Hc; subst; eauto).
    destruct He as (x & ds & Hds & _). eapply Hwf. exact Hds.
  - exists n. split; [reflexivity|]. apply H; [|exact Hf].
    intros m Hm. unfold names_of. apply elem_of_union_l.
    apply elem_of_list_to_set, list_elem_of_In. exact Hm.
  - exfalso. apply H; [|exact Hf].
    intros m Hm. unfold names_of. apply elem_of_union_l.
    apply elem_of_list_to_set, list_elem_of_In. exact Hm.
Qed.

(** The operations that leave the registered names and the dependencies alone. *)
Definition same_registry (s s' : system) : Prop :=
  plugins s' = plugins s /\ dependencies s' = dependencies s
  /\ initialized s' = initialized s.

Lemma run_init_registry (steps : list init_step) (s : system) :
  match run_init steps s with
  | inl s' => same_registry s s'
  | inr (_, s') => same_registry s s'
  end.
Proof.
  revert s. induction steps as [|st steps IH]; intros s; simpl.
  - repeat split.
  - destruct st as [owner hs|m]; [|repeat split].
    specialize (IH (registerHooks owner hs s)).
    destruct (run_init steps _) as [s'|[m s']]; exact IH.
Qed.

Lemma registerCommands_registry (fuel : nat) (owner : string) (cs : list (string * nat))
    (s : system) :
  same_registry s (fst (registerCommands fuel owner cs s)).
Proof.
  revert s. induction cs as [|[c f] cs IH]; intros s; simpl; [repeat split|].
  specialize (IH (set_commands
                    (Some (<[(owner ++ ":" ++ c)%string := f]> (default ∅ (commands s)))) s)).
  destruct (registerCommands fuel owner cs _) as [s2 ev]. exact IH.
Qed.

Lemma initializePlugin_registry (fuel : nat) (name : string) (s : system) :
  same_registry s (sys_of (initializePlugin fuel name s)).
Proof.
  unfold initializePlugin, sys_of.
  destruct (Js.assoc name (plugins s)) as [info|]; [|repeat split].
  destruct (negb (enabled info)); [repeat split|].
  pose proof (run_init_registry (default [] (p_init (instance info))) s) as Hi.
  destruct (run_init _ s) as [s1|[m s1]]; [|exact Hi].
  set (s2 := match p_hooks (instance info) with
             | Some hs => registerHooks name hs s1
             | None => s1
             end).
  assert (H2 : same_registry s s2)
    by (unfold s2; destruct (p_hooks (instance info)); exact Hi).
  destruct (p_commands (instance info)) as [cs|]; [|exact H2].
  pose proof (registerCommands_registry fuel name cs s2) as Hc.
  destruct (registerCommands fuel name cs s2) as [s3 ev]. simpl in *.
  destruct H2 as (A & B & C), Hc as (A' & B' & C').
  repeat split; simpl; congruence.
Qed.

Lemma initialize_each_registry (fuel : nat) (names : list string) (s : system) :
  same_registry s (fst (initialize_each fuel names s)).
Proof.
  revert s. induction names as [|n names IH]; intros s; simpl; [repeat split|].
  pose proof (initializePlugin_registry fuel n s) as Hi.
  destruct (initializePlugin fuel n s) as [[b s1] ev1].
  specialize (IH s1). destruct (initialize_each fuel names s1) as [s2 ev2].
  simpl in *. unfold sys_of in Hi. simpl in Hi.
  destruct Hi as (A & B & C), IH as (A' & B' & C'). repeat split; congruence.
Qed.

Lemma deps_wf_same (s s' : system) :
  plugins s' = plugins s -> dependencies s' = dependencies s ->
  deps_wf s -> deps_wf s'.
Proof.
  intros Hp Hd H n ds. unfold has_plugin. rewrite Hp, Hd. apply H.
Qed.

Lemma assoc_map_set {V : Type} (k k' : string) (v : V) (l : list (string * V)) :
  Js.assoc k' (map_set k v l) = if String.eqb k' k then Some v else Js.assoc k' l.
Proof.
  unfold map_set. induction l as [|[k0 v0] l IH]; simpl.
  - reflexivity.
  - destruct (String.eqb_spec k k0) as [->|Hne]; simpl.
    + destruct (String.eqb k' k0); reflexivity.
    + rewrite IH. destruct (String.eqb_spec k' k0) as [->|Hne'].
      * destruct (String.eqb_spec k0 k); [congruence | reflexivity].
      * reflexivity.
Qed.

Lemma assoc_map_delete {V : Type} (k k' : string) (l : list (string * V)) :
  k' <> k -> Js.assoc k' (map_delete k l) = Js.assoc k' l.
Proof.
  intros Hne. unfold map_delete. induction l as [|[k0 v0] l IH]; simpl; [reflexivity|].
  destruct (String.eqb_spec k k0) as [->|Hk]; simpl.
  - destruct (String.eqb_spec k' k0); [congruence | exact IH].
  - rewrite IH. reflexivity.
Qed.

Lemma assoc_set_enabled (name k : string) (b : bool) (l : list (string * plugin_info)) :
  Js.assoc k (set_enabled name b l) = None <-> Js.assoc k l = None.
Proof.
  induction l as [|[k0 v0] l IH]; simpl; [tauto|].
  destruct (String.eqb_spec name k0) as [->|Hne]; simpl.
  - destruct (String.eqb k k0); [split; discriminate | tauto].
  - destruct (String.eqb k k0); [split; discriminate | exact IH].
Qed.

Lemma reachable_deps_wf (s : system) : reachable s -> deps_wf s.
Proof.
  induction 1 as [|fuel name p opts s Hr IH|fuel name s Hr IH|fuel name s Hr IH
                  |fuel name b s Hr IH|owner hs s Hr IH|fuel s Hr IH].
  - intros n ds. simpl. rewrite lookup_empty. discriminate.
  - unfold register.
    destruct (has_plugin s name) eqn:Hp; [exact IH|].
    destruct (0 <? length _)%nat; [exact IH|].
    match goal with
    | |- context [initializePlugin fuel name ?s1] =>
        assert (H1 : deps_wf s1);
        [| pose proof (initializePlugin_registry fuel name s1) as (A & B & _);
           destruct (initializePlugin fuel name s1) as [[b s2] ev];
           destruct (_ && _); [exact (deps_wf_same _ _ A B H1) | exact H1] ]
    end.
    intros n ds. unfold has_plugin. simpl. rewrite assoc_map_set.
    destruct (String.eqb_spec n name) as [->|Hne]; [reflexivity|].
    destruct (o_dependencies opts) as [deps|].
    + rewrite lookup_insert_ne by congruence. apply IH.
    + apply IH.
  - unfold unregister, sys_of.
    destruct (Js.assoc name (plugins s)); [|exact IH].
    intros n ds. unfold has_plugin. simpl.
    destruct (decide (n = name)) as [->|Hne].
    + rewrite lookup_delete_eq. discriminate.
    + rewrite lookup_delete_ne by congruence. rewrite assoc_map_delete by exact Hne.
      apply IH.
  - pose proof (initializePlugin_registry fuel name s) as (A & B & _).
    exact (deps_wf_same _ _ A B IH).
  - unfold setPluginEnabled, sys_of.
    destruct (Js.assoc name (plugins s)); [|exact IH].
    intros n ds Hd. simpl in Hd. specialize (IH n ds Hd).
    unfold has_plugin in *. simpl.
    destruct (Js.assoc n (set_enabled name b (plugins s))) eqn:E; [reflexivity|].
    apply assoc_set_enabled in E. rewrite E in IH. discriminate.
  - exact IH.
  - unfold initializeAll.
    destruct (initialized s); [exact IH|].
    destruct (determineLoadOrder fuel s) as [l| |]; try exact IH.
    pose proof (initialize_each_registry fuel l (set_load_order l s)) as (A & B & _).
    destruct (initialize_each fuel l (set_load_order l s)) as [s1 ev]. simpl in *.
    exact (deps_wf_same s (set_initialized s1) A B IH).
Qed.

(** A registry before [initializeAll], three plugins depending on one
    another in a circle: [a] was registered, then [b] on [a] and [c] on [b];
    [a] was withdrawn and registered again, this time depending on [c]. *)
Definition circle_from (s : system) : system :=
  sys_of (register 1 "a" plain (depends_on ["c"])
    (sys_of (unregister 1 "a"
      (sys_of (register 1 "c" plain (depends_on ["b"])
        (sys_of (register 1 "b" plain (depends_on ["a"])
          (sys_of (register 1 "a" plain no_options s))))))))).

Definition circle : system := circle_from new_system.

(** The same registrations made after [initializeAll] has run. *)
Definition late_circle : system :=
  circle_from (snd (fst (initializeAll 1 new_system))).

Lemma circle_reachable : reachable circle.
Proof. repeat constructor. Qed.

Lemma late_circle_reachable : reachable late_circle.
Proof. repeat constructor. Qed.

Lemma circle_edges (s : system) :
  dependencies s = dependencies circle -> tc (edge (dependencies s)) "a" "a".
Proof.
  intros H. rewrite H.
  eapply tc_l; [exists ["c"]; split; [reflexivity | left; reflexivity]|].
  eapply tc_l; [exists ["b"]; split; [reflexivity | left; reflexivity]|].
  apply tc_once. exists ["a"]. split; [reflexivity | left; reflexivity].
Qed.

(** C7: on a registry that [initializeAll] has not yet processed and whose
    dependencies hold a cycle, [initializeAll] throws the circular-dependency
    error, naming a plugin that the traversal met again while it was still on
    its stack (a plugin that lies on a cycle), and it initializes nothing: the
    plugin system is left as it was. *)
Theorem initializeAll_rejects_cycle (fuel : nat) (s : system) :
  reachable s ->
  initialized s = false ->
  (exists n, tc (edge (dependencies s)) n n) ->
  size (names_of s) < fuel ->
  exists n,
    initializeAll fuel s = (Threw (circular_message n), s, [])
    /\ tc (edge (dependencies s)) n n.
Proof.
  intros Hr Hi Hc Hf. unfold initializeAll. rewrite Hi.
  destruct (determineLoadOrder_cycle fuel s (reachable_deps_wf s Hr) Hc Hf) as (n & -> & Hn).
  exists n. split; [reflexivity | exact Hn].
Qed.

Lemma initializeAll_rejects_cycle_witness :
  exists n, initializeAll 4 circle = (Threw (circular_message n), circle, []).
Proof.
  destruct (initializeAll_rejects_cycle 4 circle circle_reachable) as (n & H & _).
  - reflexivity.
  - exists "a". apply circle_edges. reflexivity.
  - vm_compute. lia.
  - exists n. exact H.
Defined.

(** C7 does not hold once [initializeAll] has run: the registry holds a
    cycle of three plugins, each initialized when it was registered, and
    [initializeAll] returns with a warning instead of failing. *)
Lemma initializeAll_cycle_after_initialization :
  reachable late_circle
  /\ tc (edge (dependencies late_circle)) "a" "a"
  /\ (forall fuel,
        initializeAll fuel late_circle = (Returned, late_circle, [WarnAlreadyInitialized]))
  /\ st_status <$> pluginStates late_circle !! "a" = Some Initialized
  /\ st_status <$> pluginStates late_circle !! "b" = Some Initialized
  /\ st_status <$> pluginStates late_circle !! "c" = Some Initialized
  /\ ~ (exists fuel m, fst (fst (initializeAll fuel late_circle)) = Threw m).
Proof.
  split; [exact late_circle_reachable|].
  split; [apply circle_edges; reflexivity|].
  split; [intros fuel; reflexivity|].
  repeat split; try reflexivity.
  intros (fuel & m & H). discriminate H.
Qed.

(** *** Where a new subscriber lands *)

Lemma insert_hook_front (x : hook_entry) (l : list hook_entry) :
  List.Forall (fun y => (priority x <= priority y)%Z) l -> insert_hook x l = x :: l.
Proof.
  destruct l as [|y l]; simpl; [reflexivity|]. intros H.
  apply List.Forall_inv in H. apply Z.leb_le in H. rewrite H. reflexivity.
Qed.

Lemma filter_all_later (x : hook_entry) (l : list hook_entry) :
  List.Forall (fun y => (priority x < priority y)%Z) l ->
  List.filter (fun y => (priority y <=? priority x)%Z) l = []
  /\ List.filter (fun y => negb (priority y <=? priority x)%Z) l = l.
Proof.
  induction l as [|y l IH]; simpl; intros H; [auto|].
  pose proof (List.Forall_inv H) as Hy. apply List.Forall_inv_tail in H.
  destruct (IH H) as [-> ->].
  assert (E : (priority y <=? priority x)%Z = false) by (apply Z.leb_gt; exact Hy).
  rewrite E. auto.
Qed.

Lemma sort_hooks_snoc (x : hook_entry) (l : list hook_entry) :
  ascending l ->
  sort_hooks (l ++ [x])
  = List.filter (fun y => (priority y <=? priority x)%Z) l
    ++ x :: List.filter (fun y => negb (priority y <=? priority x)%Z) l.
Proof.
  unfold ascending, sort_hooks. induction l as [|y l IH]; intros H; [reflexivity|].
  apply StronglySorted_inv in H. destruct H as [Hs Hall].
  cbn [app fold_right]. rewrite (IH Hs). cbn [List.filter].
  destruct (priority y <=? priority x)%Z eqn:E; cbn [negb app].
  - apply Z.leb_le in E. apply insert_hook_front.
    apply List.Forall_app. split.
    + rewrite List.Forall_forall in Hall |- *. intros z Hz.
      apply List.filter_In in Hz. apply Hall. tauto.
    + constructor; [exact E|].
      rewrite List.Forall_forall in Hall |- *. intros z Hz.
      apply List.filter_In in Hz. apply Hall. tauto.
  - apply Z.leb_gt in E.
    destruct (filter_all_later x l) as [-> ->].
    + rewrite List.Forall_forall in Hall |- *. intros z Hz. specialize (Hall z Hz). lia.
    + simpl. assert (E' : (priority y <=? priority x)%Z = false) by (apply Z.leb_gt; exact E).
      rewrite E'. rewrite insert_hook_front by exact Hall. reflexivity.
Qed.

(** A new subscriber is placed after every subscriber of the hook whose
    stored priority is not greater than its own, and before all the others:
    among equal priorities the order of registration is the order of the
    calls. *)
Theorem registerHooks_places_subscriber (owner hookName : string) (f : hook_fn)
    (s : system) :
  reachable s ->
  let hs := default [] (hooks s !! hookName) in
  let entry := {| plugin := owner; function := f; priority := stored_priority f |} in
  hooks (registerHooks owner [(hookName, f)] s) !! hookName
  = Some (List.filter (fun y => (priority y <=? stored_priority f)%Z) hs
          ++ entry :: List.filter (fun y => negb (priority y <=? stored_priority f)%Z) hs).
Proof.
  intros Hr hs entry. unfold registerHooks, registerHook. simpl.
  rewrite lookup_insert_eq. f_equal. fold hs.
  apply (sort_hooks_snoc entry hs).
  unfold hs. destruct (hooks s !! hookName) as [l|] eqn:E; simpl.
  - exact (reachable_sorted s Hr hookName l E).
  - constructor.
Qed.

Lemma registerHooks_places_subscriber_witness :
  map (fun h => fn_id (function h))
    (default [] (hooks (registerHooks "audit" [("save", reporter)] persistence_system)
                 !! "save"))
  = [1; 2; 3; 5; 4].
Proof.
  rewrite (registerHooks_places_subscriber "audit" "save" reporter persistence_system
             persistence_system_reachable).
  reflexivity.
Defined.

(** *** Registration *)

(** A plugin that names a dependency which is not registered is refused,
    and the plugin system stays as it was; the report lists exactly the
    dependencies that are missing. *)
Theorem register_refuses_missing_dependency (fuel : nat) (name d : string)
    (p : plugin_instance) (opts : plugin_options) (deps : list string) (s : system) :
  has_plugin s name = false ->
  o_dependencies opts = Some deps ->
  In d deps ->
  has_plugin s d = false ->
  exists missing,
    register fuel name p opts s = (false, s, [ErrorMissingDependencies name missing])
    /\ forall m, In m missing <-> In m deps /\ has_plugin s m = false.
Proof.
  intros Hn Ho Hd Hm. unfold register. rewrite Hn, Ho.
  set (missing := List.filter (fun d => negb (has_plugin s d)) deps).
  assert (Hin : forall m, In m missing <-> In m deps /\ has_plugin s m = false).
  { intros m. unfold missing. rewrite List.filter_In, Bool.negb_true_iff. tauto. }
  assert (Hlen : (0 <? length missing)%nat = true).
  { apply Nat.ltb_lt. destruct missing as [|m ms]; simpl; [|lia].
    exfalso. apply (Hin d). auto. }
  rewrite Hlen. exists missing. auto.
Qed.

Lemma register_refuses_missing_dependency_witness :
  exists missing,
    register 1 "sync" plain (depends_on ["persistence"; "network"]) persistence_system
    = (false, persistence_system, [ErrorMissingDependencies "sync" missing])
    /\ In "network" missing /\ ~ In "persistence" missing.
Proof.
  destruct (register_refuses_missing_dependency 1 "sync" "network" plain
              (depends_on ["persistence"; "network"]) ["persistence"; "network"]
              persistence_system) as (missing & H & Hin).
  - reflexivity.
  - reflexivity.
  - right. left. reflexivity.
  - reflexivity.
  - exists missing. split; [exact H|]. split.
    + apply Hin. split; [right; left; reflexivity | reflexivity].
    + intros Hp. apply Hin in Hp. destruct Hp as [_ Hp]. discriminate Hp.
Defined.

Lemma keys_map_set_fresh {V : Type} (k : string) (v : V) (l : list (string * V)) :
  Js.assoc k l = None -> map fst (map_set k v l) = map fst l ++ [k].
Proof.
  intros H. unfold map_set. rewrite Js.assoc_set_fresh.
  - rewrite map_app. reflexivity.
  - intros Hin. apply Js.assoc_keys in Hin. exact (Hin H).
Qed.

(** Before [initializeAll] has run, a plugin with a new name whose
    dependencies are all registered is added at the end of the registry,
    enabled, in the state [registered], with its dependencies recorded; the
    plugins already there and every hook list stay as they are. *)
Theorem register_adds_plugin (fuel : nat) (name : string) (p : plugin_instance)
    (opts : plugin_options) (s : system) :
  has_plugin s name = false ->
  (forall d, In d (default [] (o_dependencies opts)) -> has_plugin s d = true) ->
  initialized s = false ->
  exists s',
    register fuel name p opts s = (true, s', [LogRegistered name])
    /\ map fst (plugins s') = map fst (plugins s) ++ [name]
    /\ (instance <$> Js.assoc name (plugins s')) = Some p
    /\ isPluginEnabled s' name = true
    /\ pluginStates s' !! name = Some {| st_status := Registered; st_error := None |}
    /\ default [] (dependencies s' !! name)
       = default (default [] (dependencies s !! name)) (o_dependencies opts)
    /\ (forall n, n <> name -> Js.assoc n (plugins s') = Js.assoc n (plugins s))
    /\ hooks s' = hooks s.
Proof.
  intros Hn Hd Hi. unfold register. rewrite Hn.
  assert (Hmiss : match o_dependencies opts with
                  | Some deps => List.filter (fun d => negb (has_plugin s d)) deps
                  | None => []
                  end = []).
  { destruct (o_dependencies opts) as [deps|]; [|reflexivity]. simpl in Hd.
    induction deps as [|d deps IH]; [reflexivity|]. simpl.
    rewrite (Hd d (or_introl eq_refl)). simpl. apply IH.
    intros d' Hd'. apply Hd. right. exact Hd'. }
  rewrite Hmiss. cbn [length Nat.ltb Nat.leb initialized]. rewrite Hi. cbn [andb].
  eexists. split; [reflexivity|]. cbn [plugins pluginStates dependencies hooks].
  unfold has_plugin in Hn.
  destruct (Js.assoc name (plugins s)) eqn:E; [discriminate|].
  repeat split.
  - apply keys_map_set_fresh. exact E.
  - rewrite assoc_map_set, String.eqb_refl. reflexivity.
  - unfold isPluginEnabled. cbn [plugins]. rewrite assoc_map_set, String.eqb_refl.
    reflexivity.
  - apply lookup_insert_eq.
  - destruct (o_dependencies opts) as [deps|]; simpl.
    + rewrite lookup_insert_eq. reflexivity.
    + reflexivity.
  - intros n Hne. rewrite assoc_map_set.
    destruct (String.eqb_spec n name); [contradiction | reflexivity].
Qed.

Lemma register_adds_plugin_witness :
  exists s',
    register 1 "sync" plain (depends_on ["persistence"]) persistence_system
    = (true, s', [LogRegistered "sync"])
    /\ map fst (plugins s') = ["persistence"; "error-tracking"; "sync"].
Proof.
  destruct (register_adds_plugin 1 "sync" plain (depends_on ["persistence"])
              persistence_system) as (s' & H1 & H2 & _); try reflexivity.
  - intros d [<- | []]. reflexivity.
  - exists s'. split; [exact H1 | exact H2].
Defined.

(** *** Withdrawal *)

(** [getStatus(name)], without the time stamps: the recorded state, or
    [not-registered]. *)
Definition getStatus (s : system) (name : string) : option status :=
  st_status <$> pluginStates s !! name.

(** Unregistering a plugin removes it from the registry together with its
    state, its own dependency list and every subscription it owns; the other
    plugins, and their subscriptions in the order they had, stay, and so do
    the dependency lists that name the plugin withdrawn. *)
Theorem unregister_forgets_plugin (fuel : nat) (name : string) (s : system) :
  has_plugin s name = true ->
  exists s' ev,
    unregister fuel name s = (true, s', ev)
    /\ has_plugin s' name = false
    /\ getStatus s' name = None
    /\ dependencies s' !! name = None
    /\ (forall hookName hs, hooks s' !! hookName = Some hs ->
          forall h, In h hs -> plugin h <> name)
    /\ (forall hookName,
          hooks s' !! hookName
          = List.filter (fun h => negb (String.eqb (plugin h) name)) <$> hooks s !! hookName)
    /\ (forall n, n <> name ->
          Js.assoc n (plugins s') = Js.assoc n (plugins s)
          /\ pluginStates s' !! n = pluginStates s !! n
          /\ dependencies s' !! n = dependencies s !! n).
Proof.
  intros Hn. unfold unregister. unfold has_plugin in Hn.
  destruct (Js.assoc name (plugins s)) as [info|] eqn:E; [|discriminate].
  eexists. eexists. split; [reflexivity|].
  cbn [plugins hooks pluginStates dependencies]. unfold getStatus.
  cbn [pluginStates]. repeat split.
  - unfold has_plugin. cbn [plugins].
    destruct (Js.assoc name (map_delete name (plugins s))) eqn:E'; [|reflexivity].
    exfalso. apply Js.assoc_In in E'. unfold map_delete in E'.
    apply List.filter_In in E'. destruct E' as [_ E']. simpl in E'.
    rewrite String.eqb_refl in E'. discriminate.
  - rewrite lookup_delete_eq. reflexivity.
  - apply lookup_delete_eq.
  - intros hookName hs Hh h Hin. rewrite lookup_fmap in Hh.
    destruct (hooks s !! hookName) as [l|]; [|discriminate].
    injection Hh as <-. apply List.filter_In in Hin. destruct Hin as [_ Hin].
    apply Bool.negb_true_iff in Hin. intros Heq. rewrite Heq, String.eqb_refl in Hin.
    discriminate.
  - intros hookName. apply lookup_fmap.
  - apply assoc_map_delete. assumption.
  - apply lookup_delete_ne. congruence.
  - apply lookup_delete_ne. congruence.
Qed.

Lemma unregister_forgets_plugin_witness :
  exists s' ev,
    unregister 1 "persistence" persistence_system = (true, s', ev)
    /\ hooks s' !! "save" = Some []
    /\ map fst (plugins s') = ["error-tracking"].
Proof.
  destruct (unregister_forgets_plugin 1 "persistence" persistence_system)
    as (s' & ev & H & _ & _ & _ & _ & Hh & _).
  - reflexivity.
  - exists s', ev. split; [exact H|]. split.
    + rewrite Hh. reflexivity.
    + injection H as <- _. reflexivity.
Defined.

(** *** Disabled plugins *)

Definition owner_of (r : result) : string :=
  match r with Result o _ _ _ => o end.

Lemma isPluginEnabled_set_enabled (name n : string) (b : bool)
    (l : list (string * plugin_info)) :
  Js.assoc name l <> None ->
  match Js.assoc n (set_enabled name b l) with
  | Some info => enabled info
  | None => false
  end
  = if String.eqb n name then b
    else match Js.assoc n l with Some info => enabled info | None => false end.
Proof.
  induction l as [|[k info] l IH]; simpl; intros H; [congruence|].
  destruct (String.eqb_spec name k) as [->|Hne]; simpl.
  - destruct (String.eqb n k); reflexivity.
  - destruct (String.eqb_spec n k) as [->|Hnk].
    + destruct (String.eqb_spec k name); [congruence | reflexivity].
    + apply IH. exact H.
Qed.

(** Once a plugin is disabled, no emission calls its subscribers, while the
    subscribers of the other plugins are called as before; and the plugin
    can no longer be initialized.  Its subscriptions stay in the table. *)
Theorem disabled_plugin_is_skipped (fuel fuel' : nat) (name hookName : string)
    (args : list string) (hs : list hook_entry) (s : system) :
  has_plugin s name = true ->
  hooks s !! hookName = Some hs ->
  let s' := sys_of (setPluginEnabled fuel name false s) in
  hooks s' = hooks s
  /\ isPluginEnabled s' name = false
  /\ executeHook (S fuel') s' hookName args
     = Ran (map (call (executeHook fuel' s' "hook:error") hookName args)
              (List.filter (fun h => isPluginEnabled s (plugin h)
                                     && negb (String.eqb (plugin h) name)) hs))
  /\ initializePlugin fuel' name s' = (false, s', []).
Proof.
  intros Hn Hh s'. unfold has_plugin in Hn.
  assert (Hs' : hooks s' = hooks s /\ plugins s' = set_enabled name false (plugins s)).
  { unfold s', setPluginEnabled, sys_of.
    destruct (Js.assoc name (plugins s)); [split; reflexivity | discriminate]. }
  destruct Hs' as [H1 H2].
  assert (Hen : forall n, isPluginEnabled s' n
                          = if String.eqb n name then false else isPluginEnabled s n).
  { intros n. unfold isPluginEnabled. rewrite H2.
    apply isPluginEnabled_set_enabled.
    destruct (Js.assoc name (plugins s)); [discriminate | discriminate]. }
  assert (Hoff : isPluginEnabled s' name = false)
    by (rewrite Hen, String.eqb_refl; reflexivity).
  repeat split.
  - exact H1.
  - exact Hoff.
  - cbn [executeHook]. rewrite H1, Hh, omap_run_hook. do 2 f_equal.
    apply List.filter_ext. intros h. rewrite Hen.
    destruct (String.eqb (plugin h) name); simpl;
      [rewrite andb_false_r | rewrite andb_true_r]; reflexivity.
  - unfold initializePlugin. unfold isPluginEnabled in Hoff.
    destruct (Js.assoc name (plugins s')) as [info|]; [|reflexivity].
    rewrite Hoff. reflexivity.
Qed.

Lemma disabled_plugin_is_skipped_witness :
  executeHook 1 (sys_of (setPluginEnabled 1 "persistence" false persistence_system))
    "save" []
  = Ran [].
Proof.
  destruct (disabled_plugin_is_skipped 1 0 "persistence" "save" []
              (default [] (hooks persistence_system !! "save")) persistence_system)
    as (_ & _ & H & _).
  - reflexivity.
  - reflexivity.
  - rewrite H. reflexivity.
Defined.

(** *** [initializeAll] runs once *)

(** After [initializeAll] has returned, calling it again only warns. *)
Theorem initializeAll_only_once (fuel fuel' : nat) (s s' : system) (ev : list event) :
  initializeAll fuel s = (Returned, s', ev) ->
  initializeAll fuel' s' = (Returned, s', [WarnAlreadyInitialized]).
Proof.
  unfold initializeAll at 1.
  destruct (initialized s) eqn:Hi.
  - intros [= <- _]. unfold initializeAll. rewrite Hi. reflexivity.
  - destruct (determineLoadOrder fuel s) as [l| |]; try discriminate.
    destruct (initialize_each fuel l (set_load_order l s)) as [s1 ev1].
    intros [= <- _]. reflexivity.
Qed.

Lemma initializeAll_only_once_witness :
  initializeAll 0 (snd (fst (initializeAll 3 persistence_system)))
  = (Returned, snd (fst (initializeAll 3 persistence_system)), [WarnAlreadyInitialized]).
Proof.
  apply (initializeAll_only_once 3 0 persistence_system _
           (snd (initializeAll 3 persistence_system))).
  reflexivity.
Defined.

(** *** The load order of a registry without cycles *)

(** [x] comes before [n] in [l]. *)
Definition before (x n : string) (l : list string) : Prop :=
  exists l1 l2, l = l1 ++ n :: l2 /\ In x l1.

Lemma before_app (x n : string) (l ext : list string) :
  before x n l -> before x n (l ++ ext).
Proof.
  intros (l1 & l2 & -> & Hx). exists l1, (l2 ++ ext). split; [|exact Hx].
  rewrite <- app_assoc. reflexivity.
Qed.

Section Topological.
Variable deps : gmap string (list string).
Variable universe : gset string.
Hypothesis universe_closed : forall n x, edge deps n x -> x ∈ universe.

(** The order built so far lists what has been visited, once each, every
    plugin after the plugins it depends on. *)
Definition listed (d : dfs) : Prop :=
  (forall x, In x (order d) <-> x ∈ visited d)
  /\ List.NoDup (order d)
  /\ (forall n x, In n (order d) -> edge deps n x -> before x n (order d)).

Lemma visit_each_listed (v : string -> dfs -> visit_result) (ds : list string) :
  (forall x d d', v x d = Visited d' -> settled deps d -> settled deps d' /\ (listed d -> listed d')) ->
  forall d d', visit_each v ds d = Visited d' -> settled deps d -> listed d -> listed d'.
Proof.
  intros Hv. induction ds as [|x ds IH]; intros d d' H Hs Hl; simpl in H.
  - injection H as <-. exact Hl.
  - destruct (v x d) as [d1| |] eqn:E; try discriminate.
    destruct (Hv x d d1 E Hs) as [Hs1 Hl1]. exact (IH d1 d' H Hs1 (Hl1 Hl)).
Qed.

Lemma visit_listed (fuel : nat) (name : string) (d d' : dfs) :
  visit deps fuel name d = Visited d' -> settled deps d -> listed d -> listed d'.
Proof.
  revert name d d'. induction fuel as [|fuel IH]; intros name d d' H Hs Hl; [discriminate|].
  cbn [visit] in H.
  destruct (bool_decide (name ∈ temp d)) eqn:Et; [discriminate|].
  apply bool_decide_eq_false in Et.
  destruct (bool_decide (name ∈ visited d)) eqn:Ev; [injection H as <-; exact Hl|].
  apply bool_decide_eq_false in Ev.
  set (d1 := {| visited := visited d; temp := {[name]} ∪ temp d; order := order d |}) in *.
  assert (Hs1 : settled deps d1).
  { destruct Hs as (C & A & D). repeat split; [exact C | exact A |].
    unfold d1; simpl. set_solver. }
  assert (Hl1 : listed d1) by exact Hl.
  destruct (visit_each (visit deps fuel) (default [] (deps !! name)) d1) as [d2| |] eqn:E;
    try discriminate.
  destruct (visit_each_advances _ _ (fun x a b _ Hx => visit_advances deps fuel x a b Hx)
              d1 d2 E) as (T & S & M).
  pose proof (visit_each_settled deps _ _ (fun x a b => visit_settled deps universe universe_closed fuel x a b)
                d1 d2 E Hs1) as (C & A & D).
  assert (Hl2 : listed d2).
  { apply (visit_each_listed (visit deps fuel) (default [] (deps !! name))) with (d := d1);
      [|exact E | exact Hs1 | exact Hl1].
    intros x a b Hx Ha. split; [exact (visit_settled deps universe universe_closed fuel x a b Hx Ha)|].
    exact (IH x a b Hx Ha). }
  assert (Hin : name ∈ temp d2) by (rewrite T; unfold d1; simpl; set_solver).
  assert (Hnv : name ∉ visited d2) by set_solver.
  destruct Hl2 as (L1 & L2 & L3).
  injection H as <-. unfold listed. simpl. repeat split.
  - rewrite in_app_iff. intros [Hx | [<- | []]]; [apply L1 in Hx|]; set_solver.
  - intros Hx. rewrite in_app_iff. apply elem_of_union in Hx. destruct Hx as [Hx | Hx].
    + apply elem_of_singleton in Hx. subst x. right. left. reflexivity.
    + left. apply L1. exact Hx.
  - apply List.NoDup_app; [exact L2 | repeat constructor; intros [] | ].
    intros x Hx [<- | []]. apply Hnv. apply L1. exact Hx.
  - intros n x Hn He. rewrite in_app_iff in Hn. destruct Hn as [Hn | [<- | []]].
    + apply before_app. exact (L3 n x Hn He).
    + exists (order d2), []. split; [reflexivity|]. apply L1. apply M.
      destruct He as (ds & Hds & Hx). rewrite Hds. exact Hx.
Qed.

End Topological.

Lemma load_order_listed (fuel : nat) (s : system) :
  (forall n, ~ tc (edge (dependencies s)) n n) ->
  size (names_of s) < fuel ->
  exists l,
    determineLoadOrder fuel s = Order l
    /\ List.NoDup l
    /\ (forall n, has_plugin s n = true -> In n l)
    /\ (forall n x, In n l -> edge (dependencies s) n x -> before x n l).
Proof.
  intros Hac Hf. unfold determineLoadOrder.
  assert (Hroots : forall n, In n (map fst (plugins s)) -> n ∈ names_of s).
  { intros n Hn. unfold names_of. apply elem_of_union_l.
    apply elem_of_list_to_set, list_elem_of_In. exact Hn. }
  pose proof (roots_result (dependencies s) (names_of s) (edge_names s) fuel
                (map fst (plugins s)) Hroots Hf) as H.
  fold dfs_start.
  destruct (visit_each (visit_root (dependencies s) fuel) (map fst (plugins s)) dfs_start)
    as [d|n|] eqn:E.
  - assert (Hs0 : settled (dependencies s) dfs_start)
      by (repeat split; simpl; set_solver).
    assert (Hl0 : listed (dependencies s) dfs_start).
    { repeat split; simpl; try set_solver; try constructor. }
    assert (Hl : listed (dependencies s) d).
    { apply (visit_each_listed (dependencies s) (visit_root (dependencies s) fuel)
               (map fst (plugins s))) with (d := dfs_start);
        [|exact E | exact Hs0 | exact Hl0].
      intros x a b. unfold visit_root. destruct (bool_decide (x ∈ visited a)).
      - intros [= <-]. auto.
      - intros Hx Ha. split; [exact (visit_settled (dependencies s) (names_of s) (edge_names s) fuel x a b Hx Ha)|].
        exact (visit_listed (dependencies s) (names_of s) (edge_names s) fuel x a b Hx Ha). }
    destruct (visit_each_advances _ _
                (fun x a b _ Hx => visit_root_advances (dependencies s) fuel x a b Hx)
                dfs_start d E) as (_ & _ & M).
    destruct Hl as (L1 & L2 & L3).
    exists (order d). repeat split; [exact L2 | | exact L3].
    intros n Hn. apply L1. apply M. apply has_plugin_keys. exact Hn.
  - exfalso. exact (Hac n H).
  - contradiction.
Qed.

(** On a registry whose dependencies hold no cycle, [determineLoadOrder]
    ends with an order that names every registered plugin, names nothing
    twice, and puts every plugin after each of the plugins it depends on. *)
Theorem determineLoadOrder_dependencies_first (fuel : nat) (s : system) :
  (forall n, ~ tc (edge (dependencies s)) n n) ->
  size (names_of s) < fuel ->
  exists l,
    determineLoadOrder fuel s = Order l
    /\ List.NoDup l
    /\ (forall n, has_plugin s n = true -> In n l)
    /\ (forall n x, In n l -> edge (dependencies s) n x -> before x n l).
Proof. exact (load_order_listed fuel s). Qed.

(** A registry in which the order of registration is not an order of
    loading: [store] was registered, then [net] and [app] which depend on it;
    [store] was withdrawn and registered again, so that it now comes last. *)
Definition layered : system :=
  sys_of (register 1 "store" plain no_options
    (sys_of (unregister 1 "store"
      (sys_of (register 1 "app" plain (depends_on ["store"; "net"])
        (sys_of (register 1 "net" plain (depends_on ["store"])
          (sys_of (register 1 "store" plain no_options new_system))))))))).

Lemma layered_edges (n x : string) :
  edge (dependencies layered) n x ->
  (n = "app" /\ (x = "store" \/ x = "net")) \/ (n = "net" /\ x = "store").
Proof.
  intros (ds & Hds & Hx).
  destruct (decide (n = "app")) as [->|Ha].
  - left. split; [reflexivity|]. vm_compute in Hds. injection Hds as <-.
    simpl in Hx. intuition.
  - destruct (decide (n = "net")) as [->|Hn].
    + right. split; [reflexivity|]. vm_compute in Hds. injection Hds as <-.
      simpl in Hx. intuition.
    + exfalso. destruct (decide (n = "store")) as [->|Hs].
      * vm_compute in Hds. discriminate Hds.
      * unfold layered, sys_of in Hds. simpl in Hds.
        rewrite lookup_delete_ne in Hds by congruence.
        rewrite lookup_insert_ne in Hds by congruence.
        rewrite lookup_insert_ne in Hds by congruence.
        rewrite lookup_empty in Hds. discriminate.
Qed.

Lemma layered_acyclic (n : string) : ~ tc (edge (dependencies layered)) n n.
Proof.
  assert (Hstore : forall y, ~ tc (edge (dependencies layered)) "store" y).
  { intros y Hy. inversion Hy as [a b Hab|a b c Hab _]; subst;
      apply layered_edges in Hab; destruct Hab as [[Hab _]|[Hab _]]; discriminate Hab. }
  assert (Hnet : forall y, tc (edge (dependencies layered)) "net" y -> y = "store").
  { intros y Hy. inversion Hy as [a b Hab|a b c Hab Hbc]; subst;
      apply layered_edges in Hab; destruct Hab as [[Hab _]|[_ Hab]];
      try discriminate Hab; [exact Hab|].
    subst b. exfalso. exact (Hstore y Hbc). }
  intros Hc. inversion Hc as [a b Hab|a b c Hab Hbc]; subst.
  - apply layered_edges in Hab. destruct Hab as [[Hn [Hx|Hx]]|[Hn Hx]];
      rewrite Hn in Hx; discriminate Hx.
  - apply layered_edges in Hab. destruct Hab as [[Hn [Hx|Hx]]|[Hn Hx]]; subst.
    + exact (Hstore "app" Hbc).
    + apply Hnet in Hbc. discriminate Hbc.
    + exact (Hstore "net" Hbc).
Qed.

Lemma determineLoadOrder_dependencies_first_witness :
  map fst (plugins layered) = ["net"; "app"; "store"]
  /\ determineLoadOrder 4 layered = Order ["store"; "net"; "app"].
Proof.
  destruct (determineLoadOrder_dependencies_first 4 layered layered_acyclic)
    as (l & H & _).
  - vm_compute. lia.
  - split; [reflexivity|]. rewrite H. vm_compute in H. injection H as <-. reflexivity.
Defined.

(** *** What [initializeAll] leaves behind *)

(** The operations that leave the states and the load order alone. *)
Definition same_states (s s' : system) : Prop :=
  pluginStates s' = pluginStates s /\ pluginLoadOrder s' = pluginLoadOrder s.

Lemma run_init_states (steps : list init_step) (s : system) :
  match run_init steps s with
  | inl s' => same_states s s'
  | inr (_, s') => same_states s s'
  end.
Proof.
  revert s. induction steps as [|st steps IH]; intros s; simpl.
  - split; reflexivity.
  - destruct st as [owner hs|m]; [|split; reflexivity].
    specialize (IH (registerHooks owner hs s)).
    destruct (run_init steps _) as [s'|[m s']]; exact IH.
Qed.

Lemma registerCommands_states (fuel : nat) (owner : string) (cs : list (string * nat))
    (s : system) :
  same_states s (fst (registerCommands fuel owner cs s)).
Proof.
  revert s. induction cs as [|[c f] cs IH]; intros s; simpl; [split; reflexivity|].
  specialize (IH (set_commands
                    (Some (<[(owner ++ ":" ++ c)%string := f]> (default ∅ (commands s)))) s)).
  destruct (registerCommands fuel owner cs _) as [s2 ev]. exact IH.
Qed.

(** The plugin has been through [initializePlugin]: it is [initialized], or
    its [init] failed. *)
Definition started (s : system) (n : string) : Prop :=
  exists st, pluginStates s !! n = Some st /\ st_status st <> Registered.

Lemma initializePlugin_states (fuel : nat) (name : string) (s : system) :
  let s' := sys_of (initializePlugin fuel name s) in
  pluginLoadOrder s' = pluginLoadOrder s
  /\ (isPluginEnabled s name = false -> s' = s)
  /\ (isPluginEnabled s name = true ->
        exists st, pluginStates s' = <[name := st]> (pluginStates s)
                   /\ st_status st <> Registered).
Proof.
  unfold initializePlugin, sys_of, isPluginEnabled.
  destruct (Js.assoc name (plugins s)) as [info|]; [|simpl; repeat split; discriminate].
  destruct (enabled info); simpl; [|repeat split; discriminate].
  pose proof (run_init_states (default [] (p_init (instance info))) s) as Hi.
  destruct (run_init _ s) as [s1|[m s1]].
  - set (s2 := match p_hooks (instance info) with
               | Some hs => registerHooks name hs s1
               | None => s1
               end).
    assert (H2 : same_states s s2)
      by (unfold s2; destruct (p_hooks (instance info)); exact Hi).
    assert (H3 : same_states s
                   (fst (match p_commands (instance info) with
                         | Some cs => registerCommands fuel name cs s2
                         | None => (s2, [])
                         end))).
    { destruct (p_commands (instance info)) as [cs|]; [|exact H2].
      pose proof (registerCommands_states fuel name cs s2) as (A & B).
      destruct H2 as (A' & B'). split; congruence. }
    destruct (match p_commands (instance info) with
              | Some cs => registerCommands fuel name cs s2
              | None => (s2, [])
              end) as [s3 ev]. simpl in *. destruct H3 as (A & B).
    repeat split; [exact B | discriminate |].
    intros _. eexists. split; [rewrite A; reflexivity | discriminate].
  - simpl. destruct Hi as (A & B).
    repeat split; [exact B | discriminate |].
    intros _. eexists. split; [rewrite A; reflexivity | discriminate].
Qed.

Lemma initializePlugin_keeps_started (fuel : nat) (name n : string) (s : system) :
  started s n -> started (sys_of (initializePlugin fuel name s)) n.
Proof.
  intros (st & Hst & Hne).
  destruct (initializePlugin_states fuel name s) as (_ & Hoff & Hon).
  destruct (isPluginEnabled s name) eqn:E.
  - destruct (Hon eq_refl) as (st' & Hs' & Hne'). unfold started. rewrite Hs'.
    destruct (decide (n = name)) as [->|Hd].
    + exists st'. rewrite lookup_insert_eq. auto.
    + exists st. rewrite lookup_insert_ne by congruence. auto.
  - rewrite (Hoff eq_refl). exists st. auto.
Qed.

Lemma initialize_each_started (fuel : nat) (names : list string) (s : system) :
  let s' := fst (initialize_each fuel names s) in
  pluginLoadOrder s' = pluginLoadOrder s
  /\ (forall n, started s n -> started s' n)
  /\ (forall n, In n names -> isPluginEnabled s n = true -> started s' n).
Proof.
  revert s. induction names as [|m names IH]; intros s; simpl.
  - repeat split; [auto | intros n []].
  - pose proof (initializePlugin_states fuel m s) as (L & _ & Hon).
    pose proof (fun n => initializePlugin_keeps_started fuel m n s) as Hk.
    pose proof (initializePlugin_registry fuel m s) as (P & _ & _).
    unfold sys_of in *.
    destruct (initializePlugin fuel m s) as [[b s1] ev1]. simpl in *.
    specialize (IH s1). destruct (initialize_each fuel names s1) as [s2 ev2].
    simpl in *. destruct IH as (L' & K' & S').
    repeat split.
    + congruence.
    + intros n Hn. apply K'. apply (Hk n). exact Hn.
    + intros n [<- | Hn] He.
      * apply K'. destruct (Hon He) as (st & Hs & Hne).
        exists st. rewrite Hs, lookup_insert_eq. auto.
      * apply S'; [exact Hn|]. unfold isPluginEnabled in *. rewrite P. exact He.
Qed.

(** On a registry without cycles [initializeAll] returns; it records the
    order it computed, sets the flag, and leaves no enabled plugin in the
    state [registered]: each has been initialized or has failed. *)
Theorem initializeAll_starts_every_plugin (fuel : nat) (s : system) :
  initialized s = false ->
  (forall n, ~ tc (edge (dependencies s)) n n) ->
  size (names_of s) < fuel ->
  exists l s' ev,
    initializeAll fuel s = (Returned, s', ev)
    /\ determineLoadOrder fuel s = Order l
    /\ pluginLoadOrder s' = l
    /\ initialized s' = true
    /\ plugins s' = plugins s
    /\ (forall n, isPluginEnabled s n = true ->
          exists st, pluginStates s' !! n = Some st /\ st_status st <> Registered).
Proof.
  intros Hi Hac Hf. unfold initializeAll. rewrite Hi.
  destruct (load_order_listed fuel s Hac Hf) as (l & Hl & _ & Hall & _).
  rewrite Hl.
  pose proof (initialize_each_started fuel l (set_load_order l s)) as (L & _ & S).
  pose proof (initialize_each_registry fuel l (set_load_order l s)) as (P & _ & _).
  destruct (initialize_each fuel l (set_load_order l s)) as [s1 ev]. simpl in *.
  eexists. eexists. eexists. split; [reflexivity|]. simpl.
  repeat split; try assumption.
  intros n Hn. apply S; [|exact Hn]. apply Hall.
  unfold isPluginEnabled in Hn. unfold has_plugin.
  destruct (Js.assoc n (plugins s)); [reflexivity | discriminate].
Qed.

Lemma initializeAll_starts_every_plugin_witness :
  exists s' ev,
    initializeAll 4 layered = (Returned, s', ev)
    /\ pluginLoadOrder s' = ["store"; "net"; "app"]
    /\ getStatus s' "app" = Some Initialized.
Proof.
  destruct (initializeAll_starts_every_plugin 4 layered eq_refl layered_acyclic)
    as (l & s' & ev & H & Hl & Ho & _).
  - vm_compute. lia.
  - exists s', ev. split; [exact H|]. split.
    + rewrite Ho. vm_compute in Hl. injection Hl as <-. reflexivity.
    + vm_compute in H. injection H as <- _. reflexivity.
Defined.

(** *** [destroy] *)

(** [destroy()]: every [cleanup] is called, failures are reported, and the
    four tables are cleared.  The result lists the failed cleanups. *)
Definition destroy (s : system) : system * list (string * string) :=
  ({| plugins := []; hooks := ∅; pluginStates := ∅; dependencies := ∅;
      pluginLoadOrder := pluginLoadOrder s; initialized := initialized s;
      commands := commands s |},
   omap (fun kv : string * plugin_info =>
           match p_cleanup (instance (snd kv)) with
           | Some (Throws m) => Some (fst kv, m)
           | _ => None
           end) (plugins s)).

(** [destroy] forgets every plugin and every subscription, but not that
    [initializeAll] has run: on the emptied system [initializeAll] only
    warns, and a plugin registered afterwards is initialized at once. *)
Theorem destroy_keeps_initialized (fuel : nat) (s : system) (name : string)
    (p : plugin_instance) :
  initialized s = true ->
  let s' := fst (destroy s) in
  (forall n, has_plugin s' n = false)
  /\ (forall hookName args, executeHook (S fuel) s' hookName args = NoSubscribers)
  /\ initializeAll fuel s' = (Returned, s', [WarnAlreadyInitialized])
  /\ started (sys_of (register fuel name p no_options s')) name.
Proof.
  intros Hi s'. split; [|split; [|split]].
  - intros n. reflexivity.
  - intros hookName args. cbn [executeHook]. unfold s'. simpl.
    rewrite lookup_empty. reflexivity.
  - unfold initializeAll, s'. simpl. rewrite Hi. reflexivity.
  - unfold register, s'. simpl. rewrite Hi. simpl.
    match goal with
    | |- context [initializePlugin fuel name ?s1] =>
        pose proof (initializePlugin_states fuel name s1) as (_ & _ & Hon);
        destruct (initializePlugin fuel name s1) as [[b s2] ev]
    end.
    unfold sys_of in *. simpl in *.
    destruct Hon as (st & Hs & Hne).
    + unfold isPluginEnabled. simpl. rewrite String.eqb_refl. reflexivity.
    + exists st. rewrite Hs, lookup_insert_eq. auto.
Qed.

Lemma destroy_keeps_initialized_witness :
  getStatus
    (sys_of (register 1 "late" plain no_options
               (fst (destroy (snd (fst (initializeAll 3 persistence_system)))))))
    "late"
  = Some Initialized.
Proof.
  destruct (destroy_keeps_initialized 1 (snd (fst (initializeAll 3 persistence_system)))
              "late" plain eq_refl) as (_ & _ & _ & st & Hs & Hne).
  unfold getStatus. rewrite Hs. vm_compute in Hs. injection Hs as <-. reflexivity.
Defined.

End Plugins.

(** ** The state store (vanijs.js, [VaniJS.useState]) *)
Module Store.

(** Values a screen keeps as state.  An object is the finite map of its own
    properties. *)
Inductive jsval :=
| JUndef
| JNull
| JBool (b : bool)
| JNum (z : Z)
| JNaN
| JStr (s : string)
| JObj (fields : gmap string jsval).

Definition falsy (v : jsval) : bool :=
  match v with
  | JUndef | JNull | JNaN => true
  | JBool b => negb b
  | JNum z => (z =? 0)%Z
  | JStr s => String.eqb s ""
  | JObj _ => false
  end.

(** The own enumerable properties of a string: its characters by index. *)
Fixpoint string_fields (i : nat) (s : string) : gmap string jsval :=
  match s with
  | EmptyString => ∅
  | String c s' => <[pretty i := JStr (String c "")]> (string_fields (S i) s')
  end.

(** The properties the spread [...v] copies into an object literal. *)
Definition spread (v : jsval) : gmap string jsval :=
  match v with
  | JObj m => m
  | JStr s => string_fields 0 s
  | _ => ∅
  end.

(** [{ ...oldState, ...newState }]: the later spread wins on common keys. *)
Definition merge (oldState newState : jsval) : jsval :=
  JObj (spread newState ∪ spread oldState).

(** The argument of the updater: a function ([typeof newState === 'function'])
    or any other value. *)
Inductive update :=
| ByFunction (f : jsval -> jsval)
| ByValue (v : jsval).

(** The argument of [useState]. *)
Inductive initial :=
| Producer (f : unit -> jsval)
| Value (v : jsval).

(** A plugin of the legacy table [vani.plugins], by the callbacks it has. *)
Record legacy_plugin := {
  onStateCreate : bool;
  onStateUpdate : bool
}.

Inductive event :=
| HookStateCreate (key : string) (v : jsval)
| HookStateUpdate (key : string) (oldState newState : jsval)
| PluginStateCreate (pluginName key : string) (v : jsval)
| PluginStateUpdate (pluginName key : string) (oldState newState : jsval)
| Rerender                                   (* router._handleRoute(rootElement) *)
| ErrorRouterNotInitialized.

(** The fields of the [vani] object that [useState] touches.  The keys of
    [state] all end in [_state], so none of them names an inherited
    property and [state] is read as a finite map. *)
Record vani := {
  state : gmap string jsval;
  currentComponent : option string;
  plugins : list (string * legacy_plugin);
  pluginSystem : bool;
  rootElement : bool;                         (* is vdom.rootElement set *)
  router : bool                               (* is vani.router set *)
}.

Definition set_state (m : gmap string jsval) (v : vani) : vani :=
  {| state := m; currentComponent := currentComponent v; plugins := plugins v;
     pluginSystem := pluginSystem v; rootElement := rootElement v; router := router v |}.

Definition state_key (componentName : string) : string :=
  (componentName ++ "_state")%string.

Definition read (v : vani) (key : string) : jsval := default JUndef (state v !! key).

Definition notify_create (v : vani) (key : string) (x : jsval) : list event :=
  (if pluginSystem v then [HookStateCreate key x] else [])
  ++ flat_map (fun p => if onStateCreate (snd p) then [PluginStateCreate (fst p) key x] else [])
       (plugins v).

Definition notify_update (v : vani) (key : string) (old new : jsval) : list event :=
  (if pluginSystem v then [HookStateUpdate key old new] else [])
  ++ flat_map (fun p => if onStateUpdate (snd p) then [PluginStateUpdate (fst p) key old new]
                        else [])
       (plugins v).

(** [updateComponent(this.currentComponent)], guarded by
    [if (this.currentComponent)]. *)
Definition rerender (v : vani) : list event :=
  match currentComponent v with
  | Some c =>
      if String.eqb c "" then []
      else if rootElement v then (if router v then [Rerender] else [ErrorRouterNotInitialized])
           else []
  | None => []
  end.

(** The updater [setState] that [useState] returns for the slot [key]. *)
Definition setState (key : string) (u : update) (v : vani) : vani * list event :=
  let oldState := read v key in
  let newState := match u with
                  | ByFunction f => f oldState
                  | ByValue x => merge oldState x
                  end in
  let v' := set_state (<[key := newState]> (state v)) v in
  (v', notify_update v' key oldState newState ++ rerender v').

Inductive use_result :=
| UseThrows                                   (* useState outside a component *)
| Use (value : jsval) (key : string) (v : vani) (ev : list event).

(** [useState(initialState)]: the current value and the slot of the updater. *)
Definition useState (i : initial) (v : vani) : use_result :=
  match currentComponent v with
  | None => UseThrows
  | Some c =>
      if String.eqb c "" then UseThrows
      else
        let key := state_key c in
        if falsy (read v key) then
          let x := match i with Producer f => f tt | Value x => x end in
          let v' := set_state (<[key := x]> (state v)) v in
          Use x key v' (notify_create v' key x)
        else Use (read v key) key v []
  end.

(** *** Facts *)

Lemma read_setState (key : string) (u : update) (v : vani) :
  read (fst (setState key u v)) key
  = match u with
    | ByFunction f => f (read v key)
    | ByValue x => merge (read v key) x
    end.
Proof. unfold setState, read. simpl. rewrite lookup_insert_eq. reflexivity. Qed.

Lemma setState_other (key key' : string) (u : update) (v : vani) :
  key' <> key -> read (fst (setState key u v)) key' = read v key'.
Proof.
  intros H. unfold setState, read. simpl. rewrite lookup_insert_ne by congruence.
  reflexivity.
Qed.

(** C9: on a slot that holds an object, the updater called with an object
    merges it into the old value: the fields of the argument are set, the
    other fields of the old value stay, so that the slot never holds the
    argument alone unless the old value adds nothing to it; called with a
    function it stores what the function makes of the old value. *)
Theorem setState_merges_objects (key : string) (old new : gmap string jsval)
    (f : jsval -> jsval) (v : vani) :
  state v !! key = Some (JObj old) ->
  read (fst (setState key (ByValue (JObj new)) v)) key = JObj (new ∪ old)
  /\ (forall k x, new !! k = Some x -> (new ∪ old) !! k = Some x)
  /\ (forall k x, new !! k = None -> old !! k = Some x -> (new ∪ old) !! k = Some x)
  /\ (forall k, new !! k = None -> old !! k = None -> (new ∪ old) !! k = None)
  /\ read (fst (setState key (ByFunction f) v)) key = f (JObj old).
Proof.
  intros H. rewrite !read_setState. unfold read. rewrite H. simpl.
  split; [reflexivity|]. split; [|split; [|split]].
  - intros k x Hk. apply lookup_union_Some_l. exact Hk.
  - intros k x Hn Ho. rewrite lookup_union_r by exact Hn. exact Ho.
  - intros k Hn Ho. apply lookup_union_None. split; assumption.
  - reflexivity.
Qed.

(** The screen [Profile] with the state [{a: 1}]. *)
Definition profile : vani :=
  {| state := {[ "Profile_state" := JObj {[ "a" := JNum 1 ]} ]};
     currentComponent := Some "Profile"; plugins := []; pluginSystem := true;
     rootElement := true; router := true |}.

Lemma setState_merges_objects_witness :
  read (fst (setState "Profile_state" (ByValue (JObj {[ "b" := JNum 2 ]})) profile))
    "Profile_state"
  = JObj ({[ "b" := JNum 2 ]} ∪ {[ "a" := JNum 1 ]})
  /\ ({[ "b" := JNum 2 ]} ∪ {[ "a" := JNum 1 ]} : gmap string jsval) !! "a" = Some (JNum 1)
  /\ ({[ "b" := JNum 2 ]} ∪ {[ "a" := JNum 1 ]} : gmap string jsval) !! "b" = Some (JNum 2)
  /\ ({[ "b" := JNum 2 ]} ∪ {[ "a" := JNum 1 ]} : gmap string jsval)
     = <["a" := JNum 1]> {[ "b" := JNum 2 ]}
  /\ ({[ "b" := JNum 2 ]} ∪ {[ "a" := JNum 1 ]} : gmap string jsval) <> {[ "b" := JNum 2 ]}
  /\ read (fst (setState "Profile_state" (ByFunction (fun _ => JObj {[ "b" := JNum 2 ]}))
                  profile)) "Profile_state"
     = JObj {[ "b" := JNum 2 ]}.
Proof.
  destruct (setState_merges_objects "Profile_state" {[ "a" := JNum 1 ]} {[ "b" := JNum 2 ]}
              (fun _ => JObj {[ "b" := JNum 2 ]}) profile)
    as (H1 & H2 & H3 & _ & H5).
  - reflexivity.
  - split; [exact H1|]. split; [apply H3; reflexivity|]. split; [apply H2; reflexivity|].
    split; [|split; [|exact H5]].
    + apply map_eq. intros k.
      destruct (decide (k = "a")) as [->|Ha]; [reflexivity|].
      destruct (decide (k = "b")) as [->|Hb]; [reflexivity|].
      rewrite lookup_insert_ne by congruence.
      rewrite lookup_union_r by (rewrite lookup_singleton_ne; congruence).
      rewrite !lookup_singleton_ne by congruence. reflexivity.
    + intros E. assert (Ha : ({[ "b" := JNum 2 ]} : gmap string jsval) !! "a" = Some (JNum 1))
        by (rewrite <- E; apply H3; reflexivity).
      discriminate Ha.
Defined.

(** *** One slot for each component *)

Definition initial_value (i : initial) : jsval :=
  match i with
  | Producer f => f tt
  | Value x => x
  end.

Lemma useState_empty_slot (c : string) (i : initial) (v : vani) :
  currentComponent v = Some c ->
  c <> "" ->
  falsy (read v (state_key c)) = true ->
  exists v' ev,
    useState i v = Use (initial_value i) (state_key c) v' ev
    /\ read v' (state_key c) = initial_value i
    /\ currentComponent v' = Some c.
Proof.
  intros Hc Hne Hf. unfold useState. rewrite Hc.
  destruct (String.eqb_spec c ""); [contradiction|]. rewrite Hf.
  destruct i; (eexists; eexists; split; [reflexivity|]);
    unfold read; simpl; rewrite lookup_insert_eq; auto.
Qed.

Lemma useState_full_slot (c : string) (i : initial) (v : vani) :
  currentComponent v = Some c ->
  c <> "" ->
  falsy (read v (state_key c)) = false ->
  useState i v = Use (read v (state_key c)) (state_key c) v [].
Proof.
  intros Hc Hne Hf. unfold useState. rewrite Hc.
  destruct (String.eqb_spec c ""); [contradiction|]. rewrite Hf. reflexivity.
Qed.

(** A component has one slot.  The first [useState] of a component fills it;
    a second [useState] in the same component returns what the first one
    stored and ignores its own initial value, unless that stored value is
    falsy ([0], the empty string, [false], [null]): then the second call
    overwrites it. *)
Theorem useState_shares_one_slot (c : string) (a b : initial) (v : vani) :
  currentComponent v = Some c ->
  c <> "" ->
  falsy (read v (state_key c)) = true ->
  exists v1 ev1,
    useState a v = Use (initial_value a) (state_key c) v1 ev1
    /\ (falsy (initial_value a) = false ->
          useState b v1 = Use (initial_value a) (state_key c) v1 [])
    /\ (falsy (initial_value a) = true ->
          exists v2 ev2,
            useState b v1 = Use (initial_value b) (state_key c) v2 ev2
            /\ read v2 (state_key c) = initial_value b).
Proof.
  intros Hc Hne Hf.
  destruct (useState_empty_slot c a v Hc Hne Hf) as (v1 & ev1 & H1 & Hr & Hc1).
  exists v1, ev1. split; [exact H1|]. split.
  - intros Ha. rewrite <- Hr. apply useState_full_slot; [exact Hc1 | exact Hne |].
    rewrite Hr. exact Ha.
  - intros Ha.
    destruct (useState_empty_slot c b v1 Hc1 Hne) as (v2 & ev2 & H2 & Hr2 & _).
    + rewrite Hr. exact Ha.
    + exists v2, ev2. auto.
Qed.

(** The screen [Counter], not yet rendered. *)
Definition counter : vani :=
  {| state := ∅; currentComponent := Some "Counter"; plugins := []; pluginSystem := false;
     rootElement := true; router := true |}.

Lemma useState_shares_one_slot_witness :
  exists v1 v2 ev1 ev2,
    useState (Value (JNum 0)) counter = Use (JNum 0) "Counter_state" v1 ev1
    /\ useState (Value (JStr "x")) v1 = Use (JStr "x") "Counter_state" v2 ev2.
Proof.
  destruct (useState_shares_one_slot "Counter" (Value (JNum 0)) (Value (JStr "x")) counter)
    as (v1 & ev1 & H1 & _ & H2).
  - reflexivity.
  - discriminate.
  - reflexivity.
  - destruct (H2 eq_refl) as (v2 & ev2 & H3 & _).
    exists v1, v2, ev1, ev2. split; [exact H1 | exact H3].
Defined.

(** An update by value always leaves an object in the slot, whatever the
    slot and the argument were: a number or [null] contributes no field, so
    a numeric state updated with a number becomes the empty object.  The
    slot is then never empty again for [useState]. *)
Theorem setState_by_value_stores_object (c : string) (x : jsval) (i : initial) (v : vani) :
  currentComponent v = Some c ->
  c <> "" ->
  let v' := fst (setState (state_key c) (ByValue x) v) in
  read v' (state_key c) = JObj (spread x ∪ spread (read v (state_key c)))
  /\ useState i v' = Use (read v' (state_key c)) (state_key c) v' []
  /\ (forall z z', read v (state_key c) = JNum z -> x = JNum z' ->
        read v' (state_key c) = JObj ∅).
Proof.
  intros Hc Hne v'.
  assert (Hr : read v' (state_key c) = JObj (spread x ∪ spread (read v (state_key c))))
    by (unfold v'; rewrite read_setState; reflexivity).
  split; [exact Hr|]. split.
  - apply useState_full_slot; [exact Hc | exact Hne | rewrite Hr; reflexivity].
  - intros z z' Hz ->. rewrite Hr, Hz. simpl. rewrite (left_id_L ∅ (∪)). reflexivity.
Qed.

Lemma setState_by_value_stores_object_witness :
  read (fst (setState "Counter_state" (ByValue (JNum 6))
               (set_state {[ "Counter_state" := JNum 5 ]} counter))) "Counter_state"
  = JObj ∅.
Proof.
  destruct (setState_by_value_stores_object "Counter" (JNum 6) (Value JNull)
              (set_state {[ "Counter_state" := JNum 5 ]} counter))
    as (_ & _ & H).
  - reflexivity.
  - discriminate.
  - apply (H 5%Z 6%Z); reflexivity.
Defined.

End Store.

(** ** The reconciler (vanijs.js: [createElement], [createDOM], [patch],
       [isVNodeChanged], [updateProperties], [render]) *)
Module VDom.

(** *** Values *)

(** Numbers, as far as the reconciler can tell them apart: it compares them
    with [!==], tests them for truth and prints them. *)
Inductive num :=
| NaN
| Num (z : Z).

(** Property values.  Functions and objects are compared by identity. *)
Inductive pval :=
| PUndef
| PNull
| PBool (b : bool)
| PNum (n : num)
| PStr (s : string)
| PFun (id : nat)
| PObj (id : nat) (fields : list (string * string))
| PInherited (name : string).     (* the member [name] of [Object.prototype] *)

Definition props := list (string * pval).

(** [a === b]. *)
Definition strict_eq (a b : pval) : bool :=
  match a, b with
  | PUndef, PUndef => true
  | PNull, PNull => true
  | PBool x, PBool y => Bool.eqb x y
  | PNum (Num x), PNum (Num y) => (x =? y)%Z
  | PStr x, PStr y => String.eqb x y
  | PFun i, PFun j => (i =? j)%nat
  | PObj i _, PObj j _ => (i =? j)%nat
  | PInherited x, PInherited y => String.eqb x y
  | _, _ => false
  end.

Definition nullish (v : pval) : bool :=
  match v with PUndef | PNull => true | _ => false end.

Definition truthy_val (v : pval) : bool :=
  match v with
  | PUndef | PNull => false
  | PBool b => b
  | PNum NaN => false
  | PNum (Num z) => negb (z =? 0)%Z
  | PStr s => negb (String.eqb s "")
  | PFun _ | PObj _ _ | PInherited _ => true
  end.

(** [typeof v === 'function']; of the inherited members only [__proto__] is
    not a function. *)
Definition is_function (v : pval) : bool :=
  match v with
  | PFun _ => true
  | PInherited n => negb (String.eqb n "__proto__")
  | _ => false
  end.

(** [typeof v === 'object']. *)
Definition is_object (v : pval) : bool :=
  match v with
  | PNull | PObj _ _ => true
  | PInherited n => String.eqb n "__proto__"
  | _ => false
  end.

(** [props[key]] on an object literal: the own property, or else what
    [Object.prototype] has under that name. *)
Definition prop (key : string) (p : props) : pval :=
  match Js.assoc key p with
  | Some v => v
  | None => if Js.mem key Js.object_prototype_names then PInherited key else PUndef
  end.

(** [Object.keys(props)]. *)
Definition keys (p : props) : list string := map fst (Js.entries p).

(** [{ ...oldProps, ...newProps }]. *)
Definition spread2 (oldProps newProps : props) : props :=
  fold_left (fun acc kv => Js.assoc_set (fst kv) (snd kv) acc) newProps oldProps.

(** *** Virtual nodes

    A node is a primitive or an object with a tag: the name of a host element
    or a component function, which is known by an identity and by the tree it
    returns for given properties.  The [key] of a node is its property [key]. *)
Inductive vnode :=
| VUndef
| VNull
| VBool (b : bool)
| VNum (n : num)
| VStr (s : string)
| VElement (tag : string) (p : props) (children : list vnode)
| VComponent (id : nat) (body : props -> vnode) (p : props) (children : list vnode).

Definition falsy (v : vnode) : bool :=
  match v with
  | VUndef | VNull => true
  | VBool b => negb b
  | VNum NaN => true
  | VNum (Num z) => (z =? 0)%Z
  | VStr s => String.eqb s ""
  | VElement _ _ _ | VComponent _ _ _ _ => false
  end.

Inductive jstype := TUndefined | TObject | TBoolean | TNumber | TString.

Definition typeof (v : vnode) : jstype :=
  match v with
  | VUndef => TUndefined
  | VNull | VElement _ _ _ | VComponent _ _ _ _ => TObject
  | VBool _ => TBoolean
  | VNum _ => TNumber
  | VStr _ => TString
  end.

Definition jstype_eqb (a b : jstype) : bool :=
  match a, b with
  | TUndefined, TUndefined | TObject, TObject | TBoolean, TBoolean
  | TNumber, TNumber | TString, TString => true
  | _, _ => false
  end.

Definition vprops (v : vnode) : props :=
  match v with
  | VElement _ p _ | VComponent _ _ p _ => p
  | _ => []
  end.

Definition vchildren (v : vnode) : list vnode :=
  match v with
  | VElement _ _ c | VComponent _ _ _ c => c
  | _ => []
  end.

Definition vkey (v : vnode) : pval := prop "key" (vprops v).

(** [a.tag !== b.tag], for values that have properties. *)
Definition tag_differs (a b : vnode) : bool :=
  match a, b with
  | VElement s _ _, VElement t _ _ => negb (String.eqb s t)
  | VComponent i _ _ _, VComponent j _ _ _ => negb (i =? j)%nat
  | VElement _ _ _, _ | VComponent _ _ _ _, _ => true
  | _, VElement _ _ _ | _, VComponent _ _ _ _ => true
  | _, _ => false
  end.

(** [isVNodeChanged(oldVNode, newVNode)]; [None] is the [TypeError] of
    reading [tag] off [null] or [undefined]. *)
Definition isVNodeChanged (old new : vnode) : option bool :=
  if negb (jstype_eqb (typeof old) (typeof new)) then Some true
  else
    match old, new with
    | VStr s, VStr t => Some (negb (String.eqb s t))
    | VNum (Num x), VNum (Num y) => Some (negb (x =? y)%Z)
    | VNum _, VNum _ => Some true
    | VUndef, _ | VNull, _ | _, VUndef | _, VNull => None
    | _, _ =>
        if tag_differs old new then Some true
        else Some (negb (strict_eq (vkey old) (vkey new)))
    end.

(** The arguments of [createElement] after the properties: nodes and arrays
    of them, to any depth. *)
Inductive child :=
| One (v : vnode)
| Many (cs : list child).

Fixpoint flat (c : child) : list vnode :=
  match c with
  | One v => [v]
  | Many cs => flat_map flat cs
  end.

Definition rendered (v : vnode) : bool :=
  match v with
  | VUndef | VNull | VBool _ => false
  | _ => true
  end.

(** [createElement(tag, props, ...children)] for a host element, and for a
    component. *)
Definition createElement (tag : string) (p : option props) (cs : list child) : vnode :=
  VElement tag (default [] p) (List.filter rendered (flat_map flat cs)).

Definition createComponent (id : nat) (body : props -> vnode) (p : option props)
    (cs : list child) : vnode :=
  VComponent id body (default [] p) (List.filter rendered (flat_map flat cs)).

(** *** The host tree

    A host node is a text node or an element.  It records what the
    reconciler wrote: text, class name, style fields, attributes (with the
    value as written, before the host turns it into a string), listeners and
    children.  Whether the host accepts a tag or an attribute name is the
    host's business and is not modelled. *)
Inductive hnode :=
| HNode (tag : option string)                  (* [None]: a text node *)
        (text : string)
        (className : option pval)              (* as last assigned *)
        (style : option (list (string * string)))   (* [None]: no [style] object *)
        (attrs : props)
        (listeners : list (string * pval))
        (children : list hnode).

Definition h_tag (n : hnode) := let 'HNode t _ _ _ _ _ _ := n in t.
Definition h_text (n : hnode) := let 'HNode _ x _ _ _ _ _ := n in x.
Definition h_class (n : hnode) := let 'HNode _ _ c _ _ _ _ := n in c.
Definition h_style (n : hnode) := let 'HNode _ _ _ s _ _ _ := n in s.
Definition h_attrs (n : hnode) := let 'HNode _ _ _ _ a _ _ := n in a.
Definition h_listeners (n : hnode) := let 'HNode _ _ _ _ _ l _ := n in l.
Definition h_children (n : hnode) := let 'HNode _ _ _ _ _ _ c := n in c.

Definition set_children (c : list hnode) (n : hnode) : hnode :=
  let 'HNode t x cl s a l _ := n in HNode t x cl s a l c.

(** The calls the reconciler makes on the host. *)
Inductive host_op :=
| CreateTextNode (s : string)
| CreateHostElement (tag : string)
| AddEventListener (type : string) (f : pval)
| RemoveEventListener (type : string) (f : pval)
| SetClassName (v : pval)
| AssignStyle (fields : list (string * string))
| ResetStyle
| SetAttribute (key : string) (v : pval)
| RemoveAttribute (key : string)
| AppendChild
| RemoveChild
| ReplaceChild
| ClearChildren.

Inductive fault :=
| NullReference          (* a property read off [null] *)
| NotAFunction           (* [setAttribute] or [removeAttribute] of a text node *)
| NotAnObject            (* [Object.assign] on a missing [style] *)
| NotAListener           (* a listener that is neither a function nor an object *)
| NotANode               (* [replaceChild] with no child to replace *)
| HierarchyRequest.      (* a child given to a text node *)

(** [String(v)] for a primitive node. *)
Definition text_of (v : vnode) : string :=
  match v with
  | VStr s => s
  | VNum NaN => "NaN"
  | VNum (Num z) => pretty z
  | _ => ""
  end.

Definition lower_char (c : ascii) : ascii :=
  let n := nat_of_ascii c in
  if ((65 <=? n) && (n <=? 90))%nat then ascii_of_nat (n + 32) else c.

Fixpoint lower (s : string) : string :=
  match s with
  | EmptyString => EmptyString
  | String c s' => String (lower_char c) (lower s')
  end.

(** [key.toLowerCase().substring(2)]. *)
Definition event_type (key : string) : string :=
  match lower key with
  | String _ (String _ r) => r
  | _ => ""
  end.

Definition is_handler_key (key : string) : bool := String.prefix "on" key.

Definition same_listener (t : string) (f : pval) (l : string * pval) : bool :=
  String.eqb t (fst l) && strict_eq f (snd l).

(** [element.addEventListener(type, f)]: once per type and callback. *)
Definition add_listener (t : string) (f : pval) (n : hnode) : hnode :=
  let 'HNode g x cl s a l c := n in
  if nullish f || existsb (same_listener t f) l then n
  else HNode g x cl s a (l ++ [(t, f)]) c.

(** [element.removeEventListener(type, f)]. *)
Definition remove_listener (t : string) (f : pval) (n : hnode) : hnode :=
  let 'HNode g x cl s a l c := n in
  HNode g x cl s a (List.filter (fun e => negb (same_listener t f e)) l) c.

(** A callback must be a function, an object, [null] or [undefined]. *)
Definition listener_ok (f : pval) : bool :=
  match f with
  | PUndef | PNull | PFun _ | PObj _ _ | PInherited _ => true
  | _ => false
  end.

Definition set_class (v : pval) (n : hnode) : hnode :=
  let 'HNode g x _ s a l c := n in HNode g x (Some v) s a l c.

Definition set_style (st : option (list (string * string))) (n : hnode) : hnode :=
  let 'HNode g x cl _ a l c := n in HNode g x cl st a l c.

(** [Object.assign(target, source)] on string fields. *)
Definition assign (target source : list (string * string)) : list (string * string) :=
  fold_left (fun acc kv => Js.assoc_set (fst kv) (snd kv) acc) source target.

Definition object_fields (v : pval) : list (string * string) :=
  match v with
  | PObj _ f => f
  | _ => []
  end.

Definition set_attr (key : string) (v : pval) (n : hnode) : hnode :=
  let 'HNode g x cl s a l c := n in HNode g x cl s (Js.assoc_set key v a) l c.

Definition remove_attr (key : string) (n : hnode) : hnode :=
  let 'HNode g x cl s a l c := n in
  HNode g x cl s (List.filter (fun kv => negb (String.eqb key (fst kv))) a) l c.

(** *** [createDOM] *)

Definition new_text (s : string) : hnode := HNode None s None None [] [] [].
Definition new_element (tag : string) : hnode := HNode (Some tag) "" None (Some []) [] [] [].

(** The body of [Object.keys(vnode.props).forEach(...)] on a new element. *)
Definition init_prop (p : props) (acc : hnode * list host_op) (key : string)
  : hnode * list host_op :=
  let '(n, ops) := acc in
  let v := prop key p in
  if is_handler_key key && is_function v then
    (add_listener (event_type key) v n, ops ++ [AddEventListener (event_type key) v])
  else if String.eqb key "className" then
    (set_class v n, ops ++ [SetClassName v])
  else if String.eqb key "style" && is_object v then
    (set_style (Some (assign (default [] (h_style n)) (object_fields v))) n,
     ops ++ [AssignStyle (object_fields v)])
  else if negb (String.eqb key "key") && negb (String.eqb key "children") then
    (set_attr key v n, ops ++ [SetAttribute key v])
  else (n, ops).

Definition append_node (acc : hnode * list host_op) (c : hnode * list host_op)
  : hnode * list host_op :=
  (set_children (h_children (fst acc) ++ [fst c]) (fst acc),
   snd acc ++ snd c ++ [AppendChild]).

(** [createDOM(vnode)]: the new host node, not yet attached, and the host
    calls made to build it. *)
Fixpoint createDOM (v : vnode) : hnode * list host_op :=
  match v with
  | VStr _ | VNum _ => (new_text (text_of v), [CreateTextNode (text_of v)])
  | VBool _ | VUndef | VNull => (new_text "", [CreateTextNode ""])
  | VComponent _ body p _ => createDOM (body p)
  | VElement tag p cs =>
      fold_left append_node (map createDOM cs)
        (fold_left (init_prop p) (keys p) (new_element tag, [CreateHostElement tag]))
  end.

(** *** The mounted tree

    [patch] reaches host nodes from the container through [firstChild] only,
    and only changes what lies below the node it was given, so a node it
    holds is known by its depth on the first-child spine of the container
    ([0] for the container itself); [None] is [null]. *)
Record host := {
  root : hnode;
  ops : list host_op
}.

Definition ref := option nat.

Inductive outcome :=
| Done (h : host)
| Fault (f : fault) (h : host).

Fixpoint spine (d : nat) (n : hnode) : option hnode :=
  match d with
  | O => Some n
  | S d' =>
      match h_children n with
      | c :: _ => spine d' c
      | [] => None
      end
  end.

Fixpoint set_spine (d : nat) (x : hnode) (n : hnode) : hnode :=
  match d with
  | O => x
  | S d' =>
      match h_children n with
      | c :: cs => set_children (set_spine d' x c :: cs) n
      | [] => n
      end
  end.

Definition log (o : list host_op) (h : host) : host :=
  {| root := root h; ops := ops h ++ o |}.

Definition modify (d : nat) (f : hnode -> hnode) (h : host) : host :=
  match spine d (root h) with
  | Some n => {| root := set_spine d (f n) (root h); ops := ops h |}
  | None => h
  end.

(** [parent.firstChild], for a [parent] that is a node. *)
Definition first_child (d : nat) (h : host) : ref :=
  match spine d (root h) with
  | Some n => match h_children n with _ :: _ => Some (S d) | [] => None end
  | None => None
  end.

(** [parent.appendChild(this.createDOM(newVNode))]. *)
Definition mount (parent : ref) (new : vnode) (h : host) : outcome :=
  let '(node, o) := createDOM new in
  let h1 := log o h in
  match parent with
  | None => Fault NullReference h1
  | Some d =>
      match spine d (root h1) with
      | Some p =>
          match h_tag p with
          | None => Fault HierarchyRequest h1
          | Some _ =>
              Done (log [AppendChild]
                      (modify d (fun n => set_children (h_children n ++ [node]) n) h1))
          end
      | None => Fault NullReference h1
      end
  end.

(** [if (parent.firstChild) parent.removeChild(parent.firstChild)]. *)
Definition unmount (parent : ref) (h : host) : outcome :=
  match parent with
  | None => Fault NullReference h
  | Some d =>
      match spine d (root h) with
      | Some p =>
          match h_children p with
          | [] => Done h
          | _ :: cs => Done (log [RemoveChild] (modify d (set_children cs) h))
          end
      | None => Fault NullReference h
      end
  end.

(** [parent.replaceChild(this.createDOM(newVNode), parent.firstChild)]. *)
Definition replace (parent : ref) (new : vnode) (h : host) : outcome :=
  let '(node, o) := createDOM new in
  let h1 := log o h in
  match parent with
  | None => Fault NullReference h1
  | Some d =>
      match spine d (root h1) with
      | Some p =>
          match h_children p with
          | [] => Fault NotANode h1
          | _ :: cs => Done (log [ReplaceChild] (modify d (set_children (node :: cs)) h1))
          end
      | None => Fault NullReference h1
      end
  end.

(** The body of the loop of [updateProperties] for one key, on the element
    [n]: the element afterwards and the host calls made, or the fault. *)
Definition update_prop (oldProps newProps : props) (key : string) (n : hnode)
  : (hnode * list host_op) + fault :=
  let oldValue := prop key oldProps in
  let newValue := prop key newProps in
  if nullish newValue then
    if is_handler_key key then
      if listener_ok oldValue
      then inl (remove_listener (event_type key) oldValue n,
                [RemoveEventListener (event_type key) oldValue])
      else inr NotAListener
    else if String.eqb key "className" then
      inl (set_class (PStr "") n, [SetClassName (PStr "")])
    else if String.eqb key "style" then
      inl (set_style (Some []) n, [ResetStyle])
    else
      match h_tag n with
      | Some _ => inl (remove_attr key n, [RemoveAttribute key])
      | None => inr NotAFunction
      end
  else if negb (strict_eq oldValue newValue) then
    if is_handler_key key && is_function newValue then
      if truthy_val oldValue then
        if listener_ok oldValue
        then inl (add_listener (event_type key) newValue
                    (remove_listener (event_type key) oldValue n),
                  [RemoveEventListener (event_type key) oldValue;
                   AddEventListener (event_type key) newValue])
        else inr NotAListener
      else inl (add_listener (event_type key) newValue n,
                [AddEventListener (event_type key) newValue])
    else if String.eqb key "className" then
      inl (set_class newValue n, [SetClassName newValue])
    else if String.eqb key "style" && is_object newValue then
      match h_style n with
      | Some st => inl (set_style (Some (assign st (object_fields newValue))) n,
                        [AssignStyle (object_fields newValue)])
      | None => inr NotAnObject
      end
    else if negb (String.eqb key "key") then
      match h_tag n with
      | Some _ => inl (set_attr key newValue n, [SetAttribute key newValue])
      | None => inr NotAFunction
      end
    else inl (n, [])
  else inl (n, []).

Fixpoint update_props (oldProps newProps : props) (ks : list string) (d : nat) (h : host)
  : outcome :=
  match ks with
  | [] => Done h
  | k :: ks' =>
      match spine d (root h) with
      | Some n =>
          match update_prop oldProps newProps k n with
          | inl (n', o) =>
              update_props oldProps newProps ks' d (log o (modify d (fun _ => n') h))
          | inr f => Fault f h
          end
      | None => Done h
      end
  end.

(** [updateProperties(element, oldProps, newProps)]. *)
Definition updateProperties (element : ref) (oldProps newProps : props) (h : host)
  : outcome :=
  match element with
  | None => Done h
  | Some d => update_props oldProps newProps (keys (spread2 oldProps newProps)) d h
  end.

(** [newVNode.tag], as a condition. *)
Definition has_tag (v : vnode) : bool :=
  match v with
  | VElement tag _ _ => negb (String.eqb tag "")
  | VComponent _ _ _ _ => true
  | _ => false
  end.

(** The iterations of the loop of [patch] past the last new child:
    [this.patch(parent.firstChild, oldChildren[i], undefined)]. *)
Fixpoint unmount_rest (d : nat) (olds : list vnode) (h : host) : outcome :=
  match olds with
  | [] => Done h
  | o :: olds' =>
      if falsy o then unmount_rest d olds' h
      else match unmount (first_child d h) h with
           | Done h' => unmount_rest d olds' h'
           | flt => flt
           end
  end.

(** [patch(parent, oldVNode, newVNode)]. *)
Fixpoint patch (parent : ref) (old new : vnode) (h : host) {struct new} : outcome :=
  if falsy old && falsy new then Done h
  else if falsy old then mount parent new h
  else if falsy new then unmount parent h
  else
    match isVNodeChanged old new with
    | None => Fault NullReference h
    | Some true => replace parent new h
    | Some false =>
        if has_tag new then
          match new with
          | VElement _ _ cs | VComponent _ _ _ cs =>
              match parent with
              | None => Fault NullReference h
              | Some d =>
                  match updateProperties (first_child d h) (vprops old) (vprops new) h with
                  | Done h1 =>
                      (fix loop (olds news : list vnode) (h : host) {struct news} : outcome :=
                         match news with
                         | [] => unmount_rest d olds h
                         | n :: news' =>
                             match patch (first_child d h) (hd VUndef olds) n h with
                             | Done h' => loop (tl olds) news' h'
                             | flt => flt
                             end
                         end) (vchildren old) cs h1
                  | flt => flt
                  end
              end
          | _ => Done h
          end
        else Done h
    end.

(** *** [render] *)

Record vdom := {
  currentTree : vnode;             (* [null] until the first render *)
  mounted : host;                  (* the container and the host calls so far *)
  pluginSystem : bool;
  completed : nat                  (* [render:complete] hooks run so far *)
}.

Inductive rendering :=
| Rendered (s : vdom)
| RenderFault (f : fault) (s : vdom).

Definition finish_render (v : vnode) (h : host) (s : vdom) : vdom :=
  {| currentTree := v; mounted := h; pluginSystem := pluginSystem s;
     completed := if pluginSystem s then S (completed s) else completed s |}.

(** [render(vnode, container)], for the one container of the application. *)
Definition render (v : vnode) (s : vdom) : rendering :=
  if falsy (currentTree s) then
    let h0 := log [ClearChildren] (modify 0 (set_children []) (mounted s)) in
    match mount (Some 0) v h0 with
    | Done h1 => Rendered (finish_render v h1 s)
    | Fault f h1 =>
        RenderFault f {| currentTree := currentTree s; mounted := h1;
                         pluginSystem := pluginSystem s; completed := completed s |}
    end
  else
    match patch (Some 0) (currentTree s) v (mounted s) with
    | Done h1 => Rendered (finish_render v h1 s)
    | Fault f h1 =>
        RenderFault f {| currentTree := currentTree s; mounted := h1;
                         pluginSystem := pluginSystem s; completed := completed s |}
    end.

(** *** Facts about the reconciler *)

(** The loop of [patch] over the children, by itself. *)
Definition patch_children (d : nat) : list vnode -> list vnode -> host -> outcome :=
  fix loop (olds news : list vnode) (h : host) {struct news} : outcome :=
    match news with
    | [] => unmount_rest d olds h
    | n :: news' =>
        match patch (first_child d h) (hd VUndef olds) n h with
        | Done h' => loop (tl olds) news' h'
        | flt => flt
        end
    end.

Lemma patch_unfold (parent : ref) (old new : vnode) (h : host) :
  patch parent old new h
  = if falsy old && falsy new then Done h
    else if falsy old then mount parent new h
    else if falsy new then unmount parent h
    else
      match isVNodeChanged old new with
      | None => Fault NullReference h
      | Some true => replace parent new h
      | Some false =>
          if has_tag new then
            match parent with
            | None => Fault NullReference h
            | Some d =>
                match updateProperties (first_child d h) (vprops old) (vprops new) h with
                | Done h1 => patch_children d (vchildren old) (vchildren new) h1
                | flt => flt
                end
            end
          else Done h
      end.
Proof. destruct new; reflexivity. Qed.

Lemma vnode_nested_ind (P : vnode -> Prop) :
  P VUndef -> P VNull -> (forall b, P (VBool b)) -> (forall n, P (VNum n)) ->
  (forall s, P (VStr s)) ->
  (forall tag p cs, Forall P cs -> P (VElement tag p cs)) ->
  (forall id body p cs, Forall P cs -> P (VComponent id body p cs)) ->
  forall v, P v.
Proof.
  intros HU HN HB HNum HS HE HC.
  refine (fix IH (v : vnode) : P v :=
            match v with
            | VUndef => HU
            | VNull => HN
            | VBool b => HB b
            | VNum n => HNum n
            | VStr s => HS s
            | VElement tag p cs =>
                HE tag p cs
                  ((fix go (l : list vnode) : Forall P l :=
                      match l with
                      | [] => @List.Forall_nil vnode P
                      | c :: l' => @List.Forall_cons vnode P c l' (IH c) (go l')
                      end) cs)
            | VComponent id body p cs =>
                HC id body p cs
                  ((fix go (l : list vnode) : Forall P l :=
                      match l with
                      | [] => @List.Forall_nil vnode P
                      | c :: l' => @List.Forall_cons vnode P c l' (IH c) (go l')
                      end) cs)
            end).
Qed.

(** Values a property may hold without the reconciler touching it again:
    anything but [null], [undefined] and [NaN]. *)
Definition clean_value (v : pval) : bool :=
  match v with
  | PUndef | PNull | PNum NaN => false
  | _ => true
  end.

Definition clean_props (p : props) : bool :=
  forallb (fun kv => clean_value (snd kv)) p.

Fixpoint clean (v : vnode) : bool :=
  match v with
  | VElement _ p cs | VComponent _ _ p cs => clean_props p && forallb clean cs
  | _ => true
  end.

Lemma strict_eq_refl (v : pval) : clean_value v = true -> strict_eq v v = true.
Proof.
  destruct v as [| |b|[|z]|s|i|i f|n]; simpl; try discriminate; intros _.
  - destruct b; reflexivity.
  - apply Z.eqb_refl.
  - apply String.eqb_refl.
  - apply Nat.eqb_refl.
  - apply Nat.eqb_refl.
  - apply String.eqb_refl.
Qed.

Lemma clean_not_nullish (v : pval) : clean_value v = true -> nullish v = false.
Proof. destruct v as [| |b|[|z]|s|i|i f|n]; simpl; congruence. Qed.

Lemma update_prop_same (p : props) (key : string) (n : hnode) :
  clean_value (prop key p) = true -> update_prop p p key n = inl (n, []).
Proof.
  intros H. unfold update_prop.
  rewrite (clean_not_nullish _ H), (strict_eq_refl _ H). reflexivity.
Qed.

Lemma set_spine_same (d : nat) (r n : hnode) :
  spine d r = Some n -> set_spine d n r = r.
Proof.
  revert r. induction d as [|d IH]; intros r; simpl.
  - intros [= ->]. reflexivity.
  - destruct r as [t x cl s a l c]. simpl. destruct c as [|c cs]; [discriminate|].
    intros H. rewrite (IH c H). reflexivity.
Qed.

Lemma modify_same (d : nat) (n : hnode) (h : host) :
  spine d (root h) = Some n -> log [] (modify d (fun _ => n) h) = h.
Proof.
  intros H. unfold log, modify. rewrite H. simpl.
  rewrite (set_spine_same d (root h) n H), app_nil_r. destruct h; reflexivity.
Qed.

Lemma update_props_same (p : props) (ks : list string) (d : nat) (h : host) :
  (forall k, In k ks -> clean_value (prop k p) = true) ->
  update_props p p ks d h = Done h.
Proof.
  induction ks as [|k ks IH]; intros H; simpl; [reflexivity|].
  destruct (spine d (root h)) as [n|] eqn:E; [|reflexivity].
  rewrite update_prop_same by (apply H; left; reflexivity).
  rewrite (modify_same d n h E). apply IH. intros k' Hk. apply H. right. exact Hk.
Qed.

Lemma spread2_keys (old new : props) (k : string) :
  In k (map fst (spread2 old new)) -> In k (map fst old) \/ In k (map fst new).
Proof.
  unfold spread2. revert old. induction new as [|[k' v'] new IH]; intros old; simpl.
  - auto.
  - intros H. destruct (IH _ H) as [H1|H1]; [|auto].
    apply in_map_iff in H1. destruct H1 as ([k0 v0] & <- & H1). simpl.
    apply Js.assoc_set_In in H1. destruct H1 as [[-> _]|H1]; [auto|].
    left. apply in_map_iff. exists (k0, v0). auto.
Qed.

Lemma clean_props_prop (p : props) (k : string) :
  clean_props p = true -> In k (map fst p) -> clean_value (prop k p) = true.
Proof.
  intros Hc Hk. destruct (Js.keys_assoc k p Hk) as [v Hv]. unfold prop. rewrite Hv.
  unfold clean_props in Hc. rewrite forallb_forall in Hc.
  exact (Hc (k, v) (Js.assoc_In k v p Hv)).
Qed.

Lemma updateProperties_same (element : ref) (p : props) (h : host) :
  clean_props p = true -> updateProperties element p p h = Done h.
Proof.
  intros Hc. destruct element as [d|]; [|reflexivity]. simpl.
  apply update_props_same. intros k Hk. apply clean_props_prop; [exact Hc|].
  unfold keys in Hk. apply in_map_iff in Hk. destruct Hk as ([k0 v0] & <- & Hk).
  apply Js.entries_In in Hk.
  assert (H : In k0 (map fst (spread2 p p)))
    by (apply in_map_iff; exists (k0, v0); auto).
  destruct (spread2_keys p p k0 H); assumption.
Qed.

(** The host after an outcome is the host before it. *)
Definition keeps (h : host) (o : outcome) : Prop :=
  match o with
  | Done h' => h' = h
  | Fault _ h' => h' = h
  end.

Lemma key_clean (p : props) :
  clean_props p = true -> strict_eq (prop "key" p) (prop "key" p) = true.
Proof.
  intros Hc. unfold prop. destruct (Js.assoc "key" p) as [v|] eqn:E; [|reflexivity].
  apply strict_eq_refl. unfold clean_props in Hc. rewrite forallb_forall in Hc.
  exact (Hc ("key", v) (Js.assoc_In "key" v p E)).
Qed.

Lemma patch_children_same (d : nat) (cs : list vnode) (h : host) :
  Forall (fun c => forall parent h, keeps h (patch parent c c h)) cs ->
  keeps h (patch_children d cs cs h).
Proof.
  induction cs as [|c cs IH]; intros H; simpl; [reflexivity|].
  inversion H as [|? ? Hc Hcs]; subst.
  specialize (Hc (first_child d h) h).
  destruct (patch (first_child d h) c c h) as [h'|f h']; simpl in Hc; subst h'.
  - apply IH. exact Hcs.
  - reflexivity.
Qed.

(** Patching a tree against itself leaves the host alone, wherever in the
    host tree it happens and whether or not it runs to the end. *)
Lemma patch_same (v : vnode) :
  clean v = true -> forall parent h, keeps h (patch parent v v h).
Proof.
  induction v as [| |b|n|s|tag p cs IH|id body p cs IH] using vnode_nested_ind;
    intros Hc parent h; rewrite patch_unfold.
  - reflexivity.
  - reflexivity.
  - destruct b; reflexivity.
  - destruct n as [|z]; [reflexivity|]. simpl.
    destruct (z =? 0)%Z eqn:E; [reflexivity|]. simpl. rewrite Z.eqb_refl. reflexivity.
  - simpl. destruct (String.eqb s "") eqn:E; [reflexivity|]. simpl.
    rewrite String.eqb_refl. reflexivity.
  - simpl in Hc. apply andb_prop in Hc. destruct Hc as [Hp Hcs].
    cbn [falsy andb isVNodeChanged typeof jstype_eqb negb tag_differs vkey vprops
         vchildren].
    unfold vkey. cbn [vprops]. rewrite String.eqb_refl, (key_clean p Hp). simpl.
    destruct (negb (String.eqb tag "")); [|reflexivity].
    destruct parent as [d|]; [|reflexivity].
    rewrite updateProperties_same by exact Hp.
    apply patch_children_same.
    rewrite forallb_forall in Hcs. rewrite List.Forall_forall in IH |- *.
    intros c Hin. apply IH; [exact Hin | apply Hcs; exact Hin].
  - simpl in Hc. apply andb_prop in Hc. destruct Hc as [Hp Hcs].
    cbn [falsy andb isVNodeChanged typeof jstype_eqb negb tag_differs vkey vprops
         vchildren has_tag].
    unfold vkey. cbn [vprops]. rewrite Nat.eqb_refl, (key_clean p Hp). simpl.
    destruct parent as [d|]; [|reflexivity].
    rewrite updateProperties_same by exact Hp.
    apply patch_children_same.
    rewrite forallb_forall in Hcs. rewrite List.Forall_forall in IH |- *.
    intros c Hin. apply IH; [exact Hin | apply Hcs; exact Hin].
Qed.

Lemma first_render (A : vnode) (s0 : vdom) :
  falsy (currentTree s0) = true ->
  h_tag (root (mounted s0)) <> None ->
  exists s1, render A s0 = Rendered s1 /\ currentTree s1 = A.
Proof.
  intros Hf Ht. unfold render. rewrite Hf. unfold mount.
  destruct (createDOM A) as [node o].
  destruct (mounted s0) as [[t x cl st a l c] os]. simpl in *.
  destruct t as [t|]; [|congruence]. simpl. eexists. split; reflexivity.
Qed.

(** A mount target with nothing rendered into it yet. *)
Definition fresh : vdom :=
  {| currentTree := VNull;
     mounted := {| root := new_element "main"; ops := [] |};
     pluginSystem := false; completed := 0 |}.

(** [h('div', { title: null })]. *)
Definition untitled : vnode := createElement "div" (Some [("title", PNull)]) [].

(** [h('div', null, 'a', 'b')], [h('div', null, 'a', 'c')], [h('div', null, 'a')]
    and [h('div', null, 'x', 'b')]. *)
Definition letters_ab : vnode := createElement "div" None [One (VStr "a"); One (VStr "b")].
Definition letters_ac : vnode := createElement "div" None [One (VStr "a"); One (VStr "c")].
Definition letter_a : vnode := createElement "div" None [One (VStr "a")].
Definition letters_xb : vnode := createElement "div" None [One (VStr "x"); One (VStr "b")].

(** What the children of the rendered element show. *)
Definition shown (s : vdom) : list string :=
  match spine 1 (root (mounted s)) with
  | Some n => map h_text (h_children n)
  | None => []
  end.

Definition after (r : rendering) : vdom :=
  match r with
  | Rendered s => s
  | RenderFault _ s => s
  end.

(** What a mount of [v] on a new target shows. *)
Definition expected (v : vnode) : list string := shown (after (render v fresh)).

Lemma render_current (A : vnode) (s0 s1 : vdom) :
  render A s0 = Rendered s1 -> currentTree s1 = A.
Proof.
  unfold render. destruct (falsy (currentTree s0)).
  - destruct (mount (Some 0) A _); [|discriminate]. intros [= <-]. reflexivity.
  - destruct (patch (Some 0) (currentTree s0) A _); [|discriminate].
    intros [= <-]. reflexivity.
Qed.

(** C8: a tree that is not itself a falsy value and in which no property is
    [null], [undefined] or [NaN], once rendered into a mount target, is
    rendered again without a single call on the host: no node is created,
    removed or replaced, no attribute, class or style written, no listener
    added or removed, whether the second pass runs to its end or stops on a
    fault. *)
Theorem render_again_is_silent (A : vnode) (s0 s1 : vdom) :
  falsy A = false ->
  clean A = true ->
  render A s0 = Rendered s1 ->
  exists s2,
    (render A s1 = Rendered s2 \/ exists f, render A s1 = RenderFault f s2)
    /\ mounted s2 = mounted s1
    /\ ops (mounted s2) = ops (mounted s1)
    /\ root (mounted s2) = root (mounted s1).
Proof.
  intros Ha Hc H1.
  pose proof (render_current A s0 s1 H1) as Hcur.
  unfold render. rewrite Hcur, Ha.
  pose proof (patch_same A Hc (Some 0) (mounted s1)) as Hk.
  destruct (patch (Some 0) A A (mounted s1)) as [h'|f h']; simpl in Hk; subst h'.
  - eexists. split; [left; reflexivity|]. simpl. auto.
  - eexists. split; [right; eexists; reflexivity|]. simpl. auto.
Qed.

Lemma render_again_is_silent_witness :
  exists s1 s2,
    render letters_ab fresh = Rendered s1
    /\ (render letters_ab s1 = Rendered s2
        \/ exists f, render letters_ab s1 = RenderFault f s2)
    /\ mounted s2 = mounted s1.
Proof.
  destruct (render_again_is_silent letters_ab fresh (after (render letters_ab fresh)))
    as (s2 & H2 & H3 & _).
  - reflexivity.
  - reflexivity.
  - reflexivity.
  - exists (after (render letters_ab fresh)), s2.
    split; [reflexivity | split; assumption].
Defined.

(** A tree rendered twice can stop the second pass on a fault, still without
    a call on the host: below a second child, [patch] walks first children
    that are not the nodes of the tree, and runs out of them. *)
Definition nested : vnode :=
  createElement "div" None
    [One (VStr "t");
     One (createElement "p" None
            [One (createElement "span" None [One (createElement "b" None [])])])].

Lemma render_again_may_fault :
  exists s1 s2,
    render nested fresh = Rendered s1
    /\ render nested s1 = RenderFault NullReference s2
    /\ mounted s2 = mounted s1.
Proof. eexists. eexists. repeat split. Qed.

(** C8 does not hold for [h('div', { title: null })]: the first render
    writes the attribute, the second one calls [removeAttribute('title')]. *)
Lemma render_again_removes_null_attribute :
  ~ (forall A s1 s2,
       render A fresh = Rendered s1 -> render A s1 = Rendered s2 ->
       ops (mounted s2) = ops (mounted s1))
  /\ exists s1 s2,
       render untitled fresh = Rendered s1
       /\ render untitled s1 = Rendered s2
       /\ ops (mounted s2) = ops (mounted s1) ++ [RemoveAttribute "title"]
       /\ (h_attrs <$> spine 1 (root (mounted s1))) = Some [("title", PNull)]
       /\ (h_attrs <$> spine 1 (root (mounted s2))) = Some [].
Proof.
  split.
  - intros H.
    specialize (H untitled (after (render untitled fresh))
                  (after (render untitled (after (render untitled fresh))))
                  eq_refl eq_refl).
    discriminate H.
  - eexists. eexists. repeat split.
Qed.

(** C2: the pair at index [1] of [div['a','b']] against [div['a','c']] puts
    its new text in the place of the first host child, and the pair at index
    [1] of [div['a','b']] against [div['a']] removes the first host child:
    the host ends up showing [c, b] and [b], where a mount of the new trees
    shows [a, c] and [a].  Only the pair at index [0] is served in its own
    place. *)
Theorem patch_works_on_first_child :
  shown (after (render letters_ab fresh)) = ["a"; "b"]
  /\ shown (after (render letters_ac (after (render letters_ab fresh)))) = ["c"; "b"]
  /\ expected letters_ac = ["a"; "c"]
  /\ shown (after (render letter_a (after (render letters_ab fresh)))) = ["b"]
  /\ expected letter_a = ["a"]
  /\ (exists s, render letters_ac (after (render letters_ab fresh)) = Rendered s)
  /\ (exists s, render letter_a (after (render letters_ab fresh)) = Rendered s)
  /\ shown (after (render letters_xb (after (render letters_ab fresh)))) = expected letters_xb.
Proof. repeat split; try reflexivity; eexists; reflexivity. Qed.

(** *** The host tree [createDOM] builds *)





(** *** Rendering into the container *)













End VDom.

(** * Permissions (vanijs.js)

    The permission system of the [vani] object and the permissions the
    framework grants to a user from its role, in [init] and in [login]. *)
Module Access.

(** [this.auth.user.role === 'admin' ? [...] : [...]]. *)
Definition role_permissions (role : string) : list string :=
  if String.eqb role "admin" then ["read"; "write"; "delete"; "admin"]
  else ["read"; "write"].

(** [hasPermission(requiredPerm)] on the permissions set last. *)
Definition hasPermission (userPermissions : list string) (requiredPerm : string) : bool :=
  Js.mem requiredPerm userPermissions || Js.mem "admin" userPermissions.

(** [logout] sets the empty list. *)
Definition logged_out : list string := [].

Lemma mem_In (k : string) (l : list string) : Js.mem k l = true <-> In k l.
Proof.
  unfold Js.mem. rewrite existsb_exists. split.
  - intros (x & Hx & He). apply String.eqb_eq in He. subst. exact Hx.
  - intros H. exists k. split; [exact H | apply String.eqb_refl].
Qed.

(** What a user may do follows from the role alone: an administrator passes
    every check, whatever permission is asked for, also one nobody ever
    defined; any other user passes the checks for [read] and [write] and no
    other; after [logout] every check fails. *)
Theorem role_decides_permission (role requiredPerm : string) :
  (hasPermission (role_permissions role) requiredPerm = true
   <-> role = "admin" \/ requiredPerm = "read" \/ requiredPerm = "write")
  /\ hasPermission logged_out requiredPerm = false.
Proof.
  split; [|reflexivity]. unfold hasPermission, role_permissions.
  destruct (String.eqb_spec role "admin") as [->|Hne].
  - split; [auto|]. intros _. apply orb_true_iff. right. reflexivity.
  - rewrite orb_true_iff, !mem_In. simpl. split.
    + intros [[H|[H|[]]]|[H|[H|[]]]]; try discriminate H; auto.
    + intros [H|[->| ->]]; [contradiction | auto | auto].
Qed.

End Access.
